(** * EarthZones: the longitude-zone engine of [earth_zones.py]

    The engine partitions the circle of longitudes into ten zones of 36
    degrees and answers point and range queries.  Its source is written
    over Python [float]s.  The development below translates each function
    once, over an abstract interface of the float operations the source
    uses, and then interprets that interface twice:

    - [Binary64]: IEEE-754 double precision, the arithmetic CPython runs,
      built on the bit-level specification [SpecFloat] of the standard
      library (round to nearest, ties to even; NaN and the infinities);
    - [Exact]: the rationals, i.e. the same program with every operation
      computed without rounding.

    The program runs on doubles, and every statement about the program
    is made on [Binary64]: concrete runs are evaluated there, and the
    statements that quantify over all finite doubles are proved from the
    rounding of each operation.  [Exact] is not the program; it is kept as
    the reading of the same formulas over the rationals, beside some of
    the runs, to tell apart what rounding changes. *)

From Stdlib Require Import ZArith QArith Qround Qabs Bool List Lia Lqa.
From Stdlib Require Import Sorting.Sorted Sorting.Permutation.
From Stdlib Require String.
From Stdlib Require Import Floats.SpecFloat.
Import ListNotations.
Import String.StringSyntax.
Delimit Scope string_scope with string.

Set Implicit Arguments.

(** ** Outcomes of a Python call *)

(** The exceptions the arithmetic of the engine can raise. *)
Inductive exn : Type :=
| ZeroDivisionError   (* [x % 0.0], [x / 0.0] *)
| ValueError          (* [math.floor(nan)] *)
| OverflowError.      (* [math.floor(inf)] *)

Inductive result (A : Type) : Type :=
| Ok (a : A)
| Raise (e : exn).

Arguments Ok {A} a.
Arguments Raise {A} e.

Definition bind {A B : Type} (r : result A) (k : A -> result B) : result B :=
  match r with
  | Ok a => k a
  | Raise e => Raise e
  end.

(** The value of a call that is known not to raise. *)
Definition the {A : Type} (d : A) (r : result A) : A :=
  match r with Ok a => a | Raise _ => d end.

Declare Scope py_scope.
Delimit Scope py_scope with py.
Notation "x <- c ;; k" := (bind c (fun x => k))
  (at level 61, c at next level, right associativity) : py_scope.

(** [for x in xs: ys.append(f(x))], stopping at the first exception. *)
Fixpoint map_result {A B : Type} (f : A -> result B) (xs : list A)
  : result (list B) :=
  match xs with
  | [] => Ok []
  | x :: xs' =>
      (y <- f x ;; ys <- map_result f xs' ;; Ok (y :: ys))%py
  end.

(** ** The float operations the source uses *)

Class PyFloat (F : Type) : Type := {
  f_add : F -> F -> F;
  f_sub : F -> F -> F;
  f_mul : F -> F -> F;
  f_neg : F -> F;
  (** [x / y] and [x % y] for a divisor that is not zero; the zero
      divisor is handled by [py_div] and [py_mod] below *)
  f_div : F -> F -> F;
  f_rem : F -> F -> F;
  f_eqb : F -> F -> bool;
  f_ltb : F -> F -> bool;
  f_leb : F -> F -> bool;
  (** [float(n)] for a Python int *)
  f_of_int : Z -> F;
  (** the literal written [m * 10^-k] in decimal, e.g. [116.7] *)
  f_dec : Z -> nat -> F;
  (** [math.floor] *)
  f_floor : F -> result Z;
  (** [x] printed with [d] decimals, as in the format [.4f]: the integer
      [n] such that the text reads [n / 10^d]; [None] when the text is
      [nan] or [inf] *)
  f_fixed : nat -> F -> option Z
}.

Module EarthZones.
Section Program.

Context {F : Type} `{PyFloat F}.

Local Open Scope py_scope.

Notation "x + y" := (f_add x y) : py_scope.
Notation "x - y" := (f_sub x y) : py_scope.
Notation "x * y" := (f_mul x y) : py_scope.
Notation "x == y" := (f_eqb x y) (at level 70, no associativity) : py_scope.
Notation "x < y" := (f_ltb x y) : py_scope.
Notation "x <= y" := (f_leb x y) : py_scope.
Notation "x > y" := (f_ltb y x) : py_scope.

Definition f0 : F := f_of_int 0.
Definition f180 : F := f_dec 1800 1.          (* 180.0 *)
Definition f360 : F := f_dec 3600 1.          (* 360.0 *)
Definition fm180 : F := f_neg f180.           (* -180.0 *)
Definition fm1 : F := f_neg (f_dec 10 1).     (* -1.0 *)

(** Python's [x % y] on floats *)
Definition py_mod (x y : F) : result F :=
  if y == f0 then Raise ZeroDivisionError else Ok (f_rem x y).

(** Python's [x / y] on floats *)
Definition py_div (x y : F) : result F :=
  if y == f0 then Raise ZeroDivisionError else Ok (f_div x y).

Definition ZONE_WIDTH_DEG : F := f_dec 360 1.                 (* 36.0 *)
Definition LANGFANG_LON_EAST_BOUNDARY : F := f_dec 1167 1.    (* 116.7 *)

Definition normalize_lon_edge (lon : F) : result F :=
  m <- py_mod (lon + f180) f360 ;;
  let x := m - f180 in
  if (x == fm180) && (lon > f0) then Ok f180 else Ok x.

Definition normalize_lon_point (lon : F) : result F :=
  x <- normalize_lon_edge lon ;;
  if x == f180 then Ok fm180 else Ok x.

Definition lon_to_360 (lon : F) : result F := py_mod lon f360.

Definition lon360_to_edge (lon360 : F) : F :=
  let x := lon360 in
  let x := if x > f180 then x - f360 else x in
  if x == fm180 then fm180 else x.

(** [sorted]: a stable sort that compares with [<] only.  Python specifies
    [sorted] as such a sort, so on a list on which [<] is a strict weak
    order (floats without NaN) this is its result.  On a list that holds a
    NaN the order CPython leaves depends on the runs its merge sort finds,
    and this definition does not give it: the statements below about
    [circular_min_cover_interval] are about lists of finite doubles, whose
    images under [lon_to_360] hold no NaN. *)
Fixpoint insert_sorted (x : F) (l : list F) : list F :=
  match l with
  | [] => [x]
  | y :: l' => if x < y then x :: y :: l' else y :: insert_sorted x l'
  end.

Definition sorted (l : list F) : list F :=
  fold_left (fun acc x => insert_sorted x acc) l [].

(** One turn of the loop that looks for the largest gap; the state is
    [(max_gap, max_i)]. *)
Definition gap_step (pts : list F) (st : result (F * nat)) (i : nat)
  : result (F * nat) :=
  s <- st ;;
  let '(max_gap, max_i) := s in
  let a := nth i pts f0 in
  let b := nth (Nat.modulo (S i) (length pts)) pts f0 in
  gap <- py_mod (b - a) f360 ;;
  if gap > max_gap then Ok (gap, i) else Ok (max_gap, max_i).

Definition max_gap_scan (pts : list F) : result (F * nat) :=
  fold_left (gap_step pts) (seq 0 (length pts)) (Ok (fm1, 0%nat)).

Definition circular_min_cover_interval (lons : list F)
  : result (option (F * F)) :=
  match lons with
  | [] => Ok None
  | _ =>
      l360 <- map_result lon_to_360 lons ;;
      let pts := sorted l360 in
      match pts with
      | [p] => let w := lon360_to_edge p in Ok (Some (w, w))
      | _ =>
          s <- max_gap_scan pts ;;
          let max_i := snd s in
          let east_start := nth (Nat.modulo (S max_i) (length pts)) pts f0 in
          let west_start := nth max_i pts f0 in
          let west_360 := east_start in
          let east_360 := west_start in
          let west := lon360_to_edge west_360 in
          let east := lon360_to_edge east_360 in
          Ok (Some (west, east))
      end
  end.

Record ZoneInterval : Type := mkZoneInterval {
  zone : Z;
  west : F;
  east : F
}.

(** The body shared by the loop of [build_zone_intervals] and the tail of
    [lon_to_zone_interval]: the interval that lies [steps_east] zones east
    of [origin]. *)
Definition zone_at (origin : F) (steps_east : Z) : result ZoneInterval :=
  let zone := ((9 - steps_east) mod 10)%Z in
  west <- normalize_lon_point (origin + f_of_int steps_east * ZONE_WIDTH_DEG) ;;
  east <- normalize_lon_point (west + ZONE_WIDTH_DEG) ;;
  Ok (mkZoneInterval zone west east).

(** [origin]: the west edge of zone 9 *)
Definition zone_origin (east_boundary_zone9 : F) : result F :=
  east_b <- normalize_lon_point east_boundary_zone9 ;;
  normalize_lon_point (east_b - ZONE_WIDTH_DEG).

Definition range10 : list Z := [0; 1; 2; 3; 4; 5; 6; 7; 8; 9]%Z.

Definition build_zone_intervals (east_boundary_zone9 : F)
  : result (list ZoneInterval) :=
  origin <- zone_origin east_boundary_zone9 ;;
  map_result (zone_at origin) range10.

(** [steps_east] as [lon_to_zone_interval] computes it *)
Definition steps_east_of (lon east_boundary_zone9 : F) : result Z :=
  lon_n <- normalize_lon_point lon ;;
  origin <- zone_origin east_boundary_zone9 ;;
  diff <- py_mod (lon_n - origin) f360 ;;
  q <- py_div diff ZONE_WIDTH_DEG ;;
  f_floor q.

Definition lon_to_zone_interval (lon east_boundary_zone9 : F)
  : result ZoneInterval :=
  lon_n <- normalize_lon_point lon ;;
  origin <- zone_origin east_boundary_zone9 ;;
  diff <- py_mod (lon_n - origin) f360 ;;
  q <- py_div diff ZONE_WIDTH_DEG ;;
  steps_east <- f_floor q ;;
  zone_at origin steps_east.

Definition split_range (west east : F) : result (list (F * F)) :=
  w <- normalize_lon_edge west ;;
  e <- normalize_lon_edge east ;;
  if w <= e then Ok [(w, e)] else Ok [(w, f180); (fm180, e)].

Definition ranges_intersect (a b : F * F) : bool :=
  let '(a0, a1) := a in
  let '(b0, b1) := b in
  (a0 < b1) && (b0 < a1).

(** [covered.sort(key=lambda x: x.zone)]: stable, ascending by zone *)
Fixpoint insert_by_zone (z : ZoneInterval) (l : list ZoneInterval)
  : list ZoneInterval :=
  match l with
  | [] => [z]
  | y :: l' =>
      if (zone z <? zone y)%Z then z :: y :: l' else y :: insert_by_zone z l'
  end.

Definition sort_by_zone (l : list ZoneInterval) : list ZoneInterval :=
  fold_left (fun acc z => insert_by_zone z acc) l [].

(** The flag [hit] of the two inner loops: some part of the query meets
    some part of the zone. *)
Definition zone_hit (parts : list (F * F)) (zi : ZoneInterval) : result bool :=
  zi_parts <- split_range (west zi) (east zi) ;;
  Ok (existsb (fun p => existsb (fun zp => ranges_intersect p zp) zi_parts) parts).

Fixpoint collect_covered (parts : list (F * F)) (intervals : list ZoneInterval)
  : result (list ZoneInterval) :=
  match intervals with
  | [] => Ok []
  | zi :: rest =>
      hit <- zone_hit parts zi ;;
      covered <- collect_covered parts rest ;;
      Ok (if hit then zi :: covered else covered)
  end.

Definition zones_covered_by_lon_range (bbox_west bbox_east east_boundary_zone9 : F)
  : result (list ZoneInterval) :=
  parts <- split_range bbox_west bbox_east ;;
  intervals <- build_zone_intervals east_boundary_zone9 ;;
  covered <- collect_covered parts intervals ;;
  Ok (sort_by_zone covered).

(** The two numbers [pretty_range] prints for an interval that does not
    cross the seam, each as a count of [10^-digits] degrees. *)
Definition pretty_range_digits (w e : F) (digits : nat)
  : result (option (Z * Z)) :=
  parts <- split_range w e ;;
  match parts with
  | [(a, b)] =>
      match f_fixed digits a, f_fixed digits b with
      | Some na, Some nb => Ok (Some (na, nb))
      | _, _ => Ok None
      end
  | _ => Ok None
  end.

(** The half-open arc [[west, east)] of a zone, read eastward: a zone with
    [west <= east] is an ordinary interval, one with [west > east] runs
    through the seam, [[west, 180)] followed by [[-180, east)] (the two
    pieces [pretty_range] prints). *)
Definition arc_contains (zi : ZoneInterval) (p : F) : bool :=
  if west zi <= east zi
  then (west zi <= p) && (p < east zi)
  else (west zi <= p) || (p < east zi).

End Program.
End EarthZones.

(** ** Printing with a fixed number of decimals *)

(** Round a quotient of naturals to the nearest integer, ties to even. *)
Definition round_half_even (n d : Z) : Z :=
  let q := (n / d)%Z in
  let r := (n mod d)%Z in
  match Z.compare (2 * r)%Z d with
  | Lt => q
  | Gt => (q + 1)%Z
  | Eq => if Z.even q then q else (q + 1)%Z
  end.

(** ** IEEE-754 double precision *)

Module Binary64.

Local Open Scope Z_scope.

Definition prec : Z := 53.
Definition emax : Z := 1024.

Definition float : Type := spec_float.

Definition add : float -> float -> float := SFadd prec emax.
Definition sub : float -> float -> float := SFsub prec emax.
Definition mul : float -> float -> float := SFmul prec emax.
Definition div : float -> float -> float := SFdiv prec emax.
Definition neg : float -> float := SFopp.
Definition eqb : float -> float -> bool := SFeqb.
Definition ltb : float -> float -> bool := SFltb.
Definition leb : float -> float -> bool := SFleb.

(** [float(n)]: the double nearest to the integer [n] *)
Definition of_int (n : Z) : float := binary_normalize prec emax n 0 false.

(** A decimal literal [m * 10^-k].  Both [m] and [10^k] are doubles for the
    literals of the source, so the correctly rounded quotient is the double
    nearest to the decimal, which is what Python's parser produces. *)
Definition dec (m : Z) (k : nat) : float :=
  div (of_int m) (of_int (10 ^ Z.of_nat k)).

Definition pzero : float := S754_zero false.
Definition nzero : float := S754_zero true.
Definition nan : float := S754_nan.
Definition pinf : float := S754_infinity false.
Definition ninf : float := S754_infinity true.

Definition is_nan (x : float) : bool :=
  match x with S754_nan => true | _ => false end.

Definition is_finite (x : float) : bool :=
  match x with
  | S754_zero _ | S754_finite _ _ _ => true
  | _ => false
  end.

(** C's [fmod(x, y)]: the remainder of the division truncated toward zero.
    It has the sign of [x] and is computed without rounding error: both
    operands are brought to the common exponent [e], the integer remainder
    is taken, and the result (smaller than both) is a double again. *)
Definition fmod (x y : float) : float :=
  match x, y with
  | S754_nan, _ | _, S754_nan => S754_nan
  | S754_infinity _, _ => S754_nan
  | _, S754_zero _ => S754_nan
  | S754_zero _, _ => x
  | S754_finite _ _ _, S754_infinity _ => x
  | S754_finite sx mx ex, S754_finite _ my ey =>
      let e := Z.min ex ey in
      let X := Z.shiftl (Zpos mx) (ex - e) in
      let Y := Z.shiftl (Zpos my) (ey - e) in
      match Z.rem X Y with
      | Z0 => S754_zero sx
      | r => binary_normalize prec emax (cond_Zopp sx r) e false
      end
  end.

(** CPython's [float_rem] for a divisor that is not zero:
<<
    mod = fmod(vx, wx);
    if (mod) { if ((wx < 0) != (mod < 0)) mod += wx; }
    else mod = copysign(0.0, wx);
>>
    The addition [mod += wx] is a float addition and rounds. *)
Definition rem (vx wx : float) : float :=
  let m := fmod vx wx in
  if negb (eqb m pzero) then
    if negb (Bool.eqb (ltb wx pzero) (ltb m pzero)) then add m wx else m
  else
    if ltb wx pzero then nzero else pzero.

(** [math.floor]: the largest integer below a finite double *)
Definition floor (x : float) : result Z :=
  match x with
  | S754_nan => Raise ValueError
  | S754_infinity _ => Raise OverflowError
  | S754_zero _ => Ok 0
  | S754_finite s m e =>
      Ok (Z.shiftl (cond_Zopp s (Zpos m)) e)
  end.

(** The format [.df] prints the decimal nearest to the exact value of the
    double. *)
Definition fixed (d : nat) (x : float) : option Z :=
  match x with
  | S754_zero _ => Some 0
  | S754_finite s m e =>
      let p := 10 ^ Z.of_nat d in
      let n :=
        if 0 <=? e then Zpos m * 2 ^ e * p
        else round_half_even (Zpos m * p) (2 ^ (- e)) in
      Some (cond_Zopp s n)
  | _ => None
  end.

#[global] Instance PyFloat_binary64 : PyFloat float := {
  f_add := add;
  f_sub := sub;
  f_mul := mul;
  f_neg := neg;
  f_div := div;
  f_rem := rem;
  f_eqb := eqb;
  f_ltb := ltb;
  f_leb := leb;
  f_of_int := of_int;
  f_dec := dec;
  f_floor := floor;
  f_fixed := fixed
}.

(** The double with mantissa [m] and exponent [e], and its negation. *)
Definition pos (m : positive) (e : Z) : float := S754_finite false m e.
Definition negf (m : positive) (e : Z) : float := S754_finite true m e.

(** *** Values and rounding

    The vocabulary of the proofs about doubles: the value of a double as an
    integer count of [2^-1074], the smallest positive double, and rounding
    to nearest written on such integers. *)

(** The record [shr] holds after [k] shifts of the mantissa [M]: the
    quotient, the last bit shifted out, and whether a lower bit was set. *)
Definition shifted (M k : Z) : shr_record :=
  {| shr_m := M / 2 ^ k;
     shr_r := if k =? 0 then false else Z.testbit M (k - 1);
     shr_s := if k =? 0 then false else negb (M mod 2 ^ (k - 1) =? 0) |}.

(** The rounded quotient, from the quotient [m1], the remainder [R] and
    half the divisor. *)
Definition rne (m1 R half : Z) : Z :=
  match Z.compare R half with
  | Lt => m1
  | Eq => if Z.even m1 then m1 else m1 + 1
  | Gt => m1 + 1
  end.

Definition fexp64 (k : Z) : Z := Z.max (k - 53) (-1074).

Definition digits (v : Z) : Z := Z.log2 v + 1.

(** The double of sign [s], mantissa [q] in [[1, 2^53]] and exponent [E];
    a mantissa that was rounded up to [2^53] moves to the next binade.
    Values beyond the largest double become infinite. *)
Definition pack (s : bool) (q E : Z) : float :=
  if q <? 2 ^ 53
  then (if E <=? 971 then S754_finite s (Z.to_pos q) E else S754_infinity s)
  else (if E + 1 <=? 971 then S754_finite s (Z.to_pos (2 ^ 52)) (E + 1)
        else S754_infinity s).

(** The double nearest to [v * 2^-1074], for an integer [v > 0]. *)
Definition round_scaled (s : bool) (v : Z) : float :=
  let D := digits v in
  if D <=? 53 then S754_finite s (Z.to_pos v) (-1074)
  else
    let n := D - 53 in
    pack s (rne (v / 2 ^ n) (v mod 2 ^ n) (2 ^ (n - 1))) (n - 1074).

(** The value of a finite double, in units of [2^-1074] *)
Definition V (f : float) : Z :=
  match f with
  | S754_finite s m e => cond_Zopp s (Zpos m * 2 ^ (e + 1074))
  | _ => 0
  end.

(** A double that Python can hold and that is finite *)
Definition Fin (f : float) : Prop :=
  valid_binary prec emax f = true /\ is_finite f = true.

(** The value [round_scaled] rounds [v] to *)
Definition nearest (v : Z) : Z :=
  if digits v <=? 53 then v
  else
    let n := digits v - 53 in
    rne (v / 2 ^ n) (v mod 2 ^ n) (2 ^ (n - 1)) * 2 ^ n.

(** The double nearest to the scaled integer [v], of either sign *)
Definition rnd (v : Z) : float :=
  if v =? 0 then pzero else round_scaled (v <? 0) (Z.abs v).

(** One degree, in units of [2^-1074] *)
Definition deg : Z := 2 ^ 1074.

Definition c180 : Z := 180 * deg.

Definition c360 : Z := 360 * deg.

Definition M180 : positive := 6333186975989760.

(** What [normalize_lon_point] computes before it folds [+180] *)
Definition y0 (x : float) : float :=
  sub (rem (add x EarthZones.f180) EarthZones.f360) EarthZones.f180.

End Binary64.

(** ** Exact arithmetic

    The formulas of the source over the rationals: no rounding, no NaN, no
    infinity.  This is not what the program computes; no statement about
    the program rests on it. *)

Module Exact.

Local Open Scope Q_scope.

(** [x % y] without rounding: [x - y * floor (x / y)] *)
Definition qrem (x y : Q) : Q := x - y * inject_Z (Qfloor (x / y)).

Definition qltb (x y : Q) : bool := negb (Qle_bool y x).

Definition qdec (m : Z) (k : nat) : Q :=
  inject_Z m / inject_Z (10 ^ Z.of_nat k).

Definition qfixed (d : nat) (x : Q) : option Z :=
  let y := Qred (x * inject_Z (10 ^ Z.of_nat d)) in
  Some (round_half_even (Qnum y) (Zpos (Qden y))).

#[global] Instance PyFloat_exact : PyFloat Q := {
  f_add := Qplus;
  f_sub := Qminus;
  f_mul := Qmult;
  f_neg := Qopp;
  f_div := Qdiv;
  f_rem := qrem;
  f_eqb := Qeq_bool;
  f_ltb := qltb;
  f_leb := Qle_bool;
  f_of_int := inject_Z;
  f_dec := qdec;
  f_floor := fun x => Ok (Qfloor x);
  f_fixed := qfixed
}.

(** *** Values of the program in exact arithmetic

    No call below raises in exact arithmetic (see [edge_ok], [point_ok],
    [zone_at_ok] and the like); these names stand for what the calls
    return. *)

(** [a] and [b] are the same point of the circle *)
Definition cong (a b : Q) : Prop := exists k : Z, a == b + 360 * inject_Z k.

(** What [normalize_lon_edge] and [normalize_lon_point] return *)
Definition edge (x : Q) : Q := the 0 (EarthZones.normalize_lon_edge x).
Definition point (x : Q) : Q := the 0 (EarthZones.normalize_lon_point x).

(** The remainder both normalizers start from *)
Definition base (x : Q) : Q := qrem (x + 180) 360 - 180.

(** What [zone_origin] and [zone_at] return, field by field *)
Definition origin (b : Q) : Q := point (point b - EarthZones.ZONE_WIDTH_DEG).
Definition west_at (o : Q) (k : Z) : Q :=
  point (o + inject_Z k * EarthZones.ZONE_WIDTH_DEG).
Definition east_at (o : Q) (k : Z) : Q :=
  point (west_at o k + EarthZones.ZONE_WIDTH_DEG).
Definition zone_of (o : Q) (k : Z) : EarthZones.ZoneInterval :=
  EarthZones.mkZoneInterval ((9 - k) mod 10) (west_at o k) (east_at o k).

(** What [steps_east_of] returns *)
Definition steps (lon b : Q) : Z :=
  Qfloor (qrem (point lon - origin b) EarthZones.f360 / EarthZones.ZONE_WIDTH_DEG).

(** The offset of the point east of the origin, in [[0, 360)] *)
Definition diff (lon b : Q) : Q := qrem (point lon - origin b) 360.

(** The test of the inner loops of [zones_covered_by_lon_range], for the
    one-segment query [(p, p)] *)
Definition hitb (p : Q) (zi : EarthZones.ZoneInterval) : bool :=
  if f_leb (edge (EarthZones.west zi)) (edge (EarthZones.east zi))
  then EarthZones.ranges_intersect
         (p, p) (edge (EarthZones.west zi), edge (EarthZones.east zi))
  else EarthZones.ranges_intersect
         (p, p) (edge (EarthZones.west zi), EarthZones.f180)
       || EarthZones.ranges_intersect
            (p, p) (EarthZones.fm180, edge (EarthZones.east zi)).

End Exact.

Import EarthZones.

(** ** Inputs and outputs of the runs below *)

Module Data.
Import Binary64.

Local Open Scope Z_scope.

(** The ten zones of the default boundary, as the doubles the loop of
    [build_zone_intervals] produces. *)
Definition default_zones : list (ZoneInterval (F := float)) :=
  [ mkZoneInterval 9 (pos 5678757655137484 (-46)) (pos 8212032445533388 (-46));
    mkZoneInterval 8 (pos 8212032445533388 (-46)) (pos 5372653617964646 (-45));
    mkZoneInterval 7 (pos 5372653617964646 (-45)) (negf 6027082938816922 (-45));
    mkZoneInterval 6 (negf 6027082938816922 (-45)) (negf 4760445543618970 (-45));
    mkZoneInterval 5 (negf 4760445543618970 (-45)) (negf 6987616296842036 (-46));
    mkZoneInterval 4 (negf 6987616296842036 (-46)) (negf 8908683012892264 (-47));
    mkZoneInterval 3 (negf 8908683012892264 (-47)) (negf 7684266864200912 (-48));
    mkZoneInterval 2 (negf 7684266864200896 (-48)) (pos 4897664594765440 (-49));
    mkZoneInterval 1 (pos 4897664594765440 (-49)) (pos 6290965729483168 (-47));
    mkZoneInterval 0 (pos 6290965729483168 (-47)) (pos 5678757655137488 (-46)) ].

Definition zone9_default : ZoneInterval (F := float) :=
  mkZoneInterval 9 (pos 5678757655137484 (-46)) (pos 8212032445533388 (-46)).
Definition zone8_default : ZoneInterval (F := float) :=
  mkZoneInterval 8 (pos 8212032445533388 (-46)) (pos 5372653617964646 (-45)).
Definition zone7_default : ZoneInterval (F := float) :=
  mkZoneInterval 7 (pos 5372653617964646 (-45)) (negf 6027082938816922 (-45)).

(** The literal [-86.00000000000001]: the double just below [-86.0]. *)
Definition lon_below_m86 : float := f_dec (-8600000000000001) 14.
(** The boundary [-50.0]; its zone 9 is [[-86, -50)], its zone 0 is
    [[-122, -86)]. *)
Definition boundary_m50 : float := f_dec (-500) 1.
Definition zone9_m50 : ZoneInterval (F := float) :=
  mkZoneInterval 9 (negf 6051711999279104 (-46)) (negf 7036874417766400 (-47)).
Definition zone0_m50 : ZoneInterval (F := float) :=
  mkZoneInterval 0 (negf 8584986789675008 (-46)) (negf 6051711999279104 (-46)).

Definition zone0_default : ZoneInterval (F := float) :=
  mkZoneInterval 0 (pos 6290965729483168 (-47)) (pos 5678757655137488 (-46)).
(** The east edge computed for zone 3 of the default boundary; the west
    edge computed for zone 2 lies [2^-44] further east. *)
Definition east3_default : float := negf 7684266864200912 (-48).

(** No zone of the list has [p] as its west or east edge. *)
Definition no_edge_at {F : Type} `{PyFloat F} (zs : list ZoneInterval) (p : F)
  : bool :=
  forallb (fun zi => negb (f_eqb (west zi) p) && negb (f_eqb (east zi) p)) zs.

(** The doubles next to the seam: the one just below [-180.0] (it prints as
    [-180.00000000000003]), and the two next to [180.0]
    ([179.99999999999997] and [180.00000000000003]). *)
Definition below_m180 : float := negf 6333186975989761 (-45).
Definition below_180 : float := pos 6333186975989759 (-45).
Definition above_180 : float := pos 6333186975989761 (-45).

(** The literal [-0.1], what [circular_min_cover_interval([-0.1])] returns
    for it, and what [normalize_lon_edge(-0.1)] returns. *)
Definition lon_m01 : float := f_dec (-1) 1.
Definition cover_m01 : float := negf 7205759403794432 (-56).
Definition edge_m01 : float := negf 7205759403792384 (-56).

(** The boundary [-81.4]; the east edge computed for its zone 0 lies
    [2^-45] east of the west edge computed for its zone 9, and
    [lon_between_m814] is the double between the two. *)
Definition boundary_m814 : float := f_dec (-814) 1.
Definition zone0_m814 : ZoneInterval (F := float) :=
  mkZoneInterval 0 (negf 5397282678426828 (-45)) (negf 8261290566457752 (-46)).
Definition zone9_m814 : ZoneInterval (F := float) :=
  mkZoneInterval 9 (negf 8261290566457754 (-46)) (negf 5728015776061850 (-46)).
Definition lon_between_m814 : float := negf 8261290566457753 (-46).

End Data.

(** ** Vocabulary of the statements about doubles *)

Module Binary64Defs.
Import Binary64.

(** The literal [-1e-20] *)
Definition tiny_west : float := f_dec (-1) 20.

(** The range predicate of an edge: a finite double of [[-180, 180)] *)
Definition edge_ok_b64 (y : float) : Prop :=
  is_finite y = true /\ f_leb fm180 y = true /\ f_ltb y f180 = true.

(** The point [p] lies strictly between the edges of the zone: inside
    [(west, east)], or for a zone that runs through the seam inside
    [(west, 180)] or [(-180, east)]. *)
Definition strictly_inside (zi : ZoneInterval (F := float)) (p : float) : bool :=
  if f_leb (west zi) (east zi)
  then f_ltb (west zi) p && f_ltb p (east zi)
  else (f_ltb (west zi) p && f_ltb p f180)
       || (f_ltb fm180 p && f_ltb p (east zi)).

(** The point [p] lies between the normalized ends [w] and [e] of a range,
    the ends included: in [[w, e]] when [w <= e], else in [[w, 180]] or
    [[-180, e]]. *)
Definition in_range_closed (w e p : float) : bool :=
  if f_leb w e then f_leb w p && f_leb p e else f_leb w p || f_leb p e.

(** The values [x] and [y] (in units of [2^-1074] degrees) are the same
    point of the circle up to [tol]: they differ by whole turns and at most
    [tol]. *)
Definition near_mod360 (tol x y : Z) : Prop :=
  exists k : Z, (Z.abs (x - (y + k * c360)) <= tol)%Z.

(** The edges of a zone as [zone_at] computes them: finite doubles of
    [[-180, 180)] that [normalize_lon_edge] leaves as they are, the east
    edge being the point form of [west + 36.0]. *)
Definition zone_edges_ok (zi : ZoneInterval (F := float)) : Prop :=
  (Fin (west zi) /\ (- c180 <= V (west zi) < c180)%Z /\
   normalize_lon_edge (west zi) = Ok (west zi)) /\
  (Fin (east zi) /\ (- c180 <= V (east zi) < c180)%Z /\
   normalize_lon_edge (east zi) = Ok (east zi)) /\
  normalize_lon_point (f_add (west zi) ZONE_WIDTH_DEG) = Ok (east zi).

End Binary64Defs.

(** ** Python values, as far as the geometry of a place needs them *)

(** [float(n)] for a Python int: [OverflowError] when [n] is beyond the
    doubles. *)
Class PyFloatOfInt (F : Type) : Type := {
  f_float_of_int : Z -> result F
}.

#[global] Instance PyFloatOfInt_binary64 : PyFloatOfInt Binary64.float := {
  f_float_of_int := fun n =>
    if Binary64.is_finite (Binary64.of_int n) then Ok (Binary64.of_int n)
    else Raise OverflowError
}.

#[global] Instance PyFloatOfInt_exact : PyFloatOfInt Q := {
  f_float_of_int := fun n => Ok (inject_Z n)
}.

Module GeoJSON.
Section GeoJSON.

Context {F : Type} `{PyFloat F} `{PyFloatOfInt F}.

Local Open Scope py_scope.

#[local] Unset Elimination Schemes.

(** The values for which [isinstance(x, (int, float))] holds; [bool] is a
    subclass of [int]. *)
Inductive pynum : Type :=
| NBool (b : bool)
| NInt (n : Z)
| NFloat (x : F).

(** A decoded JSON document; a dict is the list of its items, in which a
    key is looked up from the front. *)
Inductive pyval : Type :=
| PNone
| PNum (n : pynum)
| PStr (s : String.string)
| PList (l : list pyval)
| PTuple (l : list pyval)
| PDict (d : list (String.string * pyval)).

(** [float(x)] for a number *)
Definition py_float (n : pynum) : result F :=
  match n with
  | NBool b => f_float_of_int (if b then 1 else 0)%Z
  | NInt n => f_float_of_int n
  | NFloat x => Ok x
  end.

(** [bool(x)], the truth value the test [not geom] reads *)
Definition truthy (v : pyval) : bool :=
  match v with
  | PNone => false
  | PNum (NBool b) => b
  | PNum (NInt n) => negb (n =? 0)%Z
  | PNum (NFloat x) => negb (f_eqb x f0)
  | PStr s => negb (String.eqb s String.EmptyString)
  | PList l | PTuple l => match l with [] => false | _ => true end
  | PDict d => match d with [] => false | _ => true end
  end.

(** [isinstance(v, dict)] *)
Definition is_dict (v : pyval) : bool :=
  match v with PDict _ => true | _ => false end.

(** [d.get(key)]: the value of the key, [None] when the key is absent *)
Fixpoint dict_get (d : list (String.string * pyval)) (key : String.string) : pyval :=
  match d with
  | [] => PNone
  | (k, v) :: d' => if String.eqb k key then v else dict_get d' key
  end.

(** [walk_coords(obj)], with the list [lons] it appends to: a list or tuple
    of exactly two numbers is a position [[lon, lat]] and gives its first
    number; any other list or tuple is walked item by item; anything else
    is skipped. *)
Fixpoint walk_coords (obj : pyval) (lons : list F) {struct obj} : result (list F) :=
  match obj with
  | PList l | PTuple l =>
      match l with
      | [PNum a; PNum _] => x <- py_float a ;; Ok (lons ++ [x])
      | _ =>
          (fix walk_items (items : list pyval) (lons : list F) {struct items}
             : result (list F) :=
             match items with
             | [] => Ok lons
             | it :: items' =>
                 lons' <- walk_coords it lons ;; walk_items items' lons'
             end) l lons
      end
  | _ => Ok lons
  end.

(** The loop [for it in obj: walk_coords(it)] *)
Definition walk_items (items : list pyval) (lons : list F) : result (list F) :=
  (fix walk_items (items : list pyval) (lons : list F) {struct items}
     : result (list F) :=
     match items with
     | [] => Ok lons
     | it :: items' =>
         lons' <- walk_coords it lons ;; walk_items items' lons'
     end) items lons.

(** [extract_lons_from_geojson(geom)]: the list [lons] that the inner
    function of the source appends to is the second argument of
    [walk_coords].  The recursion limit of the interpreter is not part of
    the model, which follows arrays to any depth. *)
Definition extract_lons_from_geojson (geom : pyval) : result (list F) :=
  if negb (truthy geom) || negb (is_dict geom) then Ok []
  else
    match geom with
    | PDict d => walk_coords (dict_get d "coordinates"%string) []
    | _ => Ok []
    end.

(** *** Coordinate arrays

    The shapes GeoJSON gives to the member [coordinates]: a position is an
    array of numbers, and positions are nested in arrays to any depth. *)
Inductive coords : Type :=
| Position (nums : list pynum)
| Nested (items : list coords).

(** The Python value of a coordinate array, as [json] decodes it *)
Fixpoint coords_value (c : coords) : pyval :=
  match c with
  | Position nums => PList (map PNum nums)
  | Nested items => PList (map coords_value items)
  end.

(** What the flattening is to return, read off the shape of the document
    and not off the code: the first number of every position of exactly
    two numbers, converted by [float], in the order of the document. *)
Fixpoint longitudes_of (c : coords) : result (list F) :=
  match c with
  | Position [a; _] => x <- py_float a ;; Ok [x]
  | Position _ => Ok []
  | Nested items =>
      (fix all (items : list coords) : result (list F) :=
         match items with
         | [] => Ok []
         | c' :: items' =>
             xs <- longitudes_of c' ;; ys <- all items' ;; Ok (xs ++ ys)
         end) items
  end.

(** The array of the positions [[x, y]] of a line *)
Definition line_value (ps : list (F * F)) : pyval :=
  PList (map (fun p => PList [PNum (NFloat (fst p)); PNum (NFloat (snd p))]) ps).

(** The array of the positions [[x, y, z]] of a line with altitudes *)
Definition line3_value (ps : list (F * F * F)) : pyval :=
  PList (map (fun p => PList [PNum (NFloat (fst (fst p)));
                              PNum (NFloat (snd (fst p)));
                              PNum (NFloat (snd p))]) ps).

(** The longitudes of the items of a nested array, one after the other *)
Definition longitudes_of_all (items : list coords) : result (list F) :=
  (fix all (items : list coords) : result (list F) :=
     match items with
     | [] => Ok []
     | c' :: items' =>
         xs <- longitudes_of c' ;; ys <- all items' ;; Ok (xs ++ ys)
     end) items.

End GeoJSON.
End GeoJSON.

(** * Facts that hold for every arithmetic *)

Module Generic.
Section Generic.

Context {F : Type} `{PyFloat F}.

Lemma bind_ok {A B : Type} (a : A) (k : A -> result B) : bind (Ok a) k = k a.
Proof. reflexivity. Qed.

(** [lon_to_zone_interval] returns the interval that [zone_at] builds for
    the [steps_east] it computes. *)
Lemma lon_to_zone_interval_steps (lon b : F) :
  lon_to_zone_interval lon b =
  bind (steps_east_of lon b)
       (fun s => bind (zone_origin b) (fun o => zone_at o s)).
Proof.
  unfold lon_to_zone_interval, steps_east_of.
  destruct (normalize_lon_point lon) as [lon_n|e]; [|reflexivity].
  rewrite !bind_ok.
  destruct (zone_origin b) as [o|e] eqn:Ho; [|reflexivity].
  rewrite !bind_ok.
  destruct (py_mod (f_sub lon_n o) f360) as [d|e]; [|reflexivity].
  rewrite !bind_ok.
  destruct (py_div d ZONE_WIDTH_DEG) as [q|e]; [|reflexivity].
  rewrite !bind_ok.
  destruct (f_floor q) as [s|e]; reflexivity.
Qed.

(** The shape of the result of [split_range]: one segment when the
    normalized ends satisfy [w <= e], else the two segments [(w, 180)] and
    [(-180, e)]. *)
Lemma split_range_shape (west east w e : F) :
  normalize_lon_edge west = Ok w -> normalize_lon_edge east = Ok e ->
  split_range west east =
  Ok (if f_leb w e then [(w, e)] else [(w, f180); (fm180, e)]).
Proof.
  intros Hw He. unfold split_range. rewrite Hw, He, !bind_ok.
  destruct (f_leb w e); reflexivity.
Qed.

End Generic.
End Generic.

(** * The engine in exact arithmetic *)

Module ExactTheory.
Import Exact Generic.
Local Open Scope Q_scope.

(** ** Floor and remainder *)

Lemma floor_unique (y : Q) (n : Z) :
  inject_Z n <= y -> y < inject_Z (n + 1) -> Qfloor y = n.
Proof.
  intros Hlo Hhi.
  pose proof (Qfloor_le y) as H1.
  pose proof (Qlt_floor y) as H2.
  assert (Qfloor y < n + 1)%Z.
  { rewrite Zlt_Qlt. lra. }
  assert (n < Qfloor y + 1)%Z.
  { rewrite Zlt_Qlt. rewrite inject_Z_plus in *. change (inject_Z 1) with 1 in *. lra. }
  lia.
Qed.

Lemma rem_comp (x x' y y' : Q) :
  x == x' -> y == y' -> qrem x y == qrem x' y'.
Proof.
  intros Hx Hy. unfold qrem.
  assert (E : Qfloor (x / y) = Qfloor (x' / y')).
  { apply Qfloor_comp. rewrite Hx, Hy. reflexivity. }
  rewrite E, Hx, Hy. reflexivity.
Qed.

Lemma div_as_mul (x : Q) (c : positive) :
  x / inject_Z (Zpos c) == x * (1 # c).
Proof. unfold Qdiv. reflexivity. Qed.

Lemma floor_div_bounds (x : Q) (c : positive) :
  let n := inject_Z (Qfloor (x / inject_Z (Zpos c))) in
  inject_Z (Zpos c) * n <= x /\ x < inject_Z (Zpos c) * n + inject_Z (Zpos c).
Proof.
  intro n. subst n.
  pose proof (Qfloor_le (x / inject_Z (Zpos c))) as H1.
  pose proof (Qlt_floor (x / inject_Z (Zpos c))) as H2.
  rewrite inject_Z_plus in H2. change (inject_Z 1) with 1 in H2.
  set (f := inject_Z (Qfloor (x / inject_Z (Zpos c)))) in *. clearbody f.
  assert (Hc : 0 < inject_Z (Zpos c)) by reflexivity.
  assert (E : x == inject_Z (Zpos c) * (x / inject_Z (Zpos c))).
  { field. intro A. rewrite A in Hc. discriminate Hc. }
  set (q := x / inject_Z (Zpos c)) in *. clearbody q.
  split.
  - rewrite E. apply Qmult_le_l; assumption.
  - rewrite E at 1.
    setoid_replace (inject_Z (Z.pos c) * f + inject_Z (Z.pos c))
      with (inject_Z (Z.pos c) * (f + 1)) by ring.
    apply Qmult_lt_l; assumption.
Qed.

Lemma floor_div_unique (x : Q) (c : positive) (n : Z) :
  inject_Z (Zpos c) * inject_Z n <= x ->
  x < inject_Z (Zpos c) * inject_Z n + inject_Z (Zpos c) ->
  Qfloor (x / inject_Z (Zpos c)) = n.
Proof.
  intros Hlo Hhi.
  destruct (floor_div_bounds x c) as [H1 H2].
  set (m := Qfloor (x / inject_Z (Zpos c))) in *. clearbody m.
  assert (Hc : 0 < inject_Z (Zpos c)) by reflexivity.
  assert (A : inject_Z (Zpos c) * inject_Z m < inject_Z (Zpos c) * inject_Z (n + 1)).
  { rewrite inject_Z_plus. change (inject_Z 1) with 1. lra. }
  assert (B : inject_Z (Zpos c) * inject_Z n < inject_Z (Zpos c) * inject_Z (m + 1)).
  { rewrite inject_Z_plus. change (inject_Z 1) with 1. lra. }
  apply Qmult_lt_l in A; [|assumption].
  apply Qmult_lt_l in B; [|assumption].
  rewrite <- Zlt_Qlt in A, B. lia.
Qed.

Lemma rem360_floor (x : Q) :
  qrem x 360 == x - 360 * inject_Z (Qfloor (x / 360)).
Proof. reflexivity. Qed.

Lemma rem360_range (x : Q) : 0 <= qrem x 360 < 360.
Proof.
  rewrite rem360_floor.
  destruct (floor_div_bounds x 360) as [H1 H2].
  change (inject_Z 360) with 360 in *.
  split; lra.
Qed.

Lemma rem360_cong (x : Q) : cong (qrem x 360) x.
Proof.
  exists (- Qfloor (x / 360))%Z. rewrite rem360_floor, inject_Z_opp. lra.
Qed.

Lemma rem360_unique (x r : Q) :
  0 <= r < 360 -> cong r x -> qrem x 360 == r.
Proof.
  intros Hr [k Hk].
  rewrite rem360_floor.
  assert (E : Qfloor (x / 360) = (- k)%Z).
  { apply (@floor_div_unique x 360); change (inject_Z 360) with 360;
      rewrite inject_Z_opp; lra. }
  rewrite E, inject_Z_opp. lra.
Qed.

Lemma cong_refl (a : Q) : cong a a.
Proof. exists 0%Z. change (inject_Z 0) with 0. lra. Qed.

Lemma cong_sym (a b : Q) : cong a b -> cong b a.
Proof. intros [k Hk]. exists (- k)%Z. rewrite inject_Z_opp. lra. Qed.

Lemma cong_trans (a b c : Q) : cong a b -> cong b c -> cong a c.
Proof.
  intros [k Hk] [j Hj]. exists (k + j)%Z. rewrite inject_Z_plus. lra.
Qed.

Lemma cong_eq (a b : Q) : a == b -> cong a b.
Proof. intro E. exists 0%Z. change (inject_Z 0) with 0. lra. Qed.

Lemma cong_shift (a b c : Q) : cong a b -> cong (a + c) (b + c).
Proof. intros [k Hk]. exists k. lra. Qed.

(** Two congruent points less than a turn apart are equal. *)
Lemma cong_close (a b : Q) : cong a b -> -360 < a - b < 360 -> a == b.
Proof.
  intros [k Hk] Hd.
  assert (Hk1 : (-1 < k)%Z) by (rewrite Zlt_Qlt; change (inject_Z (-1)) with (-1); lra).
  assert (Hk2 : (k < 1)%Z) by (rewrite Zlt_Qlt; change (inject_Z 1) with 1; lra).
  assert (k = 0%Z) by lia. subst k. change (inject_Z 0) with 0 in Hk. lra.
Qed.

(** *** The constants *)

Lemma f180_val : (f180 : Q) == 180. Proof. reflexivity. Qed.
Lemma f360_val : (f360 : Q) == 360. Proof. reflexivity. Qed.
Lemma fm180_val : (fm180 : Q) == -180. Proof. reflexivity. Qed.
Lemma f0_val : (f0 : Q) == 0. Proof. reflexivity. Qed.
Lemma width_val : (ZONE_WIDTH_DEG : Q) == 36. Proof. reflexivity. Qed.

Lemma py_mod_360 (x : Q) : py_mod x f360 = Ok (qrem x f360).
Proof. reflexivity. Qed.

Lemma py_div_36 (x : Q) : py_div x ZONE_WIDTH_DEG = Ok (x / ZONE_WIDTH_DEG).
Proof. reflexivity. Qed.

Lemma ltb_lt (x y : Q) : qltb x y = true <-> x < y.
Proof.
  unfold qltb. rewrite negb_true_iff.
  destruct (Qle_bool y x) eqn:E.
  - apply Qle_bool_iff in E. split; [discriminate|lra].
  - split; [intros _|reflexivity].
    apply Qnot_le_lt. intro A. apply Qle_bool_iff in A. congruence.
Qed.

Lemma ltb_ge (x y : Q) : qltb x y = false <-> y <= x.
Proof.
  unfold qltb. rewrite negb_false_iff. apply Qle_bool_iff.
Qed.

(** *** The two normalizers *)

Lemma base_range (x : Q) : -180 <= base x < 180.
Proof. unfold base. pose proof (rem360_range (x + 180)). lra. Qed.

Lemma base_cong (x : Q) : cong (base x) x.
Proof.
  unfold base. destruct (rem360_cong (x + 180)) as [k Hk]. exists k. lra.
Qed.

Lemma base_unique (x p : Q) : -180 <= p < 180 -> cong p x -> base x == p.
Proof.
  intros Hp Hc. pose proof (base_range x) as Hb.
  apply cong_close; [|lra].
  apply cong_trans with x; [apply base_cong|apply cong_sym; exact Hc].
Qed.

Lemma base_comp (x y : Q) : x == y -> base x == base y.
Proof.
  intro E. unfold base. rewrite (@rem_comp (x + 180) (y + 180) 360 360); lra.
Qed.

Lemma edge_ok (x : Q) : normalize_lon_edge x = Ok (edge x).
Proof.
  unfold edge, normalize_lon_edge. rewrite py_mod_360. cbn [bind].
  destruct (_ && _); reflexivity.
Qed.

Lemma edge_cases (x : Q) :
  (base x == -180 /\ 0 < x /\ edge x == 180) \/
  (~ (base x == -180 /\ 0 < x) /\ edge x == base x).
Proof.
  assert (B : f_sub (qrem (f_add x f180) f360) f180 == base x).
  { unfold base. cbn [f_sub f_add PyFloat_exact].
    rewrite (@rem_comp (x + f180) (x + 180) f360 360);
      [rewrite f180_val; reflexivity | rewrite f180_val; reflexivity | apply f360_val]. }
  unfold edge, normalize_lon_edge. rewrite py_mod_360. cbn [bind].
  set (m := f_sub (qrem (f_add x f180) f360) f180) in *.
  destruct (f_eqb m fm180) eqn:E1; cbn [andb].
  - apply Qeq_bool_iff in E1. rewrite fm180_val in E1.
    destruct (f_ltb f0 x) eqn:E2; cbn [the].
    + apply ltb_lt in E2. rewrite f0_val in E2.
      left. rewrite <- B. split; [exact E1|]. split; [exact E2|]. apply f180_val.
    + apply ltb_ge in E2. rewrite f0_val in E2.
      right. split; [|exact B]. intros [_ A]. lra.
  - apply Qeq_bool_neq in E1. rewrite fm180_val in E1. cbn [the].
    right. split; [|exact B]. intros [A _]. apply E1. rewrite B. exact A.
Qed.

Lemma point_ok (x : Q) : normalize_lon_point x = Ok (point x).
Proof.
  unfold point, normalize_lon_point. rewrite edge_ok. cbn [bind].
  destruct (f_eqb _ _); reflexivity.
Qed.

Lemma point_base (x : Q) : point x == base x.
Proof.
  unfold point, normalize_lon_point. rewrite edge_ok. cbn [bind].
  pose proof (base_range x) as Hb.
  destruct (f_eqb (edge x) f180) eqn:E; cbn [the].
  - apply Qeq_bool_iff in E. rewrite f180_val in E. rewrite fm180_val.
    destruct (edge_cases x) as [[A _]|[_ A]]; lra.
  - apply Qeq_bool_neq in E. rewrite f180_val in E.
    destruct (edge_cases x) as [[_ [_ A]]|[_ A]]; [contradiction|exact A].
Qed.

Lemma point_range (x : Q) : -180 <= point x < 180.
Proof. rewrite point_base. apply base_range. Qed.

Lemma point_cong (x : Q) : cong (point x) x.
Proof.
  apply cong_trans with (base x); [apply cong_eq, point_base|apply base_cong].
Qed.

Lemma point_unique (x p : Q) : -180 <= p < 180 -> cong p x -> point x == p.
Proof. intros. rewrite point_base. apply base_unique; assumption. Qed.

Lemma point_comp (x y : Q) : x == y -> point x == point y.
Proof. intro E. rewrite !point_base. apply base_comp, E. Qed.

Lemma point_fixed (p : Q) : -180 <= p < 180 -> point p == p.
Proof. intro Hp. apply point_unique; [exact Hp|apply cong_refl]. Qed.

Lemma edge_range (x : Q) : -180 <= edge x <= 180.
Proof.
  pose proof (base_range x).
  destruct (edge_cases x) as [[_ [_ A]]|[_ A]]; lra.
Qed.

Lemma edge_cong (x : Q) : cong (edge x) x.
Proof.
  destruct (edge_cases x) as [[B [_ A]]|[_ A]].
  - destruct (base_cong x) as [k Hk]. exists (k + 1)%Z.
    rewrite inject_Z_plus. change (inject_Z 1) with 1. lra.
  - apply cong_trans with (base x); [apply cong_eq, A|apply base_cong].
Qed.

(** Without rounding, [normalize_lon_point] is idempotent.  Its
    output lies in [[-180, 180)], and it maps every value of that range to
    itself. *)
Theorem normalize_lon_point_idempotent_exact (x : Q) :
  exists y z : Q,
    normalize_lon_point x = Ok y /\ normalize_lon_point y = Ok z /\ z == y.
Proof.
  exists (point x), (point (point x)).
  split; [apply point_ok|]. split; [apply point_ok|].
  apply point_fixed, point_range.
Qed.

Lemma base_seam (x : Q) : base x == -180 <-> cong x 180.
Proof.
  split.
  - intro B. destruct (base_cong x) as [k Hk]. exists (- k - 1)%Z.
    unfold Z.sub. rewrite inject_Z_plus, inject_Z_opp.
    change (inject_Z (- (1))) with (-1). lra.
  - intros [k Hk]. apply base_unique; [lra|].
    exists (- k - 1)%Z. unfold Z.sub. rewrite inject_Z_plus, inject_Z_opp.
    change (inject_Z (- (1))) with (-1). lra.
Qed.

(** Without rounding the seam is sharp: the output lies in
    [[-180, 180]] and is congruent to the input; it is [+180] exactly for
    the inputs [180 + 360 k] with [k >= 0], and [-180] for the inputs
    [180 + 360 k] with [k < 0]. *)
Theorem normalize_lon_edge_seam (x : Q) :
  exists v : Q,
    normalize_lon_edge x = Ok v /\
    -180 <= v <= 180 /\
    (v == 180 <-> exists k : Z, (0 <= k)%Z /\ x == 180 + 360 * inject_Z k) /\
    (forall k : Z, (k < 0)%Z -> x == 180 + 360 * inject_Z k -> v == -180).
Proof.
  exists (edge x). split; [apply edge_ok|]. split; [apply edge_range|].
  pose proof (base_range x) as Hb.
  split; [split|].
  - intro V. destruct (edge_cases x) as [[B [P _]]|[_ A]]; [|lra].
    apply base_seam in B. destruct B as [k Hk]. exists k. split; [|exact Hk].
    assert (-1 < k)%Z; [|lia].
    rewrite Zlt_Qlt. change (inject_Z (-1)) with (-1). lra.
  - intros [k [K Hk]].
    assert (B : base x == -180) by (apply base_seam; exists k; exact Hk).
    assert (P : 0 < x).
    { rewrite Zle_Qle in K. change (inject_Z 0) with 0 in K. lra. }
    destruct (edge_cases x) as [[_ [_ A]]|[N _]]; [exact A|].
    exfalso. apply N. split; assumption.
  - intros k K Hk.
    assert (B : base x == -180) by (apply base_seam; exists k; exact Hk).
    assert (P : x <= 0).
    { assert (k <= -1)%Z as K' by lia. rewrite Zle_Qle in K'.
      change (inject_Z (-1)) with (-1) in K'. lra. }
    destruct (edge_cases x) as [[_ [A _]]|[_ A]]; lra.
Qed.

#[local] Opaque point edge qrem.

Lemma origin_ok (b : Q) : zone_origin b = Ok (origin b).
Proof.
  unfold zone_origin. rewrite point_ok, bind_ok. apply point_ok.
Qed.

Lemma origin_range (b : Q) : -180 <= origin b < 180.
Proof.
  apply point_range.
Qed.

Lemma zone_at_ok (o : Q) (k : Z) : zone_at o k = Ok (zone_of o k).
Proof.
  unfold zone_at.
  change (f_add o (f_mul (f_of_int k) ZONE_WIDTH_DEG))
    with (o + inject_Z k * ZONE_WIDTH_DEG).
  rewrite point_ok, bind_ok.
  change (f_add (point (o + inject_Z k * ZONE_WIDTH_DEG)) ZONE_WIDTH_DEG)
    with (west_at o k + ZONE_WIDTH_DEG).
  rewrite point_ok, bind_ok. reflexivity.
Qed.

Lemma build_ok (b : Q) :
  build_zone_intervals b = Ok (map (zone_of (origin b)) range10).
Proof.
  unfold build_zone_intervals. rewrite origin_ok, bind_ok.
  unfold range10. cbn [map_result map].
  rewrite !zone_at_ok, !bind_ok. reflexivity.
Qed.

Lemma steps_ok (lon b : Q) : steps_east_of lon b = Ok (steps lon b).
Proof.
  unfold steps_east_of. rewrite point_ok, bind_ok, origin_ok, bind_ok.
  rewrite py_mod_360, bind_ok, py_div_36, bind_ok. reflexivity.
Qed.

Lemma lon_to_zone_ok (lon b : Q) :
  lon_to_zone_interval lon b = Ok (zone_of (origin b) (steps lon b)).
Proof.
  unfold lon_to_zone_interval. rewrite point_ok, bind_ok, origin_ok, bind_ok.
  rewrite py_mod_360, bind_ok, py_div_36, bind_ok.
  change (f_floor ?q) with (Ok (Qfloor q)). rewrite bind_ok. apply zone_at_ok.
Qed.

Lemma steps_bounds (lon b : Q) :
  36 * inject_Z (steps lon b) <= diff lon b /\
  diff lon b < 36 * inject_Z (steps lon b) + 36.
Proof.
  unfold steps, diff.
  assert (E : qrem (point lon - origin b) f360 == qrem (point lon - origin b) 360)
    by (apply rem_comp; [reflexivity|apply f360_val]).
  assert (E2 : Qfloor (qrem (point lon - origin b) f360 / ZONE_WIDTH_DEG)
               = Qfloor (qrem (point lon - origin b) 360 / inject_Z 36)).
  { apply Qfloor_comp. rewrite E, width_val. reflexivity. }
  rewrite E2.
  destruct (floor_div_bounds (qrem (point lon - origin b) 360) 36) as [H1 H2].
  change (inject_Z 36) with 36 in *. split; assumption.
Qed.

Lemma steps_range (lon b : Q) : (0 <= steps lon b <= 9)%Z.
Proof.
  destruct (steps_bounds lon b) as [H1 H2].
  pose proof (rem360_range (point lon - origin b)) as Hd. fold (diff lon b) in Hd.
  set (s := steps lon b) in *. clearbody s.
  assert (-1 < s)%Z by (rewrite Zlt_Qlt; change (inject_Z (-1)) with (-1); lra).
  assert (s < 10)%Z by (rewrite Zlt_Qlt; change (inject_Z 10) with 10; lra).
  lia.
Qed.

(** Without rounding, [steps_east] is an integer between 0 and 9,
    the zone number is between 0 and 9, and the interval returned is the
    one the loop of [build_zone_intervals] builds at index [steps_east]. *)
Theorem steps_east_in_range_exact (lon b : Q) :
  exists (s : Z) (zi : ZoneInterval) (zs : list ZoneInterval),
    steps_east_of lon b = Ok s /\ (0 <= s <= 9)%Z /\
    lon_to_zone_interval lon b = Ok zi /\
    zone zi = ((9 - s) mod 10)%Z /\ (0 <= zone zi <= 9)%Z /\
    build_zone_intervals b = Ok zs /\
    nth_error zs (Z.to_nat s) = Some zi.
Proof.
  exists (steps lon b), (zone_of (origin b) (steps lon b)),
    (map (zone_of (origin b)) range10).
  pose proof (steps_range lon b) as Hs.
  split; [apply steps_ok|]. split; [exact Hs|].
  split; [apply lon_to_zone_ok|]. split; [reflexivity|].
  split; [cbn [zone zone_of];
          pose proof (Z.mod_pos_bound (9 - steps lon b) 10); lia|].
  split; [apply build_ok|].
  set (s := steps lon b) in *. clearbody s.
  assert (C : (s = 0 \/ s = 1 \/ s = 2 \/ s = 3 \/ s = 4 \/ s = 5 \/ s = 6
              \/ s = 7 \/ s = 8 \/ s = 9)%Z) by lia.
  repeat (destruct C as [C|C]; [subst s; reflexivity|]). subst s. reflexivity.
Qed.

(** *** Arcs *)

Lemma rem360_cases (y : Q) :
  -360 < y < 360 ->
  (0 <= y /\ qrem y 360 == y) \/ (y < 0 /\ qrem y 360 == y + 360).
Proof.
  intro Hy. destruct (Qlt_le_dec y 0) as [N|P].
  - right. split; [exact N|]. apply rem360_unique; [lra|].
    exists 1%Z. change (inject_Z 1) with 1. lra.
  - left. split; [exact P|]. apply rem360_unique; [lra|apply cong_refl].
Qed.

Lemma west_range (o : Q) (k : Z) : -180 <= west_at o k < 180.
Proof. apply point_range. Qed.

Lemma west_cong (o : Q) (k : Z) : cong (west_at o k) (o + 36 * inject_Z k).
Proof.
  unfold west_at.
  apply cong_trans with (o + inject_Z k * ZONE_WIDTH_DEG); [apply point_cong|].
  apply cong_eq. rewrite width_val. ring.
Qed.

Lemma east_cases (o : Q) (k : Z) :
  (west_at o k + 36 < 180 /\ east_at o k == west_at o k + 36) \/
  (180 <= west_at o k + 36 /\ east_at o k == west_at o k - 324).
Proof.
  pose proof (west_range o k) as Hw. unfold east_at.
  set (w := west_at o k) in *. clearbody w.
  destruct (Qlt_le_dec (w + 36) 180) as [A|A]; [left|right]; (split; [exact A|]).
  - apply point_unique; [lra|]. apply cong_eq. rewrite width_val. reflexivity.
  - apply point_unique; [lra|]. exists (-1)%Z.
    change (inject_Z (-1)) with (-1). rewrite width_val. lra.
Qed.

Lemma leb_le (x y : Q) : f_leb x y = true <-> x <= y.
Proof. apply Qle_bool_iff. Qed.

Lemma leb_gt (x y : Q) : f_leb x y = false <-> y < x.
Proof.
  change (f_leb x y) with (Qle_bool x y).
  destruct (Qle_bool x y) eqn:E.
  - apply Qle_bool_iff in E. split; [discriminate|lra].
  - split; [intros _|reflexivity]. apply Qnot_le_lt. intro A.
    apply Qle_bool_iff in A. congruence.
Qed.

Lemma arc_contains_iff (zi : ZoneInterval) (p : Q) :
  arc_contains zi p = true <->
  (west zi <= east zi /\ west zi <= p /\ p < east zi) \/
  (east zi < west zi /\ (west zi <= p \/ p < east zi)).
Proof.
  unfold arc_contains.
  destruct (f_leb (west zi) (east zi)) eqn:E.
  - apply leb_le in E. rewrite andb_true_iff, leb_le.
    change (f_ltb p (east zi)) with (qltb p (east zi)). rewrite ltb_lt.
    split; [intros [A B]; left; tauto|].
    intros [[_ [A B]]|[A _]]; [tauto|lra].
  - apply leb_gt in E. rewrite orb_true_iff, leb_le.
    change (f_ltb p (east zi)) with (qltb p (east zi)). rewrite ltb_lt.
    split; [intros A; right; tauto|].
    intros [[A _]|[_ A]]; [lra|tauto].
Qed.

(** A point of [[-180, 180)] is in the arc of the zone [k] steps east of
    the origin exactly when it lies less than 36 degrees east of the west
    edge of that zone. *)
Lemma arc_contains_offset (o : Q) (k : Z) (p : Q) :
  -180 <= p < 180 ->
  (arc_contains (zone_of o k) p = true <-> qrem (p - west_at o k) 360 < 36).
Proof.
  intro Hp. rewrite arc_contains_iff. cbn [west east zone_of].
  pose proof (west_range o k) as Hw.
  destruct (@rem360_cases (p - west_at o k)) as [[A R]|[A R]]; [lra| |];
    destruct (east_cases o k) as [[B E]|[B E]];
    set (w := west_at o k) in *; set (e := east_at o k) in *;
    set (r := qrem (p - w) 360) in *; clearbody w e r;
    split; intro G.
  all: try (destruct G as [[G1 [G2 G3]]|[G1 [G2|G2]]]; lra).
  - left. lra.
  - right. lra.
  - exfalso. lra.
  - right. lra.
Qed.

Lemma cong_sub (a b c d : Q) : cong a b -> cong c d -> cong (a - c) (b - d).
Proof.
  intros [k Hk] [j Hj]. exists (k - j)%Z. unfold Z.sub.
  rewrite inject_Z_plus, inject_Z_opp. lra.
Qed.

Lemma Z_bounds_Q (k lo hi : Z) :
  (lo <= k <= hi)%Z -> inject_Z lo <= inject_Z k <= inject_Z hi.
Proof. intros [A B]. rewrite <- !Zle_Qle. split; assumption. Qed.

Lemma offset_diff (lon b : Q) (k : Z) :
  (0 <= k <= 9)%Z ->
  (qrem (point lon - west_at (origin b) k) 360 < 36 <->
   36 * inject_Z k <= diff lon b /\ diff lon b < 36 * inject_Z k + 36).
Proof.
  intro Hk. apply Z_bounds_Q in Hk.
  change (inject_Z 0) with 0 in Hk. change (inject_Z 9) with 9 in Hk.
  pose proof (rem360_range (point lon - west_at (origin b) k)) as Hr.
  pose proof (rem360_range (point lon - origin b)) as Hd. fold (diff lon b) in Hd.
  assert (C : cong (qrem (point lon - west_at (origin b) k) 360)
                   (diff lon b - 36 * inject_Z k)).
  { apply cong_trans with (point lon - west_at (origin b) k);
      [apply rem360_cong|].
    apply cong_trans with (point lon - (origin b + 36 * inject_Z k)).
    - apply cong_sub; [apply cong_refl|apply west_cong].
    - apply cong_sym.
      apply cong_trans with ((point lon - origin b) - 36 * inject_Z k).
      + apply cong_sub; [apply rem360_cong|apply cong_refl].
      + apply cong_eq. ring. }
  set (r := qrem (point lon - west_at (origin b) k) 360) in *.
  set (D := diff lon b) in *. set (q := inject_Z k) in *. clearbody r D q.
  destruct (Qlt_le_dec (D - 36 * q) 0) as [N|P].
  - assert (E : r == D - 36 * q + 360).
    { apply cong_close; [|lra]. destruct C as [j Hj]. exists (j - 1)%Z.
      unfold Z.sub. rewrite inject_Z_plus. change (inject_Z (- (1))) with (-1).
      lra. }
    split; intro G; [exfalso; lra|lra].
  - assert (E : r == D - 36 * q) by (apply cong_close; [exact C|lra]).
    split; intro G; [split; lra|lra].
Qed.

(** Among the ten zones, the arc that contains a normalized point is the
    one at index [steps_east]. *)
Lemma arc_contains_steps (lon b : Q) (k : Z) :
  (0 <= k <= 9)%Z ->
  (arc_contains (zone_of (origin b) k) (point lon) = true <-> k = steps lon b).
Proof.
  intro Hk.
  rewrite (@arc_contains_offset (origin b) k (point lon) (point_range lon)).
  rewrite (@offset_diff lon b k Hk).
  destruct (steps_bounds lon b) as [S1 S2].
  split.
  - intros [A B].
    assert (k < steps lon b + 1)%Z.
    { rewrite Zlt_Qlt, inject_Z_plus. change (inject_Z 1) with 1. lra. }
    assert (steps lon b < k + 1)%Z.
    { rewrite Zlt_Qlt, inject_Z_plus. change (inject_Z 1) with 1. lra. }
    lia.
  - intros ->. split; assumption.
Qed.

Lemma in_zones (o : Q) (zj : ZoneInterval) :
  In zj (map (zone_of o) range10) ->
  exists k : Z, (0 <= k <= 9)%Z /\ zj = zone_of o k.
Proof.
  intro I. apply in_map_iff in I. destruct I as [k [E I]].
  exists k. split; [|symmetry; exact E].
  unfold range10 in I. cbn [In] in I. lia.
Qed.

Lemma zone_in_zones (o : Q) (k : Z) :
  (0 <= k <= 9)%Z -> In (zone_of o k) (map (zone_of o) range10).
Proof.
  intro Hk. apply in_map. unfold range10. cbn [In]. lia.
Qed.

(** Without rounding, the interval [lon_to_zone_interval] returns
    is an entry of [build_zone_intervals], its arc contains the normalized
    point, and no other entry's arc does; so every point is in exactly one
    of the ten arcs. *)
Theorem zone_is_the_unique_arc_exact (lon b : Q) :
  exists (p : Q) (zi : ZoneInterval) (zs : list ZoneInterval),
    normalize_lon_point lon = Ok p /\
    lon_to_zone_interval lon b = Ok zi /\
    build_zone_intervals b = Ok zs /\
    length zs = 10%nat /\
    In zi zs /\
    arc_contains zi p = true /\
    (forall zj, In zj zs -> arc_contains zj p = true -> zj = zi).
Proof.
  exists (point lon), (zone_of (origin b) (steps lon b)),
    (map (zone_of (origin b)) range10).
  pose proof (steps_range lon b) as Hs.
  split; [apply point_ok|]. split; [apply lon_to_zone_ok|].
  split; [apply build_ok|]. split; [reflexivity|].
  split; [apply zone_in_zones, Hs|].
  split; [apply arc_contains_steps; [exact Hs|reflexivity]|].
  intros zj I C. apply in_zones in I. destruct I as [k [Hk ->]].
  apply arc_contains_steps in C; [|exact Hk]. subst k. reflexivity.
Qed.

(** *** Ranges *)

Lemma edge_fixed (x : Q) : -180 <= x < 180 -> edge x == x.
Proof.
  intro Hx.
  assert (B : base x == x) by (apply base_unique; [exact Hx|apply cong_refl]).
  destruct (edge_cases x) as [[A [P _]]|[_ A]]; lra.
Qed.

Lemma split_range_ok (w e : Q) :
  split_range w e =
  Ok (if f_leb (edge w) (edge e) then [(edge w, edge e)]
      else [(edge w, f180); (fm180, edge e)]).
Proof.
  unfold split_range. rewrite !edge_ok, !bind_ok.
  destruct (f_leb (edge w) (edge e)); reflexivity.
Qed.

Lemma leb_refl (x : Q) : f_leb x x = true.
Proof. apply leb_le. lra. Qed.

Lemma zone_hit_ok (p : Q) (zi : ZoneInterval) :
  zone_hit [(p, p)] zi = Ok (hitb p zi).
Proof.
  unfold zone_hit, hitb. rewrite split_range_ok, bind_ok.
  destruct (f_leb (edge (west zi)) (edge (east zi))); cbn [existsb];
    rewrite ?orb_false_r; reflexivity.
Qed.

Lemma collect_ok (p : Q) (l : list ZoneInterval) :
  collect_covered [(p, p)] l = Ok (filter (hitb p) l).
Proof.
  induction l as [|zi l IH]; [reflexivity|].
  cbn [collect_covered filter]. rewrite zone_hit_ok, bind_ok, IH, bind_ok.
  reflexivity.
Qed.

Lemma filter_unique {A : Type} (f : A -> bool) (l : list A) (a : A) :
  NoDup l -> In a l -> (forall x, In x l -> f x = true -> x = a) ->
  filter f l = if f a then [a] else [].
Proof.
  induction l as [|x l IH]; intros ND I U; [destruct I|].
  inversion ND as [|? ? Nx NDl]; subst.
  assert (none : forall l', (forall y, In y l' -> f y = false) -> filter f l' = []).
  { induction l' as [|y l' IH']; intro Hf; [reflexivity|].
    cbn [filter]. rewrite (Hf y (or_introl eq_refl)).
    apply IH'. intros z Hz. apply Hf. right. exact Hz. }
  cbn [filter]. destruct I as [E|I].
  - subst x. rewrite none.
    + destruct (f a); reflexivity.
    + intros y Hy. destruct (f y) eqn:Fy; [|reflexivity].
      exfalso. apply Nx. rewrite <- (U y (or_intror Hy) Fy). exact Hy.
  - assert (Fx : f x = false).
    { destruct (f x) eqn:Fx; [|reflexivity].
      exfalso. apply Nx. rewrite (U x (or_introl eq_refl) Fx). exact I. }
    rewrite Fx. apply IH; [exact NDl|exact I|].
    intros y Hy. apply U. right. exact Hy.
Qed.

Lemma intersect_iff (p a b : Q) :
  ranges_intersect (p, p) (a, b) = true <-> a < p /\ p < b.
Proof.
  unfold ranges_intersect. rewrite andb_true_iff.
  change (f_ltb ?x ?y) with (qltb x y). rewrite !ltb_lt. tauto.
Qed.

(** A zone is hit by the degenerate range at [p] exactly when [p] is
    strictly inside one of the (one or two) segments of its arc. *)
Lemma hitb_iff (o : Q) (k : Z) (p : Q) :
  hitb p (zone_of o k) = true <->
  -180 < p < 180 /\ arc_contains (zone_of o k) p = true /\
  ~ west_at o k == p.
Proof.
  rewrite arc_contains_iff. unfold hitb. cbn [west east zone_of].
  pose proof (west_range o k) as Hw.
  pose proof (edge_fixed Hw) as Ew.
  assert (He : -180 <= east_at o k < 180) by apply point_range.
  pose proof (edge_fixed He) as Ee.
  destruct (f_leb (edge (west_at o k)) (edge (east_at o k))) eqn:L.
  - apply leb_le in L. rewrite intersect_iff.
    set (w := west_at o k) in *; set (e := east_at o k) in *.
    set (w' := edge w) in *; set (e' := edge e) in *. clearbody w e w' e'.
    split.
    + intros [A B]. split; [lra|]. split; [left; lra|intro N; lra].
    + intros [A [[[B1 [B2 B3]]|[B1 B2]] N]]; [|exfalso; lra].
      split; [|lra]. destruct (Qeq_dec w p) as [E|E]; [contradiction|].
      assert (w' <= p) by lra. apply Qle_lteq in H. destruct H as [H|H]; [lra|].
      exfalso. apply E. lra.
  - apply leb_gt in L. rewrite orb_true_iff, !intersect_iff.
    rewrite f180_val, fm180_val.
    set (w := west_at o k) in *; set (e := east_at o k) in *.
    set (w' := edge w) in *; set (e' := edge e) in *. clearbody w e w' e'.
    split.
    + intros [[A B]|[A B]].
      * split; [lra|]. split; [right; split; [lra|left; lra]|intro N; lra].
      * split; [lra|]. split; [right; split; [lra|right; lra]|intro N; lra].
    + intros [A [[[B1 _]|[B1 [B2|B2]]] N]]; [exfalso; lra| |].
      * left. split; [|lra]. destruct (Qeq_dec w p) as [E|E]; [contradiction|].
        assert (w' <= p) by lra. apply Qle_lteq in H.
        destruct H as [H|H]; [lra|]. exfalso. apply E. lra.
      * right. lra.
Qed.

Lemma filter_map {A B : Type} (f : B -> bool) (g : A -> B) (l : list A) :
  filter f (map g l) = map g (filter (fun a => f (g a)) l).
Proof.
  induction l as [|a l IH]; [reflexivity|].
  cbn [map filter]. destruct (f (g a)); cbn [map]; rewrite IH; reflexivity.
Qed.

Lemma NoDup_range10 : NoDup range10.
Proof.
  unfold range10.
  repeat (constructor; [cbn [In]; intro I; repeat (destruct I as [I|I]; [discriminate I|]); exact I|]).
  constructor.
Qed.

Lemma arc_contains_comp (zi : ZoneInterval) (p p' : Q) :
  p == p' -> arc_contains zi p = arc_contains zi p'.
Proof.
  intro E. apply eq_true_iff_eq. rewrite !arc_contains_iff, E. reflexivity.
Qed.

Lemma arc_contains_west (o : Q) (k : Z) (p : Q) :
  west_at o k == p -> arc_contains (zone_of o k) p = true.
Proof.
  intro E. pose proof (west_range o k) as Hw.
  apply arc_contains_offset; [lra|].
  assert (R : qrem (p - west_at o k) 360 == 0).
  { apply rem360_unique; [lra|]. apply cong_eq. lra. }
  lra.
Qed.

(** Without rounding the arcs tile the circle.  For the degenerate range
    [(w, w)], with [p] the edge form of [w]: at most one zone is returned;
    none when [p] is on the seam ([+180] or [-180]) or is the west edge of a
    zone; otherwise exactly the zone of the point, whose arc contains [p]. *)
Theorem degenerate_range_exact (w b : Q) :
  exists (p : Q) (zs res : list ZoneInterval),
    normalize_lon_edge w = Ok p /\
    build_zone_intervals b = Ok zs /\
    zones_covered_by_lon_range w w b = Ok res /\
    (length res <= 1)%nat /\
    ((p == 180 \/ p == -180 \/ exists zi, In zi zs /\ west zi == p) ->
     res = []) /\
    (~ (p == 180 \/ p == -180 \/ exists zi, In zi zs /\ west zi == p) ->
     exists zi, res = [zi] /\ lon_to_zone_interval w b = Ok zi /\
                In zi zs /\ arc_contains zi p = true).
Proof.
  set (o := origin b). set (s := steps w b). set (p := edge w).
  assert (R : zones_covered_by_lon_range w w b
              = Ok (sort_by_zone
                      (map (zone_of o)
                           (filter (fun k => hitb p (zone_of o k)) range10)))).
  { unfold zones_covered_by_lon_range.
    rewrite split_range_ok, bind_ok, leb_refl, build_ok, bind_ok.
    rewrite collect_ok, bind_ok, filter_map. reflexivity. }
  pose proof (steps_range w b) as Hs. fold s in Hs.
  assert (U : forall k, In k range10 ->
                        hitb p (zone_of o k) = true -> k = s).
  { intros k I Hk. apply hitb_iff in Hk. destruct Hk as [Hp [C _]].
    assert (P : point w == p).
    { rewrite point_base. unfold p.
      destruct (edge_cases w) as [[_ [_ A]]|[_ A]]; [fold p in A; lra|].
      symmetry. exact A. }
    rewrite <- (arc_contains_comp _ P) in C.
    apply arc_contains_steps in C; [exact C|].
    unfold range10 in I. cbn [In] in I. lia. }
  assert (I10 : In s range10) by (unfold range10; cbn [In]; lia).
  rewrite (filter_unique _ NoDup_range10 I10 U) in R.
  exists p, (map (zone_of o) range10).
  destruct (hitb p (zone_of o s)) eqn:Hh.
  - exists [zone_of o s].
    split; [apply edge_ok|]. split; [apply build_ok|]. split; [exact R|].
    split; [cbn [length]; lia|].
    apply hitb_iff in Hh. destruct Hh as [Hp [C N]]. split.
    + intros [A|[A|[zi [I E]]]]; [exfalso; lra|exfalso; lra|].
      exfalso. apply in_zones in I. destruct I as [k [Hk ->]].
      cbn [west zone_of] in E.
      pose proof (arc_contains_west _ _ E) as C'.
      assert (P : point w == p).
      { rewrite point_base. unfold p.
        destruct (edge_cases w) as [[_ [_ A]]|[_ A]]; [fold p in A; lra|].
        symmetry. exact A. }
      rewrite <- (arc_contains_comp _ P) in C'.
      apply arc_contains_steps in C'; [|exact Hk]. fold s in C'.
      subst k. exact (N E).
    + intros _. exists (zone_of o s). split; [reflexivity|].
      split; [apply lon_to_zone_ok|]. split; [apply zone_in_zones, Hs|exact C].
  - exists []. split; [apply edge_ok|]. split; [apply build_ok|].
    split; [exact R|]. split; [cbn [length]; lia|]. split; [reflexivity|].
    intro N. exfalso.
    pose proof (edge_range w) as Hr. fold p in Hr.
    assert (Hp : -180 < p < 180).
    { split.
      - apply Qnot_le_lt. intro A. apply N. right. left. lra.
      - apply Qnot_le_lt. intro A. apply N. left. lra. }
    assert (P : point w == p).
    { rewrite point_base. unfold p.
      destruct (edge_cases w) as [[_ [_ A]]|[_ A]]; [fold p in A; lra|].
      symmetry. exact A. }
    assert (C : arc_contains (zone_of o s) p = true).
    { rewrite <- (arc_contains_comp _ P). apply arc_contains_steps; [exact Hs|reflexivity]. }
    assert (Hh' : hitb p (zone_of o s) = true).
    { apply hitb_iff. split; [exact Hp|]. split; [exact C|].
      intro E. apply N. right. right. exists (zone_of o s).
      split; [apply zone_in_zones, Hs|exact E]. }
    congruence.
Qed.

(** *** One-point covers and split ranges *)

Lemma lon360_to_edge_cases (r : Q) :
  0 <= r < 360 ->
  (r <= 180 /\ lon360_to_edge r == r) \/
  (180 < r /\ lon360_to_edge r == r - 360).
Proof.
  intro Hr. unfold lon360_to_edge.
  destruct (f_ltb f180 r) eqn:L.
  - apply ltb_lt in L. rewrite f180_val in L. right. split; [exact L|].
    destruct (f_eqb (f_sub r f360) fm180) eqn:E.
    + apply Qeq_bool_iff in E. rewrite fm180_val in E.
      change (f_sub r f360) with (r - f360) in E. rewrite f360_val in E. lra.
    + change (f_sub r f360) with (r - f360). rewrite f360_val. reflexivity.
  - apply ltb_ge in L. rewrite f180_val in L. left. split; [exact L|].
    destruct (f_eqb r fm180) eqn:E; [|reflexivity].
    apply Qeq_bool_iff in E. rewrite fm180_val in E. lra.
Qed.

(** Without rounding, the pair returned for [[q]] is [(w, w)] with
    [w] the representative of [q] in [(-180, 180]]; it is [q] itself when
    [q] is in that range. *)
Lemma single_point_cover_exact (q : Q) :
  exists w : Q,
    circular_min_cover_interval [q] = Ok (Some (w, w)) /\
    -180 < w <= 180 /\ cong w q /\
    (-180 < q <= 180 -> w == q).
Proof.
  exists (lon360_to_edge (qrem q f360)). split; [reflexivity|].
  assert (E : qrem q f360 == qrem q 360)
    by (apply rem_comp; [reflexivity|apply f360_val]).
  pose proof (rem360_range q) as Hr. rewrite <- E in Hr.
  pose proof (rem360_cong q) as [k Hk]. rewrite <- E in Hk.
  destruct (lon360_to_edge_cases Hr) as [[A W]|[A W]];
    set (w := lon360_to_edge (qrem q f360)) in *;
    set (r := qrem q f360) in *; clearbody w r.
  - split; [lra|]. split; [exists k; lra|].
    intro Hq. apply cong_close; [exists k; lra|lra].
  - split; [lra|]. split.
    + exists (k - 1)%Z. unfold Z.sub. rewrite inject_Z_plus.
      change (inject_Z (- (1))) with (-1). lra.
    + intro Hq. apply cong_close; [|lra].
      exists (k - 1)%Z. unfold Z.sub. rewrite inject_Z_plus.
      change (inject_Z (- (1))) with (-1). lra.
Qed.

Lemma edge_comp (x y : Q) : x == y -> edge x == edge y.
Proof.
  intro E. pose proof (base_comp E) as B.
  destruct (edge_cases x) as [[A1 [A2 A3]]|[A1 A3]];
    destruct (edge_cases y) as [[B1 [B2 B3]]|[B1 B3]]; lra.
Qed.

(** Without rounding: the shape of the result of [split_range], and
    when its segments satisfy [a < b]: always, unless the two normalized
    ends coincide, or the range wraps and starts at [+180] or ends at
    [-180]. *)
Lemma split_range_segments_exact (west east : Q) :
  exists (w e : Q) (segs : list (Q * Q)),
    normalize_lon_edge west = Ok w /\ normalize_lon_edge east = Ok e /\
    split_range west east = Ok segs /\
    ((w <= e /\ segs = [(w, e)]) \/
     (e < w /\ segs = [(w, f180); (fm180, e)])) /\
    (west == east -> segs = [(w, e)]) /\
    Forall (fun s => fst s <= snd s) segs /\
    (~ w == e -> ~ (e < w /\ (w == 180 \/ e == -180)) ->
     Forall (fun s => fst s < snd s) segs).
Proof.
  exists (edge west), (edge east).
  pose proof (edge_range west) as Hw. pose proof (edge_range east) as He.
  rewrite split_range_ok.
  destruct (f_leb (edge west) (edge east)) eqn:L.
  - apply leb_le in L. exists [(edge west, edge east)].
    split; [apply edge_ok|]. split; [apply edge_ok|]. split; [reflexivity|].
    split; [left; split; [exact L|reflexivity]|]. split; [reflexivity|].
    split; [repeat constructor; exact L|].
    intros N _. repeat constructor. cbn [fst snd].
    apply Qle_lteq in L. destruct L as [L|L]; [exact L|contradiction].
  - apply leb_gt in L. exists [(edge west, f180); (fm180, edge east)].
    split; [apply edge_ok|]. split; [apply edge_ok|]. split; [reflexivity|].
    split; [right; split; [exact L|reflexivity]|].
    split; [intro E; apply edge_comp in E; lra|].
    split; [repeat constructor; cbn [fst snd]; rewrite ?f180_val, ?fm180_val; lra|].
    intros _ N. repeat constructor; cbn [fst snd]; rewrite ?f180_val, ?fm180_val.
    + apply Qnot_le_lt. intro A. apply N. split; [exact L|left; lra].
    + apply Qnot_le_lt. intro A. apply N. split; [exact L|right; lra].
Qed.

End ExactTheory.

(** * The engine in double precision *)

Module Binary64Theory.
Import Binary64.
Local Open Scope Z_scope.

(** *** Shifts keep a mantissa non-negative *)

Lemma shr_1_nonneg (mrs : shr_record) : 0 <= shr_m mrs -> 0 <= shr_m (shr_1 mrs).
Proof.
  destruct mrs as [m r s]. cbn [shr_m]. intro Hm.
  destruct m as [|[q|q|]|q]; cbn; lia.
Qed.

Lemma iter_shr_1_nonneg (n : positive) (mrs : shr_record) :
  0 <= shr_m mrs -> 0 <= shr_m (iter_pos shr_1 n mrs).
Proof.
  revert mrs. induction n as [n IH|n IH|]; intros mrs Hm; cbn [iter_pos].
  - apply IH, IH, shr_1_nonneg, Hm.
  - apply IH, IH, Hm.
  - apply shr_1_nonneg, Hm.
Qed.

(** ** Rounding *)

(** ** Shifting a mantissa right *)

Lemma shr_1_spec (m : Z) (r s : bool) :
  0 <= m ->
  shr_1 {| shr_m := m; shr_r := r; shr_s := s |}
  = {| shr_m := m / 2; shr_r := Z.odd m; shr_s := r || s |}.
Proof.
  intro Hm. rewrite <- Z.div2_div.
  destruct m as [|[p|p|]|p]; try reflexivity. lia.
Qed.

Lemma mod_pow2_succ (M k : Z) :
  0 <= k ->
  M mod 2 ^ (k + 1) = M mod 2 ^ k + 2 ^ k * (if Z.testbit M k then 1 else 0).
Proof.
  intro Hk. rewrite Z.pow_add_r, Z.pow_1_r by lia.
  rewrite Z.rem_mul_r by lia.
  rewrite Z.testbit_odd, Z.shiftr_div_pow2 by lia.
  rewrite Zmod_odd. reflexivity.
Qed.

Lemma shr_1_shifted (M k : Z) :
  0 <= M -> 0 <= k -> shr_1 (shifted M k) = shifted M (k + 1).
Proof.
  intros HM Hk. unfold shifted.
  rewrite shr_1_spec by (apply Z.div_pos; lia).
  assert (E1 : (k + 1 =? 0) = false) by lia. rewrite E1.
  replace (k + 1 - 1) with k by lia.
  f_equal.
  - rewrite Z.div_div by lia. rewrite Z.pow_add_r, Z.pow_1_r by lia. reflexivity.
  - rewrite Z.testbit_odd, Z.shiftr_div_pow2 by lia. reflexivity.
  - destruct (k =? 0) eqn:E0.
    + assert (k = 0) by lia. subst k. cbn. rewrite Z.mod_1_r. reflexivity.
    + pose proof (@mod_pow2_succ M (k - 1) ltac:(lia)) as S.
      replace (k - 1 + 1) with k in S by lia.
      pose proof (Z.mod_pos_bound M (2 ^ (k - 1)) ltac:(lia)) as B.
      assert (P : 0 < 2 ^ (k - 1)) by lia.
      destruct (Z.testbit M (k - 1)); cbn [orb].
      * symmetry. apply negb_true_iff. lia.
      * f_equal. apply eq_true_iff_eq. rewrite !Z.eqb_eq. lia.
Qed.

Lemma iter_shr_1_shifted (p : positive) (M k : Z) :
  0 <= M -> 0 <= k ->
  iter_pos shr_1 p (shifted M k) = shifted M (k + Zpos p).
Proof.
  intros HM. revert k. induction p as [p IH|p IH|]; intros k Hk; cbn [iter_pos].
  - rewrite shr_1_shifted, !IH by lia. f_equal. lia.
  - rewrite !IH by lia. f_equal. lia.
  - apply shr_1_shifted; assumption.
Qed.

Lemma shifted_0 (M : Z) :
  shifted M 0 = {| shr_m := M; shr_r := false; shr_s := false |}.
Proof. unfold shifted. cbn. rewrite Z.div_1_r. reflexivity. Qed.

(** ** Rounding to nearest, ties to even *)

Lemma round_shifted (M n : Z) :
  0 <= M -> 0 < n ->
  round_nearest_even (M / 2 ^ n) (loc_of_shr_record (shifted M n))
  = rne (M / 2 ^ n) (M mod 2 ^ n) (2 ^ (n - 1)).
Proof.
  intros HM Hn. unfold shifted, rne.
  assert (E0 : (n =? 0) = false) by lia. rewrite E0.
  pose proof (@mod_pow2_succ M (n - 1) ltac:(lia)) as S.
  replace (n - 1 + 1) with n in S by lia.
  pose proof (Z.mod_pos_bound M (2 ^ (n - 1)) ltac:(lia)) as B.
  assert (P : 0 < 2 ^ (n - 1)) by lia.
  destruct (Z.testbit M (n - 1));
    destruct (M mod 2 ^ (n - 1) =? 0) eqn:E; cbn [negb loc_of_shr_record round_nearest_even].
  - assert (C : (M mod 2 ^ n ?= 2 ^ (n - 1)) = Eq) by (apply Z.compare_eq_iff; lia).
    rewrite C. reflexivity.
  - assert (C : (M mod 2 ^ n ?= 2 ^ (n - 1)) = Gt) by (apply Z.compare_gt_iff; lia).
    rewrite C. reflexivity.
  - assert (C : (M mod 2 ^ n ?= 2 ^ (n - 1)) = Lt) by (apply Z.compare_lt_iff; lia).
    rewrite C. reflexivity.
  - assert (C : (M mod 2 ^ n ?= 2 ^ (n - 1)) = Lt) by (apply Z.compare_lt_iff; lia).
    rewrite C. reflexivity.
Qed.

Lemma rne_bounds (m1 R half : Z) : m1 <= rne m1 R half <= m1 + 1.
Proof.
  unfold rne. destruct (R ?= half); [destruct (Z.even m1)| |]; lia.
Qed.

Lemma rne_low (m1 R half : Z) : R < half -> rne m1 R half = m1.
Proof.
  intro H. unfold rne. apply Z.compare_lt_iff in H. rewrite H. reflexivity.
Qed.

(** ** Number of digits *)

Lemma fexp_eq (k : Z) : SpecFloat.fexp prec emax k = fexp64 k.
Proof. reflexivity. Qed.

Lemma digits2_log2 (p : positive) : Zpos (digits2_pos p) = Z.log2 (Zpos p) + 1.
Proof.
  induction p as [p IH|p IH|]; cbn [digits2_pos]; [| |reflexivity].
  - rewrite Pos2Z.inj_succ, IH.
    change (Zpos p~1) with (2 * Zpos p + 1).
    rewrite Z.log2_succ_double by lia. lia.
  - rewrite Pos2Z.inj_succ, IH.
    change (Zpos p~0) with (2 * Zpos p).
    rewrite Z.log2_double by lia. lia.
Qed.

Lemma digits_bounds (v : Z) : 0 < v -> 2 ^ (digits v - 1) <= v < 2 ^ digits v.
Proof.
  intro Hv. unfold digits. pose proof (Z.log2_spec v Hv) as H.
  replace (Z.log2 v + 1 - 1) with (Z.log2 v) by lia.
  replace (Z.log2 v + 1) with (Z.succ (Z.log2 v)) by lia. exact H.
Qed.

Lemma digits_unique (v d : Z) : 2 ^ (d - 1) <= v < 2 ^ d -> 0 < d -> digits v = d.
Proof.
  intros H Hd. unfold digits.
  rewrite (Z.log2_unique v (d - 1)); [lia|lia|].
  replace (Z.succ (d - 1)) with d by lia. exact H.
Qed.

Lemma digits_pos (v : Z) : 0 < v -> 0 < digits v.
Proof. intro Hv. unfold digits. pose proof (Z.log2_nonneg v). lia. Qed.

Lemma digits_shift (v k : Z) : 0 < v -> 0 <= k -> digits (v * 2 ^ k) = digits v + k.
Proof.
  intros Hv Hk. unfold digits. rewrite Z.log2_mul_pow2 by lia. lia.
Qed.

(** ** Rounding a scaled value *)

Lemma iter_xO (p : positive) (d : positive) :
  Zpos (Pos.iter xO p d) = Zpos p * 2 ^ Zpos d.
Proof.
  revert p. induction d as [|d IH] using Pos.peano_ind; intro p.
  - cbn [Pos.iter]. rewrite Z.pow_1_r. lia.
  - rewrite Pos.iter_succ. rewrite Pos2Z.inj_succ, Z.pow_succ_r by lia.
    change (Zpos (Pos.iter xO p d)~0) with (2 * Zpos (Pos.iter xO p d)).
    rewrite IH. lia.
Qed.

Lemma shr_fexp_noshift (m e : Z) (l : location) :
  fexp64 (Zdigits2 m + e) - e <= 0 ->
  shr_fexp prec emax m e l = (shr_record_of_loc m l, e).
Proof.
  intro H. unfold shr_fexp, shr. rewrite fexp_eq.
  destruct (fexp64 (Zdigits2 m + e) - e); [reflexivity|lia|reflexivity].
Qed.

Lemma shr_fexp_shift (m e n : Z) :
  0 <= m -> 0 < n -> fexp64 (Zdigits2 m + e) - e = n ->
  shr_fexp prec emax m e loc_Exact = (shifted m n, e + n).
Proof.
  intros Hm Hn H. unfold shr_fexp, shr. rewrite fexp_eq, H.
  destruct n as [|p|p]; try lia.
  cbn [shr_record_of_loc]. rewrite <- shifted_0.
  rewrite iter_shr_1_shifted by lia. reflexivity.
Qed.

Lemma Zdigits2_digits (m : positive) : Zdigits2 (Zpos m) = digits (Zpos m).
Proof. cbn [Zdigits2]. apply digits2_log2. Qed.

(** The last steps of [binary_round_aux], for a mantissa [q] that has 53
    digits or is [2^53], at an exponent [E] of the normal range. *)
Lemma finish_pack (s : bool) (q E : Z) :
  2 ^ 52 <= q <= 2 ^ 53 -> -1074 <= E ->
  (let '(mrs, e) := shr_fexp prec emax q E loc_Exact in
   match shr_m mrs with
   | Z0 => S754_zero s
   | Zpos m => if e <=? emax - prec then S754_finite s m e else S754_infinity s
   | Zneg _ => S754_nan
   end) = pack s q E.
Proof.
  intros Hq HE. unfold pack.
  destruct (q <? 2 ^ 53) eqn:Lt.
  - apply Z.ltb_lt in Lt.
    assert (Dq : digits q = 53) by (apply digits_unique; [cbn; lia|lia]).
    destruct q as [|q|q]; try (cbn in Hq; lia).
    rewrite shr_fexp_noshift.
    + cbn [shr_record_of_loc shr_m]. rewrite Pos2Z.id. reflexivity.
    + rewrite Zdigits2_digits, Dq. unfold fexp64. lia.
  - apply Z.ltb_ge in Lt. assert (q = 2 ^ 53) by lia. subst q.
    rewrite (@shr_fexp_shift (2 ^ 53) E 1); [|cbn; lia|lia|].
    + unfold shifted. cbn [shr_m].
      change (2 ^ 53 / 2 ^ 1) with (2 ^ 52).
      change (2 ^ 52) with (Zpos (Z.to_pos (2 ^ 52))) at 1.
      cbv iota. reflexivity.
    + change (Zdigits2 (2 ^ 53)) with 54. unfold fexp64. lia.
Qed.

Theorem binary_round_scaled (s : bool) (mx : positive) (ex : Z) :
  -1074 <= ex ->
  binary_round prec emax s mx ex = round_scaled s (Zpos mx * 2 ^ (ex + 1074)).
Proof.
  intro Hex. unfold binary_round, round_scaled.
  rewrite fexp_eq, digits2_log2. fold (digits (Zpos mx)).
  set (d := digits (Zpos mx)).
  assert (Hd : 0 < d) by (apply digits_pos; lia).
  pose proof (@digits_bounds (Zpos mx) ltac:(lia)) as Bd. fold d in Bd.
  rewrite digits_shift by lia. fold d.
  destruct (Z_le_gt_dec d 53) as [Small|Big].
  - (* the mantissa fits: shift left to the canonical exponent *)
    set (F := fexp64 (d + ex)).
    assert (HF : F <= ex /\ -1074 <= F) by (unfold F, fexp64; lia).
    assert (Hmz : exists mz, shl_align mx ex F = (mz, F) /\
                             Zpos mz = Zpos mx * 2 ^ (ex - F)).
    { unfold shl_align. destruct (F - ex) as [|p|p] eqn:E; try lia.
      - exists mx. assert (F = ex) by lia. split; [congruence|].
        replace (ex - F) with 0 by lia. lia.
      - exists (Pos.iter xO mx p). split; [reflexivity|].
        rewrite iter_xO. f_equal. f_equal. lia. }
    destruct Hmz as [mz [-> Emz]].
    assert (Dmz : digits (Zpos mz) = d + ex - F).
    { rewrite Emz, digits_shift by lia. fold d. lia. }
    unfold binary_round_aux.
    rewrite shr_fexp_noshift
      by (rewrite Zdigits2_digits, Dmz; replace (d + ex - F + F) with (d + ex) by lia;
          fold F; lia).
    cbn [shr_record_of_loc shr_m loc_of_shr_record round_nearest_even].
    rewrite shr_fexp_noshift
      by (rewrite Zdigits2_digits, Dmz; replace (d + ex - F + F) with (d + ex) by lia;
          fold F; lia).
    cbn [shr_record_of_loc shr_m].
    destruct (d + (ex + 1074) <=? 53) eqn:Sub.
    + apply Z.leb_le in Sub.
      assert (F = -1074) by (unfold F, fexp64; lia).
      replace (F <=? emax - prec) with true by (symmetry; apply Z.leb_le; cbn; lia).
      rewrite H. f_equal.
      rewrite <- Pos2Z.id at 1. f_equal. rewrite Emz, H.
      replace (ex - -1074) with (ex + 1074) by lia. reflexivity.
    + apply Z.leb_gt in Sub.
      assert (EF : F = d + ex - 53) by (unfold F, fexp64; lia).
      set (n := d + (ex + 1074) - 53).
      assert (Hn : 0 < n /\ n <= ex + 1074) by (unfold n; lia).
      assert (Ev : Zpos mx * 2 ^ (ex + 1074) = Zpos mz * 2 ^ n).
      { rewrite Emz, <- Z.mul_assoc, <- Z.pow_add_r by lia.
        f_equal. f_equal. unfold n. lia. }
      rewrite Ev, Z.div_mul, Z.mod_mul by lia.
      rewrite rne_low by lia.
      unfold pack.
      assert (Bz : Zpos mz < 2 ^ 53).
      { pose proof (@digits_bounds (Zpos mz) ltac:(lia)) as B.
        rewrite Dmz in B. replace (d + ex - F) with 53 in B by lia. lia. }
      replace (Zpos mz <? 2 ^ 53) with true by (symmetry; apply Z.ltb_lt; exact Bz).
      replace (n - 1074) with F by (unfold n; lia).
      rewrite Pos2Z.id. reflexivity.
  - (* the mantissa is too long: shift right and round *)
    set (n := d - 53).
    assert (EF : fexp64 (d + ex) = ex + n) by (unfold fexp64, n; lia).
    rewrite EF.
    assert (Hsh : shl_align mx ex (ex + n) = (mx, ex)).
    { unfold shl_align. destruct (ex + n - ex) eqn:E; try reflexivity.
      unfold n in E. lia. }
    rewrite Hsh.
    replace (d + (ex + 1074) <=? 53) with false by (symmetry; apply Z.leb_gt; lia).
    unfold binary_round_aux.
    rewrite (@shr_fexp_shift (Zpos mx) ex n);
      [|lia|unfold n; lia|rewrite Zdigits2_digits; fold d; lia].
    replace (shr_m (shifted (Zpos mx) n)) with (Zpos mx / 2 ^ n) by reflexivity.
    rewrite round_shifted by (unfold n; lia).
    set (q := rne (Zpos mx / 2 ^ n) (Zpos mx mod 2 ^ n) (2 ^ (n - 1))).
    assert (Bm1 : 2 ^ 52 <= Zpos mx / 2 ^ n < 2 ^ 53).
    { assert (P : 0 < 2 ^ n) by (apply Z.pow_pos_nonneg; unfold n; lia).
      split.
      - apply Z.div_le_lower_bound; [exact P|].
        rewrite <- Z.pow_add_r by (unfold n; lia).
        replace (n + 52) with (d - 1) by (unfold n; lia). lia.
      - apply Z.div_lt_upper_bound; [exact P|].
        rewrite <- Z.pow_add_r by (unfold n; lia).
        replace (n + 53) with d by (unfold n; lia). lia. }
    pose proof (rne_bounds (Zpos mx / 2 ^ n) (Zpos mx mod 2 ^ n) (2 ^ (n - 1))) as Bq.
    fold q in Bq.
    rewrite finish_pack by lia.
    (* the same quotient and comparison on the scaled value *)
    replace (d + (ex + 1074) - 53) with (n + (ex + 1074)) by (unfold n; lia).
    assert (Pk : 0 < 2 ^ (ex + 1074)) by (apply Z.pow_pos_nonneg; lia).
    assert (Pn : 0 < 2 ^ n) by (apply Z.pow_pos_nonneg; unfold n; lia).
    rewrite (Z.pow_add_r 2 n (ex + 1074)) by (unfold n; lia).
    rewrite Z.div_mul_cancel_r by lia.
    rewrite Z.mul_mod_distr_r by lia.
    replace (n + (ex + 1074) - 1) with ((n - 1) + (ex + 1074)) by lia.
    rewrite (Z.pow_add_r 2 (n - 1) (ex + 1074)) by (unfold n; lia).
    replace (n + (ex + 1074) - 1074) with (ex + n) by lia.
    f_equal. unfold q, rne.
    rewrite <- (Zcompare_mult_compat (Z.to_pos (2 ^ (ex + 1074)))
                  (Zpos mx mod 2 ^ n) (2 ^ (n - 1))).
    rewrite Z2Pos.id by lia.
    rewrite (Z.mul_comm _ (Zpos mx mod 2 ^ n)), (Z.mul_comm _ (2 ^ (n - 1))).
    reflexivity.
Qed.

(** ** Values *)

Lemma valid_finite_inv (s : bool) (m : positive) (e : Z) :
  valid_binary prec emax (S754_finite s m e) = true ->
  -1074 <= e <= 971 /\ digits (Zpos m) <= 53 /\
  (-1074 < e -> digits (Zpos m) = 53).
Proof.
  cbn [valid_binary]. unfold bounded, canonical_mantissa.
  rewrite andb_true_iff, Z.eqb_eq, Z.leb_le, fexp_eq, digits2_log2.
  fold (digits (Zpos m)). unfold fexp64. cbn. lia.
Qed.

Lemma valid_finite_intro (s : bool) (m : positive) (e : Z) :
  -1074 <= e <= 971 -> digits (Zpos m) <= 53 ->
  (-1074 < e -> digits (Zpos m) = 53) ->
  valid_binary prec emax (S754_finite s m e) = true.
Proof.
  intros He Hd Hn. cbn [valid_binary]. unfold bounded, canonical_mantissa.
  rewrite andb_true_iff, Z.eqb_eq, Z.leb_le, fexp_eq, digits2_log2.
  fold (digits (Zpos m)). unfold fexp64. cbn.
  pose proof (@digits_pos (Zpos m) ltac:(lia)). lia.
Qed.

(** Rounding the value of a double gives the double back. *)
Lemma round_scaled_canonical (s : bool) (m : positive) (e : Z) :
  valid_binary prec emax (S754_finite s m e) = true ->
  round_scaled s (Zpos m * 2 ^ (e + 1074)) = S754_finite s m e.
Proof.
  intro Hv. apply valid_finite_inv in Hv. destruct Hv as [He [Hd Hn]].
  unfold round_scaled. rewrite digits_shift by lia.
  destruct (Z.eq_dec e (-1074)) as [E|E].
  - subst e. replace (digits (Zpos m) + (-1074 + 1074) <=? 53) with true
      by (symmetry; apply Z.leb_le; lia).
    cbn [Z.add Z.pow Z.opp Z.pos_sub]. rewrite Z.mul_1_r, Pos2Z.id. reflexivity.
  - rewrite Hn by lia.
    replace (53 + (e + 1074) <=? 53) with false by (symmetry; apply Z.leb_gt; lia).
    replace (53 + (e + 1074) - 53) with (e + 1074) by lia.
    rewrite Z.div_mul, Z.mod_mul by lia.
    rewrite rne_low by (apply Z.pow_pos_nonneg; lia).
    unfold pack.
    pose proof (@digits_bounds (Zpos m) ltac:(lia)) as B. rewrite Hn in B by lia.
    replace (Zpos m <? 2 ^ 53) with true by (symmetry; apply Z.ltb_lt; lia).
    replace (e + 1074 - 1074) with e by lia.
    replace (e <=? 971) with true by (symmetry; apply Z.leb_le; lia).
    rewrite Pos2Z.id. reflexivity.
Qed.

Lemma rnd_canonical (f : float) :
  Fin f -> f <> nzero -> rnd (V f) = f.
Proof.
  intros [Hv Hf] Hz. destruct f as [[|]| | |s m e]; try discriminate Hf.
  - contradiction.
  - reflexivity.
  - unfold rnd, V.
    assert (P : 0 < Zpos m * 2 ^ (e + 1074)).
    { apply valid_finite_inv in Hv. apply Z.mul_pos_pos; [lia|].
      apply Z.pow_pos_nonneg; lia. }
    destruct s; cbn [cond_Zopp].
    + replace (- (Zpos m * 2 ^ (e + 1074)) =? 0) with false
        by (symmetry; apply Z.eqb_neq; lia).
      replace (- (Zpos m * 2 ^ (e + 1074)) <? 0) with true
        by (symmetry; apply Z.ltb_lt; lia).
      rewrite Z.abs_neq by lia. rewrite Z.opp_involutive.
      apply round_scaled_canonical, Hv.
    + replace (Zpos m * 2 ^ (e + 1074) =? 0) with false
        by (symmetry; apply Z.eqb_neq; lia).
      replace (Zpos m * 2 ^ (e + 1074) <? 0) with false
        by (symmetry; apply Z.ltb_ge; lia).
      rewrite Z.abs_eq by lia.
      apply round_scaled_canonical, Hv.
Qed.

(** Below the overflow threshold, [round_scaled] returns a valid finite
    double whose value is [nearest v]. *)
Lemma round_scaled_finite (s : bool) (v : Z) :
  0 < v < 2 ^ 2098 - 2 ^ 2044 ->
  exists (m : positive) (e : Z),
    round_scaled s v = S754_finite s m e /\
    valid_binary prec emax (S754_finite s m e) = true /\
    Zpos m * 2 ^ (e + 1074) = nearest v.
Proof.
  intros [Hv Hmax]. unfold round_scaled, nearest.
  pose proof (digits_bounds Hv) as Bd. pose proof (digits_pos Hv) as Pd.
  set (D := digits v) in *.
  destruct (D <=? 53) eqn:Small.
  - apply Z.leb_le in Small. exists (Z.to_pos v), (-1074).
    rewrite Z2Pos.id by lia. split; [reflexivity|]. split.
    + apply valid_finite_intro; [lia| |lia]. rewrite Z2Pos.id by lia. fold D. lia.
    + cbn. lia.
  - apply Z.leb_gt in Small.
    set (n := D - 53). assert (Hn : 0 < n) by (unfold n; lia).
    assert (Pn : 0 < 2 ^ n) by (apply Z.pow_pos_nonneg; lia).
    assert (Bm1 : 2 ^ 52 <= v / 2 ^ n < 2 ^ 53).
    { split.
      - apply Z.div_le_lower_bound; [exact Pn|].
        rewrite <- Z.pow_add_r by lia.
        replace (n + 52) with (D - 1) by (unfold n; lia). lia.
      - apply Z.div_lt_upper_bound; [exact Pn|].
        rewrite <- Z.pow_add_r by lia.
        replace (n + 53) with D by (unfold n; lia). lia. }
    pose proof (rne_bounds (v / 2 ^ n) (v mod 2 ^ n) (2 ^ (n - 1))) as Bq.
    set (q := rne (v / 2 ^ n) (v mod 2 ^ n) (2 ^ (n - 1))) in *.
    assert (HD : D <= 2098).
    { destruct (Z_le_gt_dec D 2098) as [A|A]; [exact A|exfalso].
      assert (2 ^ 2098 <= 2 ^ (D - 1)) by (apply Z.pow_le_mono_r; lia).
      assert (0 < 2 ^ 2044) by (apply Z.pow_pos_nonneg; lia). lia. }
    assert (Hq : q < 2 ^ 53 \/ (q = 2 ^ 53 /\ n <= 2044)).
    { destruct (Z_lt_ge_dec q (2 ^ 53)) as [A|A]; [left; exact A|right].
      split; [lia|].
      destruct (Z_le_gt_dec n 2044) as [B|B]; [exact B|exfalso].
      assert (En : n = 2045) by (unfold n in *; lia).
      (* at the top binade the remainder is below one half *)
      assert (Em1 : v / 2 ^ n = 2 ^ 53 - 1) by lia.
      pose proof (Z.div_mod v (2 ^ n) ltac:(lia)) as DM.
      rewrite Em1, En in DM.
      assert (R : v mod 2 ^ n < 2 ^ (n - 1)).
      { rewrite En. replace (2045 - 1) with 2044 by lia.
        assert (E98 : 2 ^ 2098 = 2 ^ 2045 * 2 ^ 53)
          by (rewrite <- Z.pow_add_r by lia; reflexivity).
        rewrite En in *. lia. }
      unfold q in A. rewrite rne_low in A by exact R. lia. }
    unfold pack. destruct Hq as [Hq|[Hq Hn44]].
    + replace (q <? 2 ^ 53) with true by (symmetry; apply Z.ltb_lt; exact Hq).
      replace (n - 1074 <=? 971) with true
        by (symmetry; apply Z.leb_le; unfold n; lia).
      exists (Z.to_pos q), (n - 1074). rewrite Z2Pos.id by lia.
      split; [reflexivity|]. split.
      * assert (Dq : digits q = 53) by (apply digits_unique; [cbn; lia|lia]).
        apply valid_finite_intro; rewrite ?Z2Pos.id by lia; unfold n; lia.
      * replace (n - 1074 + 1074) with n by lia. reflexivity.
    + replace (q <? 2 ^ 53) with false by (symmetry; apply Z.ltb_ge; lia).
      replace (n - 1074 + 1 <=? 971) with true by (symmetry; apply Z.leb_le; lia).
      exists (Z.to_pos (2 ^ 52)), (n - 1074 + 1). split; [reflexivity|]. split.
      * apply valid_finite_intro; [lia| |]; reflexivity.
      * rewrite Hq. replace (n - 1074 + 1 + 1074) with (n + 1) by lia.
        rewrite Z.pow_add_r by lia.
        change (Zpos (Z.to_pos (2 ^ 52))) with (2 ^ 52).
        change (2 ^ 53) with (2 ^ 52 * 2). lia.
Qed.

(** ** The operations on values *)

Lemma rnd_neq_nzero (v : Z) : rnd v <> nzero.
Proof.
  unfold rnd. destruct (v =? 0); [discriminate|].
  unfold round_scaled, pack.
  destruct (_ <=? 53); [discriminate|].
  destruct (_ <? 2 ^ 53); destruct (_ <=? 971); discriminate.
Qed.

(** Below the overflow threshold [rnd v] is a valid finite double of the
    sign of [v], whose value is [nearest] of the magnitude. *)
Lemma rnd_Fin (v : Z) :
  Z.abs v < 2 ^ 2098 - 2 ^ 2044 ->
  Fin (rnd v) /\ V (rnd v) = Z.sgn v * nearest (Z.abs v).
Proof.
  intro Hv. unfold rnd.
  destruct (v =? 0) eqn:E0.
  - apply Z.eqb_eq in E0. subst v. split; [split; reflexivity|reflexivity].
  - apply Z.eqb_neq in E0.
    destruct (@round_scaled_finite (v <? 0) (Z.abs v) ltac:(lia))
      as [m [e [-> [Hval Hm]]]].
    split; [split; [exact Hval|reflexivity]|].
    cbn [V]. rewrite Hm.
    destruct (v <? 0) eqn:Neg; cbn [cond_Zopp].
    + apply Z.ltb_lt in Neg. rewrite Z.sgn_neg by lia. lia.
    + apply Z.ltb_ge in Neg. rewrite Z.sgn_pos by lia. lia.
Qed.

Lemma nearest_divisible (v : Z) :
  0 < v -> (digits v <= 53 \/ v mod 2 ^ (digits v - 53) = 0) -> nearest v = v.
Proof.
  intros Hv H. unfold nearest.
  destruct (digits v <=? 53) eqn:S; [reflexivity|].
  apply Z.leb_gt in S. destruct H as [H|H]; [lia|].
  set (n := digits v - 53) in *.
  assert (Pn : 0 < 2 ^ (n - 1)) by (apply Z.pow_pos_nonneg; lia).
  rewrite rne_low by lia.
  pose proof (Z.div_mod v (2 ^ n) ltac:(lia)). lia.
Qed.

Lemma nearest_scaled (r0 k : Z) :
  0 < r0 < 2 ^ 53 -> 0 <= k -> nearest (r0 * 2 ^ k) = r0 * 2 ^ k.
Proof.
  intros Hr Hk.
  assert (P : 0 < 2 ^ k) by (apply Z.pow_pos_nonneg; lia).
  apply nearest_divisible; [lia|].
  rewrite digits_shift by lia.
  assert (D : digits r0 <= 53).
  { pose proof (@digits_bounds r0 ltac:(lia)) as B.
    destruct (Z_le_gt_dec (digits r0) 53) as [A|A]; [exact A|exfalso].
    assert (2 ^ 53 <= 2 ^ (digits r0 - 1)) by (apply Z.pow_le_mono_r; lia). lia. }
  pose proof (@digits_pos r0 ltac:(lia)).
  destruct (Z_le_gt_dec (digits r0 + k) 53) as [A|A]; [left; exact A|right].
  replace k with ((k - (digits r0 + k - 53)) + (digits r0 + k - 53)) at 1 by lia.
  rewrite Z.pow_add_r by lia. rewrite Z.mul_assoc. apply Z.mod_mul. lia.
Qed.

Lemma valid_nearest (f : float) :
  Fin f -> 0 < Z.abs (V f) -> nearest (Z.abs (V f)) = Z.abs (V f).
Proof.
  intros [Hv Hf] P. destruct f as [| | |s m e]; cbn [V] in *; try lia.
  apply valid_finite_inv in Hv. destruct Hv as [He [Hd Hn]].
  assert (A : Z.abs (cond_Zopp s (Zpos m * 2 ^ (e + 1074))) = Zpos m * 2 ^ (e + 1074)).
  { assert (0 < 2 ^ (e + 1074)) by (apply Z.pow_pos_nonneg; lia).
    destruct s; cbn [cond_Zopp]; lia. }
  rewrite A. apply nearest_scaled; [|lia].
  pose proof (@digits_bounds (Zpos m) ltac:(lia)) as B.
  split; [lia|].
  assert (2 ^ digits (Zpos m) <= 2 ^ 53) by (apply Z.pow_le_mono_r; lia). lia.
Qed.

Lemma shl_align_fst (m : positive) (e e' : Z) :
  e' <= e -> Zpos (fst (shl_align m e e')) = Zpos m * 2 ^ (e - e').
Proof.
  intro H. unfold shl_align. destruct (e' - e) as [|p|p] eqn:E; try lia; cbn [fst].
  - replace (e - e') with 0 by lia. lia.
  - rewrite iter_xO. f_equal. f_equal. lia.
Qed.

Lemma binary_normalize_rnd (N e : Z) :
  -1074 <= e -> binary_normalize prec emax N e false = rnd (N * 2 ^ (e + 1074)).
Proof.
  intro He. assert (P : 0 < 2 ^ (e + 1074)) by (apply Z.pow_pos_nonneg; lia).
  unfold rnd. destruct N as [|p|p]; cbn [binary_normalize].
  - reflexivity.
  - rewrite binary_round_scaled by exact He.
    replace (Zpos p * 2 ^ (e + 1074) =? 0) with false by (symmetry; apply Z.eqb_neq; lia).
    replace (Zpos p * 2 ^ (e + 1074) <? 0) with false by (symmetry; apply Z.ltb_ge; lia).
    rewrite Z.abs_eq by lia. reflexivity.
  - rewrite binary_round_scaled by exact He.
    replace (Zneg p * 2 ^ (e + 1074) =? 0) with false by (symmetry; apply Z.eqb_neq; lia).
    replace (Zneg p * 2 ^ (e + 1074) <? 0) with true by (symmetry; apply Z.ltb_lt; lia).
    rewrite Z.abs_neq by lia. f_equal. lia.
Qed.

Lemma scale_split (m : positive) (e ez : Z) :
  -1074 <= ez <= e ->
  Zpos m * 2 ^ (e - ez) * 2 ^ (ez + 1074) = Zpos m * 2 ^ (e + 1074).
Proof.
  intro H. rewrite <- Z.mul_assoc, <- Z.pow_add_r by lia.
  f_equal. f_equal. lia.
Qed.

Lemma cond_Zopp_mul (s : bool) (a b : Z) : cond_Zopp s a * b = cond_Zopp s (a * b).
Proof. destruct s; cbn [cond_Zopp]; lia. Qed.

Lemma add_spec (x y : float) :
  Fin x -> Fin y -> V y <> 0 -> add x y = rnd (V x + V y).
Proof.
  intros [Vx Fx] [Vy Fy] Ny.
  destruct y as [| | |sy my ey]; try discriminate Fy; [cbn in Ny; lia|].
  destruct x as [sx| | |sx mx ex]; try discriminate Fx.
  - replace (V (S754_zero sx) + V (S754_finite sy my ey))
      with (V (S754_finite sy my ey)) by (cbn [V]; lia).
    unfold add. cbn [SFadd]. symmetry.
    apply rnd_canonical; [split; assumption|discriminate].
  - pose proof (valid_finite_inv _ _ _ Vx) as [Hex _].
    pose proof (valid_finite_inv _ _ _ Vy) as [Hey _].
    unfold add. cbn [SFadd V].
    rewrite binary_normalize_rnd by lia. f_equal.
    rewrite !shl_align_fst by lia.
    rewrite Z.mul_add_distr_r, !cond_Zopp_mul, !scale_split by lia.
    reflexivity.
Qed.

Lemma valid_opp (s : bool) (m : positive) (e : Z) :
  valid_binary prec emax (S754_finite s m e) = true ->
  valid_binary prec emax (S754_finite (negb s) m e) = true.
Proof. intro H. exact H. Qed.

Lemma sub_spec (x y : float) :
  Fin x -> Fin y -> V y <> 0 -> sub x y = rnd (V x - V y).
Proof.
  intros [Vx Fx] [Vy Fy] Ny.
  destruct y as [| | |sy my ey]; try discriminate Fy; [cbn in Ny; lia|].
  destruct x as [sx| | |sx mx ex]; try discriminate Fx.
  - unfold sub. cbn [SFsub].
    replace (V (S754_zero sx) - V (S754_finite sy my ey))
      with (V (S754_finite (negb sy) my ey))
      by (cbn [V]; destruct sy; cbn [cond_Zopp negb]; lia).
    symmetry. apply rnd_canonical; [split; [exact Vy|reflexivity]|discriminate].
  - pose proof (valid_finite_inv _ _ _ Vx) as [Hex _].
    pose proof (valid_finite_inv _ _ _ Vy) as [Hey _].
    unfold sub. cbn [SFsub V].
    rewrite binary_normalize_rnd by lia. f_equal.
    rewrite !shl_align_fst by lia.
    rewrite Z.mul_sub_distr_r, !cond_Zopp_mul, !scale_split by lia.
    reflexivity.
Qed.

(** ** The remainder modulo 360 *)

Lemma f180_rep : (f180 : float) = S754_finite false M180 (-45).
Proof. vm_compute. reflexivity. Qed.

Lemma f360_rep : (f360 : float) = S754_finite false M180 (-44).
Proof. vm_compute. reflexivity. Qed.

Lemma fm180_rep : (fm180 : float) = S754_finite true M180 (-45).
Proof. vm_compute. reflexivity. Qed.

Lemma f0_rep : (f0 : float) = pzero.
Proof. vm_compute. reflexivity. Qed.

Lemma V_f180 : V f180 = c180.
Proof. vm_compute. reflexivity. Qed.

Lemma V_f360 : V f360 = c360.
Proof. vm_compute. reflexivity. Qed.

Lemma Fin_f180 : Fin f180.
Proof. split; vm_compute; reflexivity. Qed.

Lemma Fin_f360 : Fin f360.
Proof. split; vm_compute; reflexivity. Qed.

Lemma deg_pos : 0 < deg.
Proof. reflexivity. Qed.

Lemma pow_deg (k : Z) : 0 <= k -> 2 ^ (k + 1074) = 2 ^ k * deg.
Proof. intro H. unfold deg. apply Z.pow_add_r; lia. Qed.

#[local] Opaque deg.

Lemma digits_le (v d : Z) : 0 < v < 2 ^ d -> digits v <= d.
Proof.
  intros [Hv H]. pose proof (digits_bounds Hv) as B.
  destruct (Z_le_gt_dec (digits v) d) as [A|A]; [exact A|exfalso].
  assert (2 ^ d <= 2 ^ (digits v - 1)).
  { destruct (Z_lt_ge_dec d 0) as [N|N].
    - rewrite (Z.pow_neg_r 2 d N) in H. lia.
    - apply Z.pow_le_mono_r; lia. }
  lia.
Qed.

Lemma digits_ge (v d : Z) : 2 ^ (d - 1) <= v -> 0 < d -> d <= digits v.
Proof.
  intros H Hd. assert (Hv : 0 < v).
  { assert (0 < 2 ^ (d - 1)) by (apply Z.pow_pos_nonneg; lia). lia. }
  pose proof (digits_bounds Hv) as B.
  destruct (Z_le_gt_dec d (digits v)) as [A|A]; [exact A|exfalso].
  assert (2 ^ digits v <= 2 ^ (d - 1)).
  { pose proof (digits_pos Hv). apply Z.pow_le_mono_r; lia. }
  lia.
Qed.

(** The absolute value of a finite double, and its sign *)
Lemma V_abs (s : bool) (m : positive) (e : Z) :
  -1074 <= e ->
  Z.abs (V (S754_finite s m e)) = Zpos m * 2 ^ (e + 1074) /\
  0 < Zpos m * 2 ^ (e + 1074) /\
  (V (S754_finite s m e) <? 0) = s.
Proof.
  intro He. assert (P : 0 < 2 ^ (e + 1074)) by (apply Z.pow_pos_nonneg; lia).
  assert (Q : 0 < Zpos m * 2 ^ (e + 1074)) by (apply Z.mul_pos_pos; lia).
  cbn [V]. destruct s; cbn [cond_Zopp]; (split; [lia|split; [exact Q|]]).
  - apply Z.ltb_lt. lia.
  - apply Z.ltb_ge. lia.
Qed.

(** C's [fmod] by 360 is exact: the scaled remainder, with the sign of the
    dividend. *)
Lemma fmod_spec (s : bool) (m : positive) (e : Z) :
  valid_binary prec emax (S754_finite s m e) = true ->
  let RR := (Zpos m * 2 ^ (e + 1074)) mod c360 in
  fmod (S754_finite s m e) f360
  = (if RR =? 0 then S754_zero s else rnd (cond_Zopp s RR)) /\
  0 <= RR < c360 /\
  (0 < RR -> nearest RR = RR).
Proof.
  intros Hv RR. pose proof (valid_finite_inv _ _ _ Hv) as [He [Hd _]].
  rewrite f360_rep. cbn [fmod].
  set (ez := Z.min e (-44)).
  assert (Hez : -1074 <= ez /\ ez <= e /\ ez <= -44) by (unfold ez; lia).
  rewrite !Z.shiftl_mul_pow2 by lia.
  set (X := Zpos m * 2 ^ (e - ez)). set (Y := Zpos M180 * 2 ^ (-44 - ez)).
  assert (PX : 0 < X) by (apply Z.mul_pos_pos; [lia|apply Z.pow_pos_nonneg; lia]).
  assert (PY : 0 < Y) by (apply Z.mul_pos_pos; [lia|apply Z.pow_pos_nonneg; lia]).
  rewrite Z.rem_mod_nonneg by lia.
  assert (Pk : 0 < 2 ^ (ez + 1074)) by (apply Z.pow_pos_nonneg; lia).
  assert (EX : X * 2 ^ (ez + 1074) = Zpos m * 2 ^ (e + 1074))
    by (apply scale_split; lia).
  assert (EY : Y * 2 ^ (ez + 1074) = c360).
  { unfold Y. rewrite scale_split by lia. exact V_f360. }
  assert (ER : (X mod Y) * 2 ^ (ez + 1074) = RR).
  { unfold RR. rewrite <- EX, <- EY. symmetry. apply Z.mul_mod_distr_r; lia. }
  pose proof (Z.mod_pos_bound X Y PY) as BR.
  assert (Bm : Zpos m < 2 ^ 53).
  { pose proof (@digits_bounds (Zpos m) ltac:(lia)) as B.
    assert (2 ^ digits (Zpos m) <= 2 ^ 53) by (apply Z.pow_le_mono_r; lia). lia. }
  assert (B53 : X mod Y < 2 ^ 53).
  { destruct (Z.eq_dec ez e) as [E|E].
    - assert (X = Zpos m) by (unfold X; rewrite E, Z.sub_diag; lia).
      pose proof (Z.mod_le X Y ltac:(lia) PY). lia.
    - assert (ez = -44) by (unfold ez in *; lia).
      assert (Y = Zpos M180) by (unfold Y; rewrite H, Z.sub_diag; lia).
      assert (Zpos M180 < 2 ^ 53) by reflexivity. lia. }
  split; [|split].
  - destruct (X mod Y) as [|r|r] eqn:Er; try lia.
    + rewrite <- ER. reflexivity.
    + replace (RR =? 0) with false by (symmetry; apply Z.eqb_neq; lia).
      rewrite binary_normalize_rnd by lia.
      rewrite cond_Zopp_mul, ER. reflexivity.
  - rewrite <- ER, <- EY. split; [lia|].
    apply Z.mul_lt_mono_pos_r; lia.
  - intro P. rewrite <- ER. apply nearest_scaled; [|lia].
    rewrite <- ER in P. split; [|exact B53].
    destruct (Z.eq_dec (X mod Y) 0) as [Z0|Z0]; [rewrite Z0 in P; lia|lia].
Qed.

Lemma nearest_pos (v : Z) : 0 < v -> 0 < nearest v.
Proof.
  intro Hv. unfold nearest. destruct (digits v <=? 53) eqn:S; [exact Hv|].
  apply Z.leb_gt in S. set (n := digits v - 53).
  pose proof (digits_bounds Hv) as B.
  assert (Pn : 0 < 2 ^ n) by (apply Z.pow_pos_nonneg; unfold n; lia).
  pose proof (rne_bounds (v / 2 ^ n) (v mod 2 ^ n) (2 ^ (n - 1))) as Bq.
  assert (2 ^ 52 <= v / 2 ^ n).
  { apply Z.div_le_lower_bound; [exact Pn|].
    rewrite <- Z.pow_add_r by (unfold n; lia).
    replace (n + 52) with (digits v - 1) by (unfold n; lia). lia. }
  apply Z.mul_pos_pos; [|exact Pn]. assert (0 < 2 ^ 52) by reflexivity. lia.
Qed.

Lemma nearest_le (v U : Z) :
  0 < v <= U -> (53 < digits v -> U mod 2 ^ (digits v - 53) = 0) ->
  nearest v <= U.
Proof.
  intros [Hv HU] Hdiv. unfold nearest.
  destruct (digits v <=? 53) eqn:S; [exact HU|].
  apply Z.leb_gt in S. specialize (Hdiv S). set (n := digits v - 53) in *.
  assert (Pn : 0 < 2 ^ n) by (apply Z.pow_pos_nonneg; unfold n; lia).
  assert (Ph : 0 < 2 ^ (n - 1)) by (apply Z.pow_pos_nonneg; unfold n; lia).
  pose proof (Z.div_mod v (2 ^ n) ltac:(lia)) as Dv.
  pose proof (Z.div_mod U (2 ^ n) ltac:(lia)) as DU. rewrite Hdiv in DU.
  pose proof (Z.mod_pos_bound v (2 ^ n) Pn) as Bv.
  pose proof (rne_bounds (v / 2 ^ n) (v mod 2 ^ n) (2 ^ (n - 1))) as Bq.
  destruct (Z.eq_dec (v mod 2 ^ n) 0) as [E|E].
  - rewrite E in *. rewrite rne_low by lia. lia.
  - assert (v / 2 ^ n < U / 2 ^ n) by nia.
    assert (rne (v / 2 ^ n) (v mod 2 ^ n) (2 ^ (n - 1)) <= U / 2 ^ n) by lia.
    nia.
Qed.

Lemma nearest_ge (v L : Z) :
  0 <= L <= v -> 0 < v -> (53 < digits v -> L mod 2 ^ (digits v - 53) = 0) ->
  L <= nearest v.
Proof.
  intros [HL Hv] Pv Hdiv. unfold nearest.
  destruct (digits v <=? 53) eqn:S; [exact Hv|].
  apply Z.leb_gt in S. specialize (Hdiv S). set (n := digits v - 53) in *.
  assert (Pn : 0 < 2 ^ n) by (apply Z.pow_pos_nonneg; unfold n; lia).
  pose proof (Z.div_mod v (2 ^ n) ltac:(lia)) as Dv.
  pose proof (Z.div_mod L (2 ^ n) ltac:(lia)) as DL. rewrite Hdiv in DL.
  pose proof (Z.mod_pos_bound v (2 ^ n) Pn) as Bv.
  pose proof (rne_bounds (v / 2 ^ n) (v mod 2 ^ n) (2 ^ (n - 1))) as Bq.
  assert (L / 2 ^ n <= v / 2 ^ n) by (apply Z.div_le_mono; lia).
  nia.
Qed.

(** The rounded value is a multiple of the grid it was rounded to. *)
Lemma nearest_grid (v : Z) :
  0 < v -> 53 < digits v -> nearest v mod 2 ^ (digits v - 53) = 0.
Proof.
  intros Hv S. unfold nearest.
  replace (digits v <=? 53) with false by (symmetry; apply Z.leb_gt; lia).
  apply Z.mod_mul.
  assert (0 < 2 ^ (digits v - 53)) by (apply Z.pow_pos_nonneg; lia). lia.
Qed.

Lemma rnd_shape (v : Z) :
  v <> 0 -> Z.abs v < 2 ^ 2098 - 2 ^ 2044 ->
  exists (m : positive) (e : Z),
    rnd v = S754_finite (v <? 0) m e /\
    valid_binary prec emax (S754_finite (v <? 0) m e) = true /\
    Zpos m * 2 ^ (e + 1074) = nearest (Z.abs v).
Proof.
  intros N H. unfold rnd.
  replace (v =? 0) with false by (symmetry; apply Z.eqb_neq; exact N).
  apply round_scaled_finite. lia.
Qed.

Lemma eqb_finite_zero (s : bool) (m : positive) (e : Z) :
  eqb (S754_finite s m e) pzero = false.
Proof. destruct s; reflexivity. Qed.

Lemma ltb_finite_zero (s : bool) (m : positive) (e : Z) :
  ltb (S754_finite s m e) pzero = s.
Proof. destruct s; reflexivity. Qed.

Lemma c360_small : c360 < 2 ^ 2098 - 2 ^ 2044.
Proof. vm_compute. reflexivity. Qed.

Lemma c360_grid (n : Z) : 0 <= n <= 1077 -> c360 mod 2 ^ n = 0.
Proof.
  intro H. unfold c360.
  replace (360 * deg) with (45 * 2 ^ (1077 - n) * 2 ^ n).
  - apply Z.mod_mul. assert (0 < 2 ^ n) by (apply Z.pow_pos_nonneg; lia). lia.
  - rewrite <- Z.mul_assoc, <- Z.pow_add_r by lia.
    replace (1077 - n + n) with (3 + 1074) by lia.
    rewrite pow_deg by lia. change (2 ^ 3) with 8. lia.
Qed.

Lemma c360_digits (v : Z) : 0 < v < c360 -> digits v <= 1083.
Proof.
  intros [Hv H]. apply digits_le. split; [exact Hv|].
  replace 1083 with (9 + 1074) by lia. rewrite pow_deg by lia.
  change (2 ^ 9) with 512. unfold c360 in H. pose proof deg_pos. lia.
Qed.

(** Python's [x % 360.0] of a finite double is a finite double between 0
    and 360 (the ends included), and not the negative zero. *)
Lemma float_rem360_range (x : float) :
  Fin x ->
  Fin (rem x f360) /\ rem x f360 <> nzero /\ 0 <= V (rem x f360) <= c360.
Proof.
  intros [Hv Hf]. pose proof c360_small as Thr. pose proof deg_pos as Pd.
  assert (P360 : 0 < c360) by (unfold c360; lia).
  destruct x as [s| | |s m e]; try discriminate Hf.
  - assert (E : rem (S754_zero s) f360 = pzero) by (destruct s; vm_compute; reflexivity).
    rewrite E. repeat split; try discriminate; cbn; lia.
  - destruct (fmod_spec _ _ _ Hv) as [Ef [BR Ex]].
    set (RR := (Zpos m * 2 ^ (e + 1074)) mod c360) in *.
    unfold rem. rewrite Ef.
    destruct (RR =? 0) eqn:E0.
    + assert (E : (if negb (eqb (S754_zero s) pzero)
                   then if negb (Bool.eqb (ltb f360 pzero) (ltb (S754_zero s) pzero))
                        then add (S754_zero s) f360 else S754_zero s
                   else if ltb f360 pzero then nzero else pzero) = pzero)
        by (destruct s; vm_compute; reflexivity).
      rewrite E. repeat split; try discriminate; cbn; lia.
    + apply Z.eqb_neq in E0.
      assert (Nz : cond_Zopp s RR <> 0) by (destruct s; cbn [cond_Zopp]; lia).
      assert (Ab : Z.abs (cond_Zopp s RR) = RR) by (destruct s; cbn [cond_Zopp]; lia).
      destruct (@rnd_shape (cond_Zopp s RR) Nz ltac:(lia)) as [q [eq [Er [Vr Mr]]]].
      rewrite Ab, Ex in Mr by lia.
      assert (Sg : (cond_Zopp s RR <? 0) = s).
      { destruct s; cbn [cond_Zopp]; [apply Z.ltb_lt|apply Z.ltb_ge]; lia. }
      rewrite Sg in *. rewrite Er.
      rewrite eqb_finite_zero, ltb_finite_zero. cbn [negb].
      replace (ltb f360 pzero) with false by (vm_compute; reflexivity).
      destruct s; cbn [Bool.eqb negb].
      * (* a negative remainder: 360 is added, and the sum is rounded *)
        assert (Fq : Fin (S754_finite true q eq)) by (split; [exact Vr|reflexivity]).
        rewrite (add_spec Fq Fin_f360) by (rewrite V_f360; lia).
        rewrite V_f360. cbn [V cond_Zopp]. rewrite Mr.
        assert (Bv : 0 < - RR + c360 < c360) by lia.
        destruct (@rnd_Fin (- RR + c360) ltac:(lia)) as [Fr Vv].
        split; [exact Fr|]. split; [apply rnd_neq_nzero|].
        rewrite Vv, Z.sgn_pos, Z.abs_eq by lia. rewrite Z.mul_1_l.
        pose proof (@nearest_pos (- RR + c360) ltac:(lia)).
        split; [lia|].
        apply nearest_le; [lia|].
        pose proof (c360_digits Bv) as Dg.
        intro A. apply c360_grid. lia.
      * split; [split; [exact Vr|reflexivity]|]. split; [discriminate|].
        cbn [V cond_Zopp]. rewrite Mr. lia.
Qed.

Lemma float_rem360_small (x : float) :
  Fin x -> x <> nzero -> 0 <= V x < c360 -> rem x f360 = x.
Proof.
  intros [Hv Hf] Nz Bx. pose proof deg_pos as Pd.
  destruct x as [[|]| | |s m e]; try discriminate Hf.
  - contradiction.
  - vm_compute. reflexivity.
  - pose proof (valid_finite_inv _ _ _ Hv) as [He _].
    destruct (@V_abs s m e ltac:(lia)) as [Ab [Pv Sg]].
    assert (s = false).
    { destruct s; [|reflexivity]. apply Z.ltb_lt in Sg. lia. }
    subst s. cbn [V cond_Zopp] in Bx.
    destruct (fmod_spec _ _ _ Hv) as [Ef _].
    rewrite Z.mod_small in Ef by lia.
    replace (Zpos m * 2 ^ (e + 1074) =? 0) with false in Ef
      by (symmetry; apply Z.eqb_neq; lia).
    cbn [cond_Zopp] in Ef.
    change (Zpos m * 2 ^ (e + 1074)) with (V (S754_finite false m e)) in Ef.
    rewrite rnd_canonical in Ef by (try split; try assumption; discriminate).
    unfold rem. rewrite Ef, eqb_finite_zero, ltb_finite_zero.
    replace (ltb f360 pzero) with false by (vm_compute; reflexivity).
    reflexivity.
Qed.

Lemma eqb_finite_eq (y : float) (s : bool) (m : positive) (e : Z) :
  eqb y (S754_finite s m e) = true -> y = S754_finite s m e.
Proof.
  unfold eqb, SFeqb.
  destruct y as [sy|sy| |sy my ey]; cbn [SFcompare];
    try discriminate; try (destruct sy; discriminate);
    try (destruct s; discriminate).
  destruct sy, s; try discriminate;
    destruct (Z.compare ey e) eqn:Ce; try discriminate;
    destruct (Pos.compare_cont Eq my m) eqn:Cm; try discriminate;
    intros _; apply Z.compare_eq in Ce; apply Pos.compare_eq in Cm;
    subst; reflexivity.
Qed.

Lemma V_bound (x : float) : Fin x -> Z.abs (V x) <= (2 ^ 53 - 1) * 2 ^ 2045.
Proof.
  intros [Hv Hf]. destruct x as [| | |s m e]; try (cbn; lia).
  pose proof (valid_finite_inv _ _ _ Hv) as [He [Hd _]].
  destruct (@V_abs s m e ltac:(lia)) as [Ab _]. rewrite Ab.
  assert (Bm : Zpos m <= 2 ^ 53 - 1).
  { pose proof (@digits_bounds (Zpos m) ltac:(lia)) as B.
    assert (2 ^ digits (Zpos m) <= 2 ^ 53) by (apply Z.pow_le_mono_r; lia). lia. }
  assert (Be : 2 ^ (e + 1074) <= 2 ^ 2045) by (apply Z.pow_le_mono_r; lia).
  assert (0 < 2 ^ (e + 1074)) by (apply Z.pow_pos_nonneg; lia).
  apply Z.mul_le_mono_nonneg; lia.
Qed.

Lemma c180_small : c180 < 2 ^ 2044.
Proof. vm_compute. reflexivity. Qed.

Lemma threshold : 2 ^ 2098 - 2 ^ 2044 = (2 ^ 53 - 1) * 2 ^ 2045 + 2 ^ 2044.
Proof. vm_compute. reflexivity. Qed.

Lemma Fin_add180 (x : float) : Fin x -> Fin (add x f180).
Proof.
  intro Fx. rewrite (add_spec Fx Fin_f180) by (rewrite V_f180; discriminate).
  rewrite V_f180. apply rnd_Fin.
  pose proof (V_bound Fx). pose proof c180_small. rewrite threshold.
  assert (0 < c180) by reflexivity. lia.
Qed.

(** ** The normalizer on doubles *)

Lemma c180_grid (n : Z) : 0 <= n <= 1076 -> c180 mod 2 ^ n = 0.
Proof.
  intro H. unfold c180.
  replace (180 * deg) with (45 * 2 ^ (1076 - n) * 2 ^ n).
  - apply Z.mod_mul. assert (0 < 2 ^ n) by (apply Z.pow_pos_nonneg; lia). lia.
  - rewrite <- Z.mul_assoc, <- Z.pow_add_r by lia.
    replace (1076 - n + n) with (2 + 1074) by lia.
    rewrite pow_deg by lia. change (2 ^ 2) with 4. lia.
Qed.

Lemma mod_pow2_le (a n k : Z) : 0 <= k <= n -> a mod 2 ^ n = 0 -> a mod 2 ^ k = 0.
Proof.
  intros H Ha.
  assert (Pn : 0 < 2 ^ n) by (apply Z.pow_pos_nonneg; lia).
  assert (Pk : 0 < 2 ^ k) by (apply Z.pow_pos_nonneg; lia).
  apply Z.mod_divide in Ha; [|lia]. apply Z.mod_divide; [lia|].
  apply Z.divide_trans with (2 ^ n); [|exact Ha].
  exists (2 ^ (n - k)). rewrite <- Z.pow_add_r by lia. f_equal. lia.
Qed.

Lemma mod_sub_0 (a b g : Z) : 0 < g -> a mod g = 0 -> b mod g = 0 -> (a - b) mod g = 0.
Proof.
  intros Pg Ha Hb. apply Z.mod_divide in Ha; [|lia]. apply Z.mod_divide in Hb; [|lia].
  apply Z.mod_divide; [lia|]. apply Z.divide_sub_r; assumption.
Qed.

(** The value of a valid double is a multiple of its own grid. *)
Lemma valid_grid (f : float) :
  Fin f -> 0 < V f -> 53 < digits (V f) -> V f mod 2 ^ (digits (V f) - 53) = 0.
Proof.
  intros Ff P D.
  pose proof (@valid_nearest f Ff ltac:(lia)) as E. rewrite Z.abs_eq in E by lia.
  rewrite <- E at 1. apply nearest_grid; assumption.
Qed.

Lemma py_mod_360_b64 (z : float) : py_mod z f360 = Ok (rem z f360).
Proof. reflexivity. Qed.

Lemma point_value (x : float) :
  normalize_lon_point x = Ok (if eqb (y0 x) f180 then fm180 else y0 x).
Proof.
  unfold normalize_lon_point, normalize_lon_edge.
  rewrite py_mod_360_b64. cbn [bind].
  change (f_sub (rem (f_add x f180) f360) f180) with (y0 x).
  destruct (f_eqb (y0 x) fm180 && f_ltb f0 x) eqn:T.
  - apply andb_true_iff in T. destruct T as [T _].
    change (f_eqb (y0 x) fm180) with (eqb (y0 x) fm180) in T.
    rewrite fm180_rep in T. apply eqb_finite_eq in T. rewrite T.
    vm_compute. reflexivity.
  - cbn [bind]. change (f_eqb (y0 x) f180) with (eqb (y0 x) f180).
    destruct (eqb (y0 x) f180); reflexivity.
Qed.

Lemma deg_64 : 2 ^ 1080 = 64 * deg.
Proof. replace 1080 with (6 + 1074) by lia. rewrite pow_deg by lia. reflexivity. Qed.

Lemma deg_128 : 2 ^ 1081 = 128 * deg.
Proof. replace 1081 with (7 + 1074) by lia. rewrite pow_deg by lia. reflexivity. Qed.

Lemma deg_256 : 2 ^ 1082 = 256 * deg.
Proof. replace 1082 with (8 + 1074) by lia. rewrite pow_deg by lia. reflexivity. Qed.

Lemma deg_512 : 2 ^ 1083 = 512 * deg.
Proof. replace 1083 with (9 + 1074) by lia. rewrite pow_deg by lia. reflexivity. Qed.

Lemma deg_grid (k n : Z) : 0 <= n <= 1074 -> (k * deg) mod 2 ^ n = 0.
Proof.
  intro H. replace (k * deg) with (k * 2 ^ (1074 - n) * 2 ^ n).
  - apply Z.mod_mul. assert (0 < 2 ^ n) by (apply Z.pow_pos_nonneg; lia). lia.
  - rewrite <- Z.mul_assoc, <- Z.pow_add_r by lia.
    replace (1074 - n + n) with (0 + 1074) by lia.
    rewrite pow_deg by lia. change (2 ^ 0) with 1. lia.
Qed.

(** A double [y] of [[-180, 180)] for which [y + 180.0] is computed
    exactly is left unchanged by the arithmetic of the normalizer. *)
Lemma y0_fixed (y : float) :
  Fin y -> y <> nzero -> - c180 <= V y < c180 ->
  (0 < V y + c180 -> nearest (V y + c180) = V y + c180) ->
  y0 y = y.
Proof.
  intros Fy Ny By Ex. unfold y0.
  pose proof deg_pos as Pd. pose proof c360_small as Thr.
  assert (P180 : 0 < c180) by (unfold c180; lia).
  assert (E360 : c360 = 2 * c180) by (unfold c360, c180; lia).
  rewrite (add_spec Fy Fin_f180) by (rewrite V_f180; lia).
  rewrite V_f180.
  set (A := V y + c180) in *.
  destruct (@rnd_Fin A ltac:(lia)) as [Fa Va].
  assert (Va' : V (rnd A) = A).
  { rewrite Va. destruct (Z.eq_dec A 0) as [Z0|Z0].
    - rewrite Z0. reflexivity.
    - rewrite Z.sgn_pos, Z.abs_eq by lia. rewrite Ex by lia. lia. }
  rewrite float_rem360_small by (try assumption; try apply rnd_neq_nzero; lia).
  rewrite (sub_spec Fa Fin_f180) by (rewrite V_f180; lia).
  rewrite V_f180, Va'. replace (A - c180) with (V y) by (unfold A; lia).
  apply rnd_canonical; assumption.
Qed.

(** The normalizer's result, before folding, is such a double. *)
Lemma y0_image (r : float) :
  Fin r -> r <> nzero -> 0 <= V r <= c360 ->
  let y := rnd (V r - c180) in
  Fin y /\ - c180 <= V y <= c180 /\
  (0 < V y + c180 -> nearest (V y + c180) = V y + c180).
Proof.
  intros Fr Nr Br y. subst y.
  pose proof deg_pos as Pd. pose proof c360_small as Thr.
  assert (P180 : 0 < c180) by (unfold c180; lia).
  assert (E360 : c360 = 2 * c180) by (unfold c360, c180; lia).
  set (Y := V r - c180).
  destruct (@rnd_Fin Y ltac:(unfold Y; lia)) as [Fy Vy].
  split; [exact Fy|].
  (* the magnitude of the result *)
  assert (Dabs : Y <> 0 -> digits (Z.abs Y) <= 1082).
  { intro N. apply digits_le. rewrite deg_256. unfold Y, c180 in *. lia. }
  assert (Babs : Y <> 0 -> 0 < nearest (Z.abs Y) <= c180).
  { intro N. split; [apply nearest_pos; lia|].
    apply nearest_le; [unfold Y in *; lia|].
    intro D. apply c180_grid. specialize (Dabs N). lia. }
  assert (Bv : - c180 <= V (rnd Y) <= c180).
  { rewrite Vy. destruct (Z.eq_dec Y 0) as [Z0|Z0];
      [rewrite Z0; change (Z.sgn 0) with 0; rewrite Z.mul_0_l; lia|].
    specialize (Babs Z0).
    destruct (Z_lt_ge_dec Y 0).
    - rewrite Z.sgn_neg by lia. lia.
    - rewrite Z.sgn_pos by lia. lia. }
  split; [exact Bv|]. intro PA.
  destruct (Z_lt_ge_dec (V r) (64 * deg)) as [Small|Large].
  - (* r < 64: the difference r - 180 is rounded, to a multiple of 2^-46 *)
    assert (NY : Y < 0) by (unfold Y, c180; lia).
    set (w := Z.abs Y) in *.
    assert (Ew : w = c180 - V r) by (unfold w, Y; lia).
    assert (Bw : 116 * deg < w <= c180) by (unfold c180 in *; lia).
    assert (Dw : 1081 <= digits w <= 1082).
    { split; [apply digits_ge; [|lia]|apply Dabs; lia].
      replace (1081 - 1) with 1080 by lia. rewrite deg_64. lia. }
    assert (Lw : 116 * deg <= nearest w).
    { apply nearest_ge; [lia|lia|]. intros _. apply deg_grid. lia. }
    rewrite Vy, Z.sgn_neg in * by lia. fold w in PA |- *.
    set (W := nearest w) in *.
    assert (Gw : W mod 2 ^ 1028 = 0).
    { apply mod_pow2_le with (digits w - 53); [lia|]. apply nearest_grid; lia. }
    apply nearest_divisible; [lia|].
    assert (DA : digits (-1 * W + c180) <= 1081).
    { apply digits_le. rewrite deg_128. unfold c180 in *. lia. }
    destruct (Z_le_gt_dec (digits (-1 * W + c180)) 53) as [A|A]; [left; exact A|right].
    replace (-1 * W + c180) with (c180 - W) in * by lia.
    apply mod_pow2_le with 1028; [lia|].
    apply mod_sub_0; [apply Z.pow_pos_nonneg; lia|apply c180_grid; lia|exact Gw].
  - (* r >= 64: the difference r - 180 is exact *)
    assert (Pr : 0 < V r) by lia.
    assert (Dr : 1081 <= digits (V r) <= 1083).
    { split; [apply digits_ge; [|lia]|apply digits_le].
      - replace (1081 - 1) with 1080 by lia. rewrite deg_64. lia.
      - rewrite deg_512. unfold c360 in *. lia. }
    pose proof (@valid_grid r Fr Pr ltac:(lia)) as Gr.
    assert (Exact : V (rnd Y) = Y).
    { rewrite Vy. destruct (Z.eq_dec Y 0) as [Z0|Z0]; [rewrite Z0; reflexivity|].
      assert (En : nearest (Z.abs Y) = Z.abs Y).
      { apply nearest_divisible; [lia|].
        destruct (Z_le_gt_dec (digits (Z.abs Y)) 53) as [A|A]; [left; exact A|right].
        assert (Dy : digits (Z.abs Y) <= digits (V r)).
        { apply digits_le. split; [lia|].
          pose proof (digits_bounds Pr) as B.
          destruct (Z_lt_ge_dec (V r) c180).
          - assert (2 ^ 1081 <= 2 ^ digits (V r)) by (apply Z.pow_le_mono_r; lia).
            rewrite deg_128 in H. unfold Y, c180 in *. lia.
          - unfold Y in *. lia. }
        apply mod_pow2_le with (digits (V r) - 53); [lia|].
        assert (Pg : 0 < 2 ^ (digits (V r) - 53)) by (apply Z.pow_pos_nonneg; lia).
        assert (Gc : c180 mod 2 ^ (digits (V r) - 53) = 0) by (apply c180_grid; lia).
        destruct (Z_lt_ge_dec Y 0).
        + rewrite Z.abs_neq by lia. replace (- Y) with (c180 - V r) by (unfold Y; lia).
          apply mod_sub_0; assumption.
        + rewrite Z.abs_eq by lia. unfold Y. apply mod_sub_0; assumption. }
      rewrite En. destruct (Z_lt_ge_dec Y 0).
      - rewrite Z.sgn_neg by lia. lia.
      - rewrite Z.sgn_pos by lia. lia. }
    rewrite Exact. replace (Y + c180) with (V r) by (unfold Y; lia).
    pose proof (@valid_nearest r Fr ltac:(lia)) as E.
    rewrite Z.abs_eq in E by lia. exact E.
Qed.

Lemma y0_rnd (x : float) :
  Fin x ->
  exists r : float,
    Fin r /\ r <> nzero /\ 0 <= V r <= c360 /\ y0 x = rnd (V r - c180).
Proof.
  intro Fx. pose proof (Fin_add180 Fx) as Fa.
  destruct (float_rem360_range Fa) as [Fr [Nr Br]].
  exists (rem (add x f180) f360).
  split; [exact Fr|]. split; [exact Nr|]. split; [exact Br|].
  unfold y0. rewrite (sub_spec Fr Fin_f180) by (rewrite V_f180; discriminate).
  rewrite V_f180. reflexivity.
Qed.

Lemma value_180 (y : float) : Fin y -> y <> nzero -> V y = c180 -> y = f180.
Proof.
  intros Fy Ny E. rewrite <- (rnd_canonical Fy Ny), E, <- V_f180.
  apply rnd_canonical; [apply Fin_f180|discriminate].
Qed.

(** For every finite double, [normalize_lon_point] returns a finite double
    of [[-180, 180)], in units of [2^-1074]. *)
Lemma normalize_lon_point_range (x : float) :
  Fin x ->
  exists y : float,
    normalize_lon_point x = Ok y /\ Fin y /\ y <> nzero /\
    - c180 <= V y < c180 /\
    (0 < V y + c180 -> nearest (V y + c180) = V y + c180).
Proof.
  intro Fx. rewrite point_value.
  destruct (y0_rnd Fx) as [r [Fr [Nr [Br Ey]]]].
  destruct (y0_image Fr Nr Br) as [Fy [By Ex]]. rewrite <- Ey in *.
  assert (Ny : y0 x <> nzero) by (rewrite Ey; apply rnd_neq_nzero).
  destruct (eqb (y0 x) f180) eqn:T.
  - exists fm180. split; [reflexivity|].
    split; [split; vm_compute; reflexivity|]. split; [discriminate|].
    split; [vm_compute; split; [discriminate|reflexivity]|].
    intros _. vm_compute. reflexivity.
  - exists (y0 x). split; [reflexivity|]. split; [exact Fy|]. split; [exact Ny|].
    split; [|exact Ex]. split; [lia|].
    destruct (Z.eq_dec (V (y0 x)) c180) as [E|E]; [|lia].
    rewrite (value_180 Fy Ny E) in T. vm_compute in T. discriminate T.
Qed.

(** C10, in double precision: for every finite double [x],
    [normalize_lon_point] applied to its own result returns that result. *)
Theorem normalize_lon_point_idempotent_b64 (x : float) :
  valid_binary prec emax x = true -> is_finite x = true ->
  exists y : float,
    normalize_lon_point x = Ok y /\ normalize_lon_point y = Ok y.
Proof.
  intros Hv Hf.
  destruct (@normalize_lon_point_range x (conj Hv Hf)) as [y [E [Fy [Ny [By Ex]]]]].
  exists y. split; [exact E|].
  rewrite point_value, (y0_fixed Fy Ny By Ex).
  destruct (eqb y f180) eqn:T; [|reflexivity].
  rewrite f180_rep in T. apply eqb_finite_eq in T. rewrite <- f180_rep in T.
  subst y. rewrite V_f180 in By. lia.
Qed.

Lemma normalize_lon_point_idempotent_b64_witness :
  exists y : float,
    normalize_lon_point (f_dec (-740060) 4 : float) = Ok y /\
    normalize_lon_point y = Ok y.
Proof.
  apply (@normalize_lon_point_idempotent_b64 (f_dec (-740060) 4));
    vm_compute; reflexivity.
Defined.

End Binary64Theory.

(** * Runs in double precision *)

Module Runs.
Import Binary64 Data.

Local Open Scope Z_scope.

(** The doubles the literals of the source and of the scenarios denote. *)
Lemma literal_values :
  (f180 : float) = pos 6333186975989760 (-45) /\
  (f360 : float) = pos 6333186975989760 (-44) /\
  (fm180 : float) = negf 6333186975989760 (-45) /\
  (ZONE_WIDTH_DEG : float) = pos 5066549580791808 (-47) /\
  (LANGFANG_LON_EAST_BOUNDARY : float) = pos 8212032445533389 (-46) /\
  (f_of_int 0 : float) = pzero /\
  lon_below_m86 = negf 6051711999279105 (-46) /\
  boundary_m50 = negf 7036874417766400 (-47).
Proof. vm_compute. repeat split; reflexivity. Qed.

Lemma build_zone_intervals_default :
  build_zone_intervals LANGFANG_LON_EAST_BOUNDARY = Ok default_zones.
Proof. vm_compute. reflexivity. Qed.

(** C6: [circular_min_cover_interval([10, 20, 350])].  The sorted points are
    [10, 20, 350]; the scan finds the largest gap, 330 degrees, at index 1,
    i.e. from 20 to 350; the result is the complement, from 350 to 20: the
    pair [(-10, 20)], whose west end is the edge form of 350, and whose
    width eastward is 30 degrees.  The same holds in exact arithmetic. *)
Theorem min_cover_10_20_350 :
  let lons : list float := [f_of_int 10; f_of_int 20; f_of_int 350] in
  let pts : list float := [f_of_int 10; f_of_int 20; f_of_int 350] in
  (map_result lon_to_360 lons = Ok pts /\ sorted pts = pts) /\
  max_gap_scan pts = Ok (f_of_int 330, 1%nat) /\
  py_mod (f_sub (nth 2 pts f0) (nth 1 pts f0)) f360 = Ok (f_of_int 330) /\
  lon360_to_edge (f_of_int 350 : float) = f_of_int (-10) /\
  lon360_to_edge (f_of_int 20 : float) = f_of_int 20 /\
  circular_min_cover_interval lons = Ok (Some (f_of_int (-10), f_of_int 20)) /\
  py_mod (f_sub (f_of_int 20) (f_of_int (-10)) : float) f360 = Ok (f_of_int 30) /\
  (exists w e : Q,
      circular_min_cover_interval [inject_Z 10; inject_Z 20; inject_Z 350]
        = Ok (Some (w, e)) /\
      (w == -10)%Q /\ (e == 20)%Q /\
      (w == lon360_to_edge (inject_Z 350))%Q /\
      (Exact.qrem (e - w) 360 == 30)%Q).
Proof.
  cbv zeta. repeat split; try (vm_compute; reflexivity).
  eexists; eexists. split; [vm_compute; reflexivity|].
  repeat split; vm_compute; reflexivity.
Qed.

(** C8: with the default boundary 116.7, the longitude 116.7 is mapped to
    zone 8, the entry of [build_zone_intervals] whose west edge is the east
    edge of zone 9; [pretty_range] prints its ends as 116.7000 and 152.7000.
    The point is outside the arc of zone 9 and inside the arc of zone 8, and
    so is the double that is the common edge itself.  In exact arithmetic
    the interval is [[116.7, 152.7)] and 116.7 is the east edge of zone 9. *)
Theorem boundary_point_116_7_in_zone_8 :
  let b : float := LANGFANG_LON_EAST_BOUNDARY in
  let lon : float := f_dec 1167 1 in
  (lon_to_zone_interval lon b = Ok zone8_default /\
   zone zone8_default = 8 /\
   pretty_range_digits (west zone8_default) (east zone8_default) 4
     = Ok (Some (1167000, 1527000))) /\
  (build_zone_intervals b = Ok default_zones /\
   nth 0 default_zones zone8_default = zone9_default /\
   nth 1 default_zones zone9_default = zone8_default /\
   zone zone9_default = 9 /\
   east zone9_default = west zone8_default) /\
  (arc_contains zone9_default lon = false /\
   arc_contains zone8_default lon = true /\
   lon_to_zone_interval (east zone9_default) b = Ok zone8_default /\
   arc_contains zone9_default (east zone9_default) = false /\
   arc_contains zone8_default (east zone9_default) = true) /\
  (exists z8 z9 rest,
      lon_to_zone_interval (116.7)%Q (116.7)%Q = Ok z8 /\
      build_zone_intervals (116.7)%Q = Ok (z9 :: z8 :: rest) /\
      zone z8 = 8 /\ (west z8 == 116.7)%Q /\ (east z8 == 152.7)%Q /\
      zone z9 = 9 /\ (east z9 == 116.7)%Q).
Proof.
  cbv zeta. repeat split; try (vm_compute; reflexivity).
  do 3 eexists. split; [vm_compute; reflexivity|].
  split; [vm_compute; reflexivity|].
  repeat split; vm_compute; reflexivity.
Qed.

(** C4: the normalizer does not reject NaN: [normalize_lon_edge(nan)]
    returns NaN, it raises nothing. *)
Lemma normalize_lon_edge_nan_returns :
  normalize_lon_edge nan = Ok nan /\
  ~ (exists e, normalize_lon_edge nan = Raise e).
Proof.
  split; [vm_compute; reflexivity|].
  intros [e He]. vm_compute in He. discriminate He.
Qed.

(** C4, as the code has it: for NaN, [+inf] and [-inf],
    [normalize_lon_edge] and [normalize_lon_point] return NaN and raise
    nothing.  The NaN then enters the interval arithmetic: [split_range]
    returns segments that hold it.  Only [lon_to_zone_interval] fails on
    such an input, when [math.floor] meets the NaN. *)
Theorem normalizer_maps_non_finite_to_nan :
  Forall (fun x : float =>
            normalize_lon_edge x = Ok nan /\ normalize_lon_point x = Ok nan)
         [nan; pinf; ninf] /\
  split_range nan (f_of_int 0) = Ok [(nan, f180); (fm180, pzero)] /\
  Forall (fun x : float =>
            lon_to_zone_interval x LANGFANG_LON_EAST_BOUNDARY = Raise ValueError)
         [nan; pinf; ninf].
Proof.
  repeat split; repeat constructor; vm_compute; reflexivity.
Qed.

(** C2: [-180] belongs to the class [180 + 360 k] (with [k = -1]), and
    [normalize_lon_edge(-180)] is [-180], not [+180]; in double precision
    and in exact arithmetic alike.  And on doubles [+180] is returned
    outside the class too: for the two doubles next to [180.0], whose sum
    with [180.0] rounds to [360.0], and for the double just below
    [-180.0]. *)
Lemma normalize_lon_edge_minus_180 :
  (normalize_lon_edge (f_of_int (-180) : float) = Ok fm180 /\
   f_eqb (fm180 : float) f180 = false) /\
  (-180 == 180 + 360 * inject_Z (-1))%Q /\
  (exists v : Q, normalize_lon_edge (-180)%Q = Ok v /\ (v == -180)%Q /\
                 ~ (v == 180)%Q) /\
  (normalize_lon_edge above_180 = Ok f180 /\ V above_180 = c180 + 2 ^ 1029) /\
  (normalize_lon_edge below_180 = Ok f180 /\ V below_180 = c180 - 2 ^ 1029) /\
  (normalize_lon_edge below_m180 = Ok f180 /\ V below_m180 = - c180 - 2 ^ 1029).
Proof.
  split; [split; vm_compute; reflexivity|].
  split; [vm_compute; reflexivity|]. split.
  - eexists. split; [vm_compute; reflexivity|].
    split; [vm_compute; reflexivity|].
    intro E. vm_compute in E. discriminate E.
  - repeat split; vm_compute; reflexivity.
Qed.

(** C7: the one-point list [[-180.0]].  The cover returned is
    [(180.0, 180.0)]: neither [(p, p)] nor the edge form of [p], which is
    [-180.0].  And for [p = -0.1] the double returned differs from [p] and
    from the edge form of [p], by the rounding of [-0.1 + 360.0]. *)
Lemma single_point_minus_180 :
  (circular_min_cover_interval [fm180 : float] = Ok (Some (f180, f180)) /\
   f_eqb (f180 : float) fm180 = false /\
   normalize_lon_edge (fm180 : float) = Ok fm180) /\
  (circular_min_cover_interval [lon_m01] = Ok (Some (cover_m01, cover_m01)) /\
   f_eqb cover_m01 lon_m01 = false /\
   normalize_lon_edge lon_m01 = Ok edge_m01 /\
   f_eqb cover_m01 edge_m01 = false).
Proof. repeat split; vm_compute; reflexivity. Qed.

(** C5: [split_range(180.0, 0.0)].  The two ends differ, the range wraps,
    and the first of the two segments returned is [(180, 180)], for which
    [a < b] is false.  Likewise [split_range(144.0, -180.0)], the call
    [zones_covered_by_lon_range] makes for the zone [[144, 180)] of the
    boundary [0.0], returns [(-180, -180)] as its second segment. *)
Theorem split_range_180_0 :
  let w : float := f_dec 1800 1 in
  let e : float := f_dec 0 1 in
  f_eqb w e = false /\
  split_range w e = Ok [(f180, f180); (fm180, pzero)] /\
  f_ltb (f180 : float) f180 = false /\
  (exists zs : list (ZoneInterval (F := float)),
      build_zone_intervals (f_dec 0 1) = Ok zs /\
      In (mkZoneInterval 4 (f_of_int 144) fm180) zs) /\
  split_range (f_of_int 144 : float) fm180
    = Ok [(f_of_int 144, f180); (fm180, fm180)] /\
  f_ltb (fm180 : float) fm180 = false /\
  (exists s1 s2 : Q * Q,
      split_range 180%Q 0%Q = Ok [s1; s2] /\
      (fst s1 == 180)%Q /\ (snd s1 == 180)%Q /\
      f_ltb (fst s1) (snd s1) = false).
Proof.
  cbv zeta. repeat split; try (vm_compute; reflexivity).
  - eexists. split; [vm_compute; reflexivity|]. vm_compute. tauto.
  - do 2 eexists. split; [vm_compute; reflexivity|].
    repeat split; vm_compute; reflexivity.
Qed.

(** C9: the degenerate range [(180, 180)] with the default boundary.  The
    seam is no edge of any zone, it lies inside the arc of zone 7, from
    152.7 through the seam to -171.3; yet no zone is reported.  And with
    the boundary [-81.4] the degenerate range at the double between the
    east edge of zone 0 and the west edge of zone 9 reports both zones. *)
Lemma degenerate_range_at_seam :
  let b : float := LANGFANG_LON_EAST_BOUNDARY in
  zones_covered_by_lon_range f180 f180 b = Ok [] /\
  build_zone_intervals b = Ok default_zones /\
  no_edge_at default_zones f180 = true /\
  no_edge_at default_zones fm180 = true /\
  In zone7_default default_zones /\
  normalize_lon_point f180 = Ok (fm180 : float) /\
  arc_contains zone7_default fm180 = true /\
  (exists zs : list (ZoneInterval (F := Q)),
      build_zone_intervals (116.7)%Q = Ok zs /\
      zones_covered_by_lon_range 180%Q 180%Q (116.7)%Q = Ok [] /\
      no_edge_at zs 180%Q = true /\ no_edge_at zs (-180)%Q = true /\
      existsb (fun zi => arc_contains zi (-180)%Q) zs = true) /\
  (zones_covered_by_lon_range lon_between_m814 lon_between_m814 boundary_m814
   = Ok [zone0_m814; zone9_m814] /\
   exists zs : list (ZoneInterval (F := float)),
     build_zone_intervals boundary_m814 = Ok zs /\
     In zone0_m814 zs /\ In zone9_m814 zs).
Proof.
  cbv zeta.
  split; [vm_compute; reflexivity|]. split; [vm_compute; reflexivity|].
  split; [vm_compute; reflexivity|]. split; [vm_compute; reflexivity|].
  split; [vm_compute; tauto|]. split; [vm_compute; reflexivity|].
  split; [vm_compute; reflexivity|]. split.
  - eexists. split; [vm_compute; reflexivity|].
    repeat split; vm_compute; reflexivity.
  - split; [vm_compute; reflexivity|].
    eexists. split; [vm_compute; reflexivity|]. split; vm_compute; tauto.
Qed.

(** C3: [lon_to_zone_interval(-86.00000000000001, -50.0)].  The point is
    the double just below the origin [-86.0]; the difference, [-2^-46], has
    the float remainder [360.0] modulo [360.0], because [fmod] returns
    [-2^-46] and adding [360.0] to it rounds to [360.0].  So [steps_east]
    is 10. *)
Theorem steps_east_is_10 :
  normalize_lon_point lon_below_m86 = Ok lon_below_m86 /\
  zone_origin boundary_m50 = Ok (f_of_int (-86)) /\
  f_sub lon_below_m86 (f_of_int (-86)) = negf 4503599627370496 (-98) /\
  fmod (negf 4503599627370496 (-98)) f360 = negf 4503599627370496 (-98) /\
  py_mod (negf 4503599627370496 (-98)) f360 = Ok (f360 : float) /\
  py_div (f360 : float) ZONE_WIDTH_DEG = Ok (f_of_int 10) /\
  steps_east_of lon_below_m86 boundary_m50 = Ok 10.
Proof. repeat split; vm_compute; reflexivity. Qed.

(** C1: for the same input the interval returned is zone 9, [[-86, -50)],
    which does not contain the point; the entry of [build_zone_intervals]
    that contains it is zone 0, [[-122, -86)].  With the default boundary
    the ten arcs do not tile the doubles either: the origin of zone 9 is in
    the arcs of zone 9 and of zone 0, and the east edge of zone 3 is in no
    arc at all. *)
Theorem wrong_interval_below_origin :
  (normalize_lon_point lon_below_m86 = Ok lon_below_m86 /\
   lon_to_zone_interval lon_below_m86 boundary_m50 = Ok zone9_m50 /\
   arc_contains zone9_m50 lon_below_m86 = false /\
   (exists zs, build_zone_intervals boundary_m50 = Ok zs /\
               In zone9_m50 zs /\ In zone0_m50 zs) /\
   arc_contains zone0_m50 lon_below_m86 = true) /\
  (build_zone_intervals LANGFANG_LON_EAST_BOUNDARY = Ok default_zones /\
   normalize_lon_point (west zone9_default) = Ok (west zone9_default) /\
   arc_contains zone9_default (west zone9_default) = true /\
   arc_contains zone0_default (west zone9_default) = true /\
   In zone9_default default_zones /\ In zone0_default default_zones /\
   normalize_lon_point east3_default = Ok east3_default /\
   existsb (fun zi => arc_contains zi east3_default) default_zones = false).
Proof.
  repeat split; try (vm_compute; reflexivity); try (vm_compute; tauto).
  eexists. split; [vm_compute; reflexivity|].
  split; vm_compute; tauto.
Qed.

End Runs.

(** * Structure of the results, for every arithmetic *)

Module Structure.
Import Generic.
Section Structure.

Context {F : Type} `{PyFloat F}.

(** ** Loops *)

Lemma map_result_ok {A B : Type} (f : A -> result B) (xs : list A) (ys : list B) :
  map_result f xs = Ok ys -> Forall2 (fun x y => f x = Ok y) xs ys.
Proof.
  revert ys. induction xs as [|x xs IH]; intros ys E.
  - cbn in E. injection E as <-. constructor.
  - cbn [map_result] in E.
    destruct (f x) as [y|e] eqn:Fx; [|discriminate E]. rewrite bind_ok in E.
    destruct (map_result f xs) as [ys'|e] eqn:M; [|discriminate E].
    rewrite bind_ok in E. injection E as <-.
    constructor; [exact Fx|apply IH; reflexivity].
Qed.

Lemma Forall2_In_r {A B : Type} (R : A -> B -> Prop) (xs : list A) (ys : list B) (y : B) :
  Forall2 R xs ys -> In y ys -> exists x, In x xs /\ R x y.
Proof.
  induction 1 as [|x y' xs ys Rxy _ IH]; intro I; [destruct I|].
  destruct I as [->|I].
  - exists x. split; [left; reflexivity|exact Rxy].
  - destruct (IH I) as [x' [I' R']]. exists x'. split; [right; exact I'|exact R'].
Qed.

Lemma Forall2_In_l {A B : Type} (R : A -> B -> Prop) (xs : list A) (ys : list B) (x : A) :
  Forall2 R xs ys -> In x xs -> exists y, In y ys /\ R x y.
Proof.
  induction 1 as [|x' y xs ys Rxy _ IH]; intro I; [destruct I|].
  destruct I as [->|I].
  - exists y. split; [left; reflexivity|exact Rxy].
  - destruct (IH I) as [y' [I' R']]. exists y'. split; [right; exact I'|exact R'].
Qed.

(** ** [sorted] *)

Lemma In_insert_sorted (x y : F) (l : list F) :
  In y (insert_sorted x l) <-> y = x \/ In y l.
Proof.
  induction l as [|a l IH]; cbn [insert_sorted].
  - cbn. intuition congruence.
  - destruct (f_ltb x a); cbn [In]; [intuition congruence|].
    rewrite IH. intuition congruence.
Qed.

Lemma length_insert_sorted (x : F) (l : list F) :
  length (insert_sorted x l) = S (length l).
Proof.
  induction l as [|a l IH]; cbn [insert_sorted]; [reflexivity|].
  destruct (f_ltb x a); cbn [length]; [reflexivity|]. rewrite IH. reflexivity.
Qed.

Lemma sorted_acc (l acc : list F) :
  (forall y, In y (fold_left (fun acc x => insert_sorted x acc) l acc)
             <-> In y l \/ In y acc) /\
  length (fold_left (fun acc x => insert_sorted x acc) l acc)
  = (length l + length acc)%nat.
Proof.
  revert acc. induction l as [|x l IH]; intro acc; cbn [fold_left].
  - split; [intro y; cbn; intuition|reflexivity].
  - destruct (IH (insert_sorted x acc)) as [I L]. split.
    + intro y. rewrite I, In_insert_sorted. cbn [In]. intuition congruence.
    + rewrite L, length_insert_sorted. cbn [length]. lia.
Qed.

Lemma In_sorted (l : list F) (y : F) : In y (sorted l) <-> In y l.
Proof.
  unfold sorted. destruct (sorted_acc l []) as [I _]. rewrite I. cbn. intuition.
Qed.

Lemma length_sorted (l : list F) : length (sorted l) = length l.
Proof.
  unfold sorted. destruct (sorted_acc l []) as [_ L]. rewrite L. cbn. lia.
Qed.

(** ** The scan for the largest gap *)

Lemma gap_scan_index (pts : list F) (ixs : list nat) (st : F * nat) (n : nat) (r : F * nat) :
  (snd st < n)%nat -> Forall (fun i => (i < n)%nat) ixs ->
  fold_left (gap_step pts) ixs (Ok st) = Ok r -> (snd r < n)%nat.
Proof.
  revert st. induction ixs as [|i ixs IH]; intros st Hs Hi E.
  - cbn in E. injection E as <-. exact Hs.
  - cbn [fold_left] in E. inversion Hi as [|? ? Hi1 Hi2]; subst.
    destruct (gap_step pts (Ok st) i) as [st'|e] eqn:G.
    + apply (IH st'); [|exact Hi2|exact E].
      unfold gap_step in G. rewrite bind_ok in G. destruct st as [mg mi].
      destruct (py_mod _ _) as [gap|e]; [|discriminate G]. rewrite bind_ok in G.
      destruct (f_ltb mg gap); injection G as <-; [exact Hi1|exact Hs].
    + exfalso. clear -E. induction ixs as [|j ixs IH]; [discriminate E|].
      cbn [fold_left] in E. apply IH. exact E.
Qed.

Lemma max_gap_scan_index (pts : list F) (r : F * nat) :
  pts <> [] -> max_gap_scan pts = Ok r -> (snd r < length pts)%nat.
Proof.
  intros Ne E. unfold max_gap_scan in E.
  apply (@gap_scan_index pts (seq 0 (length pts)) (fm1, 0%nat)); [| |exact E].
  - destruct pts; [contradiction|cbn; lia].
  - apply Forall_forall. intros i I. apply in_seq in I. lia.
Qed.

(** ** [circular_min_cover_interval] *)

(** The list the function sorts *)
Lemma min_cover_unfold (lons : list F) :
  lons <> [] ->
  circular_min_cover_interval lons =
  bind (map_result lon_to_360 lons) (fun l360 =>
    let pts := sorted l360 in
    match pts with
    | [p] => Ok (Some (lon360_to_edge p, lon360_to_edge p))
    | _ =>
        bind (max_gap_scan pts) (fun s =>
          Ok (Some (lon360_to_edge (nth (Nat.modulo (S (snd s)) (length pts)) pts f0),
                    lon360_to_edge (nth (snd s) pts f0))))
    end).
Proof.
  intro Ne. destruct lons as [|l lons]; [contradiction|]. reflexivity.
Qed.

(** Both ends of the interval returned are input points, taken to
    [[0, 360)] and then to the edge form. *)
Lemma min_cover_ends (lons : list F) (w e : F) :
  circular_min_cover_interval lons = Ok (Some (w, e)) ->
  exists a b pa pb : F,
    In a lons /\ In b lons /\
    lon_to_360 a = Ok pa /\ lon_to_360 b = Ok pb /\
    w = lon360_to_edge pa /\ e = lon360_to_edge pb.
Proof.
  intro E. destruct lons as [|l0 lons0] eqn:EL; [discriminate E|].
  rewrite <- EL in *. assert (Ne : lons <> []) by (rewrite EL; discriminate).
  rewrite (min_cover_unfold Ne) in E.
  destruct (map_result lon_to_360 lons) as [l360|x] eqn:M; [|discriminate E].
  rewrite bind_ok in E. cbv zeta in E.
  pose proof (map_result_ok _ _ M) as FA.
  assert (Len : length (sorted l360) = length lons).
  { rewrite length_sorted. symmetry. clear -FA. induction FA; cbn; congruence. }
  assert (From : forall p, In p (sorted l360) ->
                           exists a, In a lons /\ lon_to_360 a = Ok p).
  { intros p I. apply (proj1 (@In_sorted _ _)) in I. destruct (@Forall2_In_r _ _ (fun x y : F => lon_to_360 x = Ok y) _ _ _ FA I)
      as [a [Ia Ea]]. exists a. split; assumption. }
  assert (Nn : sorted l360 <> []).
  { intro Z. rewrite Z in Len. rewrite EL in Len. discriminate Len. }
  assert (Ends : forall i j,
             (i < length (sorted l360))%nat -> (j < length (sorted l360))%nat ->
             Ok (Some (lon360_to_edge (nth i (sorted l360) f0),
                       lon360_to_edge (nth j (sorted l360) f0)))
             = Ok (Some (w, e)) ->
             exists a b pa pb : F,
               In a lons /\ In b lons /\
               lon_to_360 a = Ok pa /\ lon_to_360 b = Ok pb /\
               w = lon360_to_edge pa /\ e = lon360_to_edge pb).
  { intros i j Hi Hj Eq. injection Eq as <- <-.
    destruct (From _ (nth_In _ f0 Hi)) as [a [Ia Ea]].
    destruct (From _ (nth_In _ f0 Hj)) as [b [Ib Eb]].
    exists a, b, (nth i (sorted l360) f0), (nth j (sorted l360) f0).
    repeat split; assumption. }
  destruct (sorted l360) as [|p [|p' rest]] eqn:Es; [contradiction| |].
  - injection E as <- <-.
    destruct (From p (or_introl eq_refl)) as [a [Ia Ea]].
    exists a, a, p, p. repeat split; assumption.
  - destruct (max_gap_scan (p :: p' :: rest)) as [s|x] eqn:G; [|discriminate E].
    rewrite bind_ok in E.
    pose proof (max_gap_scan_index Nn G) as Hi.
    apply (Ends (Nat.modulo (S (snd s)) (length (p :: p' :: rest))) (snd s)).
    + apply Nat.mod_upper_bound. discriminate.
    + exact Hi.
    + exact E.
Qed.

(** The function returns [None] for the empty list only. *)
Lemma min_cover_none (lons : list F) :
  circular_min_cover_interval lons = Ok None <-> lons = [].
Proof.
  split; [|intros ->; reflexivity].
  intro E. destruct lons as [|l0 lons0] eqn:EL; [reflexivity|exfalso].
  rewrite <- EL in *. assert (Ne : lons <> []) by (rewrite EL; discriminate).
  rewrite (min_cover_unfold Ne) in E.
  destruct (map_result lon_to_360 lons) as [l360|x]; [|discriminate E].
  rewrite bind_ok in E. cbv zeta in E.
  destruct (sorted l360) as [|p [|p' rest]].
  - destruct (max_gap_scan []) as [s|x]; discriminate E.
  - discriminate E.
  - destruct (max_gap_scan (p :: p' :: rest)) as [s|x]; discriminate E.
Qed.

(** ** [build_zone_intervals] *)

Lemma zone_at_zone (o : F) (k : Z) (zi : (@ZoneInterval F)) :
  zone_at o k = Ok zi -> zone zi = ((9 - k) mod 10)%Z.
Proof.
  unfold zone_at. intro E.
  destruct (normalize_lon_point _) as [w|x]; [|discriminate E].
  rewrite bind_ok in E.
  destruct (normalize_lon_point _) as [e|x]; [|discriminate E].
  rewrite bind_ok in E. injection E as <-. reflexivity.
Qed.

Lemma build_zone_numbers (b : F) (zs : list (@ZoneInterval F)) :
  build_zone_intervals b = Ok zs ->
  map zone zs = [9; 8; 7; 6; 5; 4; 3; 2; 1; 0]%Z.
Proof.
  unfold build_zone_intervals. intro E.
  destruct (zone_origin b) as [o|x]; [|discriminate E]. rewrite bind_ok in E.
  apply map_result_ok in E. unfold range10 in E.
  repeat match goal with
         | H : Forall2 _ (_ :: _) _ |- _ => inversion H; clear H; subst
         | H : Forall2 _ [] _ |- _ => inversion H; clear H; subst
         | H : zone_at _ _ = Ok _ |- _ => apply zone_at_zone in H
         end.
  cbn [map]. repeat match goal with H : zone _ = _ |- _ => rewrite H; clear H end.
  reflexivity.
Qed.

(** ** [zones_covered_by_lon_range] *)

Lemma In_insert_by_zone (z y : (@ZoneInterval F)) (l : list (@ZoneInterval F)) :
  In y (insert_by_zone z l) <-> y = z \/ In y l.
Proof.
  induction l as [|a l IH]; cbn [insert_by_zone].
  - cbn. intuition congruence.
  - destruct (zone z <? zone a)%Z; cbn [In]; [intuition congruence|].
    rewrite IH. intuition congruence.
Qed.

Lemma sorted_insert_by_zone (z : (@ZoneInterval F)) (l : list (@ZoneInterval F)) :
  StronglySorted (fun a b => (zone a < zone b)%Z) l ->
  (forall y, In y l -> zone y <> zone z) ->
  StronglySorted (fun a b => (zone a < zone b)%Z) (insert_by_zone z l).
Proof.
  induction 1 as [|a l Sl IH Ha]; intro D; cbn [insert_by_zone].
  - constructor; constructor.
  - destruct (zone z <? zone a)%Z eqn:L.
    + apply Z.ltb_lt in L. constructor; [constructor; assumption|].
      constructor; [exact L|].
      rewrite Forall_forall in Ha |- *. intros y I. specialize (Ha y I). lia.
    + apply Z.ltb_ge in L.
      assert (zone a <> zone z) by (apply D; left; reflexivity).
      constructor.
      * apply IH. intros y I. apply D. right. exact I.
      * rewrite Forall_forall in Ha |- *. intros y I.
        apply In_insert_by_zone in I. destruct I as [->|I]; [lia|apply Ha, I].
Qed.

Lemma insert_by_zone_perm (z : (@ZoneInterval F)) (l : list (@ZoneInterval F)) :
  Permutation (insert_by_zone z l) (z :: l).
Proof.
  induction l as [|a l IH]; cbn [insert_by_zone]; [reflexivity|].
  destruct (zone z <? zone a)%Z; [reflexivity|].
  rewrite IH. apply perm_swap.
Qed.

(** [sort_by_zone] on a list whose zone numbers are pairwise distinct *)
Lemma sort_by_zone_acc (l acc : list (@ZoneInterval F)) :
  NoDup (map zone (l ++ acc)) ->
  StronglySorted (fun a b => (zone a < zone b)%Z) acc ->
  StronglySorted (fun a b => (zone a < zone b)%Z)
    (fold_left (fun acc z => insert_by_zone z acc) l acc) /\
  Permutation (fold_left (fun acc z => insert_by_zone z acc) l acc) (l ++ acc).
Proof.
  revert acc. induction l as [|z l IH]; intros acc D S; cbn [fold_left].
  - split; [exact S|reflexivity].
  - assert (P : Permutation (l ++ insert_by_zone z acc) ((z :: l) ++ acc)).
    { rewrite insert_by_zone_perm. symmetry. apply Permutation_middle. }
    destruct (IH (insert_by_zone z acc)) as [S' P'].
    + apply (Permutation_NoDup (l := map zone ((z :: l) ++ acc))); [|exact D].
      apply Permutation_map. symmetry. exact P.
    + apply sorted_insert_by_zone; [exact S|].
      intros y I Q. cbn [app map] in D. apply NoDup_cons_iff in D.
      destruct D as [Nz _]. apply Nz. rewrite <- Q.
      apply in_map, in_or_app. right. exact I.
    + split; [exact S'|]. rewrite P'. exact P.
Qed.

Lemma sort_by_zone_sorted (l : list (@ZoneInterval F)) :
  NoDup (map zone l) ->
  StronglySorted (fun a b => (zone a < zone b)%Z) (sort_by_zone l) /\
  Permutation (sort_by_zone l) l.
Proof.
  intro D. unfold sort_by_zone.
  destruct (@sort_by_zone_acc l []) as [S P].
  - rewrite app_nil_r. exact D.
  - constructor.
  - rewrite app_nil_r in P. split; assumption.
Qed.

(** The zones collected are a sublist of the zones built. *)
Lemma collect_covered_sublist (parts : list (F * F)) (zs covered : list (@ZoneInterval F)) :
  collect_covered parts zs = Ok covered ->
  (forall zi, In zi covered -> In zi zs) /\
  (NoDup (map zone zs) -> NoDup (map zone covered)).
Proof.
  revert covered. induction zs as [|zi zs IH]; intros covered E.
  - cbn in E. injection E as <-. split; [intros ? []|intros _; constructor].
  - cbn [collect_covered] in E.
    destruct (zone_hit parts zi) as [hit|x]; [|discriminate E]. rewrite bind_ok in E.
    destruct (collect_covered parts zs) as [c|x]; [|discriminate E].
    rewrite bind_ok in E. injection E as <-.
    destruct (IH c eq_refl) as [I D]. split.
    + intros y Iy. destruct hit; [destruct Iy as [->|Iy]|];
        [left; reflexivity|right; apply I, Iy|right; apply I, Iy].
    + intro N. cbn [map] in N. apply NoDup_cons_iff in N. destruct N as [Nz N].
      destruct hit; [|apply D, N]. cbn [map]. constructor; [|apply D, N].
      intro Q. apply Nz. apply in_map_iff in Q. destruct Q as [y [Ey Iy]].
      rewrite <- Ey. apply in_map, I, Iy.
Qed.

(** What [zones_covered_by_lon_range] returns is in strictly ascending order
    of zone number, and each entry is one of the ten intervals of
    [build_zone_intervals]. *)
Lemma zones_covered_sorted (w e b : F) (l : list (@ZoneInterval F)) :
  zones_covered_by_lon_range w e b = Ok l ->
  StronglySorted (fun a b => (zone a < zone b)%Z) l /\
  exists zs, build_zone_intervals b = Ok zs /\ forall zi, In zi l -> In zi zs.
Proof.
  unfold zones_covered_by_lon_range. intro E.
  destruct (split_range w e) as [parts|x]; [|discriminate E]. rewrite bind_ok in E.
  destruct (build_zone_intervals b) as [zs|x] eqn:B; [|discriminate E].
  rewrite bind_ok in E.
  destruct (collect_covered parts zs) as [c|x] eqn:C; [|discriminate E].
  rewrite bind_ok in E. injection E as <-.
  destruct (collect_covered_sublist _ _ C) as [I D].
  assert (N : NoDup (map zone zs)).
  { rewrite (build_zone_numbers _ B).
    repeat (constructor; [cbn; intuition discriminate|]). constructor. }
  destruct (@sort_by_zone_sorted c (D N)) as [S P].
  split; [exact S|]. exists zs. split; [reflexivity|].
  intros zi Iz. apply I. apply (Permutation_in _ P Iz).
Qed.

Lemma In_sort_by_zone (l : list (@ZoneInterval F)) (y : @ZoneInterval F) :
  In y (sort_by_zone l) <-> In y l.
Proof.
  unfold sort_by_zone.
  assert (G : forall acc,
             In y (fold_left (fun acc z => insert_by_zone z acc) l acc)
             <-> In y l \/ In y acc).
  { induction l as [|z l IH]; intro acc; cbn [fold_left].
    - cbn. intuition.
    - rewrite IH, In_insert_by_zone. cbn [In]. intuition congruence. }
  rewrite G. cbn. intuition.
Qed.

(** The list of [build_zone_intervals] is in descending order of zone
    number, so sorting it reverses it. *)
Lemma sort_by_zone_rev (l : list (@ZoneInterval F)) :
  map zone l = [9; 8; 7; 6; 5; 4; 3; 2; 1; 0]%Z -> sort_by_zone l = rev l.
Proof.
  intro E.
  do 10 (destruct l as [|[? ? ?] l]; [discriminate E|]).
  destruct l; [|discriminate E].
  cbn [map zone] in E.
  injection E as -> -> -> -> -> -> -> -> -> ->.
  reflexivity.
Qed.

End Structure.
End Structure.

(** * The engine on doubles: ranges, compositions and exceptions *)

Module Binary64Engine.
Import Binary64 Binary64Theory Binary64Defs Generic Structure.
Local Open Scope Z_scope.

(** ** Order *)

Lemma mantissa_bounds (s : bool) (m : positive) (e : Z) :
  valid_binary prec emax (S754_finite s m e) = true ->
  Zpos m < 2 ^ 53 /\ (-1074 < e -> 2 ^ 52 <= Zpos m) /\ -1074 <= e <= 971.
Proof.
  intro Hv. destruct (valid_finite_inv _ _ _ Hv) as [He [Hd Hn]].
  pose proof (@digits_bounds (Zpos m) ltac:(lia)) as B.
  split; [|split; [|exact He]].
  - apply Z.lt_le_trans with (2 ^ digits (Zpos m)); [apply B|].
    apply Z.pow_le_mono_r; lia.
  - intro G. rewrite (Hn G) in B. apply B.
Qed.

Lemma scaled_lt (m1 m2 : positive) (e1 e2 : Z) :
  Zpos m1 < 2 ^ 53 -> 2 ^ 52 <= Zpos m2 -> -1074 <= e1 < e2 ->
  Zpos m1 * 2 ^ (e1 + 1074) < Zpos m2 * 2 ^ (e2 + 1074).
Proof.
  intros H1 H2 He.
  replace (e2 + 1074) with ((e1 + 1074) + (e2 - e1)) by lia.
  rewrite (Z.pow_add_r 2 (e1 + 1074) (e2 - e1)) by lia.
  assert (P : 0 < 2 ^ (e1 + 1074)) by (apply Z.pow_pos_nonneg; lia).
  assert (Q : 2 ^ 1 <= 2 ^ (e2 - e1)) by (apply Z.pow_le_mono_r; lia).
  change (2 ^ 1) with 2 in Q. change (2 ^ 53) with (2 * 2 ^ 52) in H1.
  set (p := 2 ^ (e1 + 1074)) in *. set (q := 2 ^ (e2 - e1)) in *.
  assert (A : Zpos m1 * p < 2 * Zpos m2 * p)
    by (apply Z.mul_lt_mono_pos_r; lia).
  assert (B : 2 * (Zpos m2 * p) <= q * (Zpos m2 * p))
    by (apply Z.mul_le_mono_nonneg_r; lia).
  lia.
Qed.

Lemma compare_mag (m1 m2 : positive) (e1 e2 : Z) :
  valid_binary prec emax (S754_finite false m1 e1) = true ->
  valid_binary prec emax (S754_finite false m2 e2) = true ->
  match Z.compare e1 e2 with
  | Lt => Lt
  | Gt => Gt
  | Eq => Pos.compare_cont Eq m1 m2
  end = (Zpos m1 * 2 ^ (e1 + 1074) ?= Zpos m2 * 2 ^ (e2 + 1074)).
Proof.
  intros V1 V2.
  destruct (mantissa_bounds _ _ _ V1) as [A1 [B1 C1]].
  destruct (mantissa_bounds _ _ _ V2) as [A2 [B2 C2]].
  destruct (Z.compare_spec e1 e2) as [E|L|G].
  - subst e2. symmetry.
    assert (P : 0 < 2 ^ (e1 + 1074)) by (apply Z.pow_pos_nonneg; lia).
    change (Pos.compare_cont Eq m1 m2) with (Pos.compare m1 m2).
    rewrite Pos2Z.inj_compare.
    destruct (Z.compare_spec (Zpos m1) (Zpos m2)) as [E|L|G].
    + rewrite E. apply Z.compare_refl.
    + apply Z.compare_lt_iff. nia.
    + apply Z.compare_gt_iff. nia.
  - symmetry. apply Z.compare_lt_iff. apply scaled_lt; [exact A1|apply B2; lia|lia].
  - symmetry. apply Z.compare_gt_iff. apply scaled_lt; [exact A2|apply B1; lia|lia].
Qed.

(** On finite doubles the comparison of Python is the comparison of the
    values. *)
Lemma compare_V (x y : float) :
  Fin x -> Fin y -> SFcompare x y = Some (V x ?= V y).
Proof.
  intros [Vx Fx] [Vy Fy].
  destruct x as [sx|sx| |sx mx ex]; try discriminate Fx;
  destruct y as [sy|sy| |sy my ey]; try discriminate Fy.
  - reflexivity.
  - cbn [SFcompare V].
    destruct (mantissa_bounds _ _ _ Vy) as [_ [_ By]].
    assert (P : 0 < Zpos my * 2 ^ (ey + 1074)).
    { apply Z.mul_pos_pos; [lia|apply Z.pow_pos_nonneg; lia]. }
    destruct sy; cbn [cond_Zopp]; f_equal; symmetry.
    + apply Z.compare_gt_iff. lia.
    + apply Z.compare_lt_iff. lia.
  - cbn [SFcompare V].
    destruct (mantissa_bounds _ _ _ Vx) as [_ [_ Bx]].
    assert (P : 0 < Zpos mx * 2 ^ (ex + 1074)).
    { apply Z.mul_pos_pos; [lia|apply Z.pow_pos_nonneg; lia]. }
    destruct sx; cbn [cond_Zopp]; f_equal; symmetry.
    + apply Z.compare_lt_iff. lia.
    + apply Z.compare_gt_iff. lia.
  - cbn [SFcompare V].
    destruct (mantissa_bounds _ _ _ Vx) as [_ [_ Bx]].
    destruct (mantissa_bounds _ _ _ Vy) as [_ [_ By]].
    assert (Px : 0 < Zpos mx * 2 ^ (ex + 1074)).
    { apply Z.mul_pos_pos; [lia|apply Z.pow_pos_nonneg; lia]. }
    assert (Py : 0 < Zpos my * 2 ^ (ey + 1074)).
    { apply Z.mul_pos_pos; [lia|apply Z.pow_pos_nonneg; lia]. }
    pose proof (@compare_mag mx my ex ey Vx Vy) as C.
    destruct sx, sy; cbn [cond_Zopp]; f_equal.
    + (* both negative *)
      rewrite Z.compare_opp.
      rewrite (Z.compare_antisym (Zpos mx * 2 ^ (ex + 1074))).
      rewrite <- C. destruct (Z.compare ex ey); reflexivity.
    + symmetry. apply Z.compare_lt_iff. lia.
    + symmetry. apply Z.compare_gt_iff. lia.
    + exact C.
Qed.

Lemma ltb_V (x y : float) : Fin x -> Fin y -> ltb x y = (V x <? V y).
Proof.
  intros Hx Hy. unfold ltb, SFltb. rewrite (compare_V Hx Hy).
  unfold Z.ltb. destruct (V x ?= V y); reflexivity.
Qed.

Lemma leb_V (x y : float) : Fin x -> Fin y -> leb x y = (V x <=? V y).
Proof.
  intros Hx Hy. unfold leb, SFleb. rewrite (compare_V Hx Hy).
  unfold Z.leb. destruct (V x ?= V y); reflexivity.
Qed.

Lemma eqb_V (x y : float) : Fin x -> Fin y -> eqb x y = (V x =? V y).
Proof.
  intros Hx Hy. unfold eqb, SFeqb. rewrite (compare_V Hx Hy).
  destruct (Z.compare_spec (V x) (V y)) as [E|L|G]; symmetry.
  - apply Z.eqb_eq, E.
  - apply Z.eqb_neq. lia.
  - apply Z.eqb_neq. lia.
Qed.

(** ** The normalizers on doubles: ranges and compositions *)

Lemma V_fm180 : V fm180 = - c180.
Proof. reflexivity. Qed.

Lemma V_f0 : V f0 = 0.
Proof. reflexivity. Qed.

Lemma Fin_fm180 : Fin fm180.
Proof. split; reflexivity. Qed.

Lemma Fin_f0 : Fin f0.
Proof. split; reflexivity. Qed.

Lemma y0_props (x : float) :
  Fin x ->
  Fin (y0 x) /\ y0 x <> nzero /\ - c180 <= V (y0 x) <= c180 /\
  (0 < V (y0 x) + c180 -> nearest (V (y0 x) + c180) = V (y0 x) + c180).
Proof.
  intro Fx. destruct (y0_rnd Fx) as [r [Fr [Nr [Br Ey]]]].
  destruct (y0_image Fr Nr Br) as [Fy [By Ex]]. rewrite <- Ey in *.
  split; [exact Fy|]. split; [rewrite Ey; apply rnd_neq_nzero|].
  split; assumption.
Qed.

Lemma edge_value (x : float) :
  normalize_lon_edge x =
  Ok (if eqb (y0 x) fm180 && ltb f0 x then f180 else y0 x).
Proof.
  unfold normalize_lon_edge. rewrite py_mod_360_b64. cbn [bind].
  change (f_sub (rem (f_add x f180) f360) f180) with (y0 x).
  change (f_eqb (y0 x) fm180) with (eqb (y0 x) fm180).
  change (f_ltb f0 x) with (ltb f0 x).
  destruct (eqb (y0 x) fm180 && ltb f0 x); reflexivity.
Qed.

(** What [normalize_lon_edge] returns for a finite double: a finite double
    of [[-180, 180]] that the normalizer leaves unchanged. *)
Lemma edge_props (x : float) :
  Fin x ->
  exists y : float,
    normalize_lon_edge x = Ok y /\ Fin y /\ y <> nzero /\
    - c180 <= V y <= c180 /\ normalize_lon_edge y = Ok y /\
    (y = f180 \/ y = y0 x).
Proof.
  intro Fx. destruct (y0_props Fx) as [Fy [Ny [By Ex]]].
  rewrite edge_value.
  assert (E180 : normalize_lon_edge (f180 : float) = Ok f180)
    by (vm_compute; reflexivity).
  destruct (eqb (y0 x) fm180 && ltb f0 x) eqn:T.
  - exists f180. split; [reflexivity|]. split; [apply Fin_f180|].
    split; [discriminate|]. rewrite V_f180.
    split; [unfold c180; pose proof deg_pos; lia|]. split; [exact E180|].
    left; reflexivity.
  - exists (y0 x). split; [reflexivity|]. split; [exact Fy|].
    split; [exact Ny|]. split; [exact By|]. split; [|right; reflexivity].
    destruct (Z.eq_dec (V (y0 x)) c180) as [E|E].
    + rewrite (value_180 Fy Ny E). exact E180.
    + rewrite edge_value.
      rewrite (y0_fixed Fy Ny) by (try assumption; lia).
      destruct (eqb (y0 x) fm180) eqn:Q; [|reflexivity].
      rewrite fm180_rep in Q. apply eqb_finite_eq in Q. rewrite Q.
      reflexivity.
Qed.

Lemma is_finite_Fin (y : float) : Fin y -> is_finite y = true.
Proof. intros [_ H]. exact H. Qed.

(** X1: [normalize_lon_point] on doubles.  For every finite double the call
    returns, and its result is a finite double [y] with
    [-180.0 <= y < 180.0]. *)
Theorem normalize_lon_point_in_range_b64 (x : float) :
  valid_binary prec emax x = true -> is_finite x = true ->
  exists y : float,
    normalize_lon_point x = Ok y /\ is_finite y = true /\
    f_leb fm180 y = true /\ f_ltb y f180 = true.
Proof.
  intros Hv Hf.
  destruct (@normalize_lon_point_range x (conj Hv Hf)) as [y [E [Fy [Ny [By Ex]]]]].
  exists y. split; [exact E|]. split; [apply Fy|].
  change (leb fm180 y = true /\ ltb y f180 = true).
  rewrite (leb_V Fin_fm180 Fy), (ltb_V Fy Fin_f180), V_fm180, V_f180.
  split; [apply Z.leb_le|apply Z.ltb_lt]; lia.
Qed.

Lemma normalize_lon_point_in_range_b64_witness :
  exists y : float,
    normalize_lon_point (f_dec 5400 1 : float) = Ok y /\ is_finite y = true /\
    f_leb fm180 y = true /\ f_ltb y f180 = true.
Proof.
  apply (@normalize_lon_point_in_range_b64 (f_dec 5400 1));
    vm_compute; reflexivity.
Defined.

(** X2: [normalize_lon_edge] on doubles.  For every finite double the call
    returns, and its result is a finite double [y] with
    [-180.0 <= y <= 180.0]. *)
Theorem normalize_lon_edge_in_range_b64 (x : float) :
  valid_binary prec emax x = true -> is_finite x = true ->
  exists y : float,
    normalize_lon_edge x = Ok y /\ is_finite y = true /\
    f_leb fm180 y = true /\ f_leb y f180 = true.
Proof.
  intros Hv Hf.
  destruct (@edge_props x (conj Hv Hf)) as [y [E [Fy [Ny [By _]]]]].
  exists y. split; [exact E|]. split; [apply Fy|].
  change (leb fm180 y = true /\ leb y f180 = true).
  rewrite (leb_V Fin_fm180 Fy), (leb_V Fy Fin_f180), V_fm180, V_f180.
  split; apply Z.leb_le; lia.
Qed.

Lemma normalize_lon_edge_in_range_b64_witness :
  exists y : float,
    normalize_lon_edge (f_dec 5400 1 : float) = Ok y /\ is_finite y = true /\
    f_leb fm180 y = true /\ f_leb y f180 = true.
Proof.
  apply (@normalize_lon_edge_in_range_b64 (f_dec 5400 1));
    vm_compute; reflexivity.
Defined.

(** X3: [normalize_lon_edge] is idempotent on doubles: for every finite
    double, normalizing the result again returns the same double. *)
Theorem normalize_lon_edge_idempotent_b64 (x : float) :
  valid_binary prec emax x = true -> is_finite x = true ->
  exists y : float,
    normalize_lon_edge x = Ok y /\ normalize_lon_edge y = Ok y.
Proof.
  intros Hv Hf.
  destruct (@edge_props x (conj Hv Hf)) as [y [E [_ [_ [_ [I _]]]]]].
  exists y. split; assumption.
Qed.

Lemma normalize_lon_edge_idempotent_b64_witness :
  exists y : float,
    normalize_lon_edge (f_dec 5400 1 : float) = Ok y /\
    normalize_lon_edge y = Ok y.
Proof.
  apply (@normalize_lon_edge_idempotent_b64 (f_dec 5400 1));
    vm_compute; reflexivity.
Defined.

(** X4: the two normalizers compose on doubles.  For every finite double
    [x], the point form of the edge form of [x] is the point form of [x],
    and the edge form of the point form of [x] is that point form. *)
Theorem normalizers_compose_b64 (x : float) :
  valid_binary prec emax x = true -> is_finite x = true ->
  exists e p : float,
    normalize_lon_edge x = Ok e /\ normalize_lon_point x = Ok p /\
    normalize_lon_point e = Ok p /\ normalize_lon_edge p = Ok p.
Proof.
  intros Hv Hf. pose proof (conj Hv Hf : Fin x) as Fx.
  destruct (edge_props Fx) as [e [Ee [Fe [Ne [Be [Ie De]]]]]].
  destruct (normalize_lon_point_range Fx) as [p [Ep [Fp [Np [Bp Xp]]]]].
  exists e, p. split; [exact Ee|]. split; [exact Ep|].
  split.
  - (* the point form reads the edge form only *)
    unfold normalize_lon_point in Ep |- *. rewrite Ee in Ep. cbn [bind] in Ep.
    rewrite Ie. cbn [bind]. exact Ep.
  - rewrite edge_value.
    rewrite (y0_fixed Fp Np Bp Xp).
    destruct (eqb p fm180) eqn:Q; [|reflexivity].
    rewrite fm180_rep in Q. apply eqb_finite_eq in Q. rewrite Q.
    reflexivity.
Qed.

Lemma normalizers_compose_b64_witness :
  exists e p : float,
    normalize_lon_edge (f_dec 5400 1 : float) = Ok e /\
    normalize_lon_point (f_dec 5400 1 : float) = Ok p /\
    normalize_lon_point e = Ok p /\ normalize_lon_edge p = Ok p.
Proof.
  apply (@normalizers_compose_b64 (f_dec 5400 1)); vm_compute; reflexivity.
Defined.

(** ** [lon_to_360] and [lon360_to_edge] on doubles *)

Lemma Fin_pzero : Fin pzero.
Proof. split; reflexivity. Qed.

(** X6: [lon_to_360] on doubles.  For every finite double the call returns
    a finite double [r] with [0.0 <= r <= 360.0]; the upper end is reached:
    [lon_to_360(-1e-20)] is [360.0], because the sum [-1e-20 + 360.0] is
    rounded. *)
Theorem lon_to_360_range_b64 :
  (forall x : float,
     valid_binary prec emax x = true -> is_finite x = true ->
     exists r : float,
       lon_to_360 x = Ok r /\ is_finite r = true /\
       f_leb f0 r = true /\ f_leb r f360 = true) /\
  lon_to_360 tiny_west = Ok f360.
Proof.
  split; [|vm_compute; reflexivity].
  intros x Hv Hf. pose proof (conj Hv Hf : Fin x) as Fx.
  destruct (float_rem360_range Fx) as [Fr [Nr Br]].
  exists (rem x f360). split; [reflexivity|]. split; [apply Fr|].
  change (leb f0 (rem x f360) = true /\ leb (rem x f360) f360 = true).
  rewrite (leb_V Fin_f0 Fr), (leb_V Fr Fin_f360), V_f0, V_f360.
  split; apply Z.leb_le; lia.
Qed.

Lemma c180_pos : 0 < c180.
Proof. reflexivity. Qed.

Lemma c360_eq : c360 = 2 * c180.
Proof. unfold c360, c180. lia. Qed.

(** What [lon360_to_edge] returns for a double of [[0, 360]]. *)
Lemma lon360_to_edge_props (r : float) :
  Fin r -> 0 <= V r <= c360 ->
  Fin (lon360_to_edge r) /\ - c180 < V (lon360_to_edge r) <= c180 /\
  (V (lon360_to_edge r) = V r \/ V (lon360_to_edge r) = V r - c360).
Proof.
  intros Fr Br. pose proof c180_pos as P. pose proof c360_eq as E2.
  pose proof deg_pos as Pd. pose proof c360_small as Thr.
  unfold lon360_to_edge.
  change (f_ltb f180 r) with (ltb f180 r).
  rewrite (ltb_V Fin_f180 Fr), V_f180.
  destruct (c180 <? V r) eqn:L.
  - apply Z.ltb_lt in L.
    change (f_sub r f360) with (sub r f360).
    rewrite (sub_spec Fr Fin_f360) by (rewrite V_f360; lia).
    rewrite V_f360. set (Y := V r - c360).
    destruct (@rnd_Fin Y ltac:(unfold Y; lia)) as [Fy Vy].
    assert (Dr : 1082 <= digits (V r) <= 1083).
    { split; [apply digits_ge; [|lia]|apply digits_le].
      - replace (1082 - 1) with 1081 by lia. rewrite deg_128. unfold c180 in *. lia.
      - rewrite deg_512. unfold c360 in *. lia. }
    pose proof (@valid_grid r Fr ltac:(lia) ltac:(lia)) as Gr.
    assert (G : V r mod 2 ^ 1029 = 0)
      by (apply mod_pow2_le with (digits (V r) - 53); [lia|exact Gr]).
    assert (Exact : V (rnd Y) = Y).
    { rewrite Vy. destruct (Z.eq_dec Y 0) as [Z0|Z0]; [rewrite Z0; reflexivity|].
      assert (NY : Y < 0) by (unfold Y in *; lia).
      rewrite Z.sgn_neg, Z.abs_neq by lia.
      assert (En : nearest (- Y) = - Y).
      { apply nearest_divisible; [lia|].
        destruct (Z_le_gt_dec (digits (- Y)) 53) as [A|A]; [left; exact A|right].
        assert (Dy : digits (- Y) <= 1082).
        { apply digits_le. rewrite deg_256. unfold Y, c360, c180 in *. lia. }
        apply mod_pow2_le with 1029; [lia|].
        replace (- Y) with (c360 - V r) by (unfold Y; lia).
        apply mod_sub_0; [apply Z.pow_pos_nonneg; lia|apply c360_grid; lia|exact G]. }
      rewrite En. lia. }
    assert (Ne : eqb (rnd Y) fm180 = false).
    { rewrite (eqb_V Fy Fin_fm180), V_fm180, Exact. apply Z.eqb_neq.
      unfold Y. lia. }
    change (f_eqb (rnd Y) fm180) with (eqb (rnd Y) fm180). rewrite Ne.
    split; [exact Fy|]. rewrite Exact. unfold Y. split; [lia|right; reflexivity].
  - apply Z.ltb_ge in L.
    assert (Ne : eqb r fm180 = false).
    { rewrite (eqb_V Fr Fin_fm180), V_fm180. apply Z.eqb_neq. lia. }
    change (f_eqb r fm180) with (eqb r fm180). rewrite Ne.
    split; [exact Fr|]. split; [lia|left; reflexivity].
Qed.

(** X7: [lon360_to_edge] on doubles.  For every finite double [r] with
    [0.0 <= r <= 360.0] the result is a finite double [y] with
    [-180.0 < y <= 180.0]: on the range of [lon_to_360] the function never
    returns [-180.0]. *)
Theorem lon360_to_edge_range_b64 (r : float) :
  valid_binary prec emax r = true -> is_finite r = true ->
  f_leb f0 r = true -> f_leb r f360 = true ->
  is_finite (lon360_to_edge r) = true /\
  f_ltb fm180 (lon360_to_edge r) = true /\
  f_leb (lon360_to_edge r) f180 = true.
Proof.
  intros Hv Hf L0 L360. pose proof (conj Hv Hf : Fin r) as Fr.
  change (leb f0 r = true) in L0. change (leb r f360 = true) in L360.
  rewrite (leb_V Fin_f0 Fr), V_f0 in L0.
  rewrite (leb_V Fr Fin_f360), V_f360 in L360.
  apply Z.leb_le in L0, L360.
  destruct (@lon360_to_edge_props r Fr ltac:(lia)) as [Fy [By _]].
  split; [apply Fy|].
  change (ltb fm180 (lon360_to_edge r) = true /\ leb (lon360_to_edge r) f180 = true).
  rewrite (ltb_V Fin_fm180 Fy), (leb_V Fy Fin_f180), V_fm180, V_f180.
  split; [apply Z.ltb_lt|apply Z.leb_le]; lia.
Qed.

Lemma lon360_to_edge_range_b64_witness :
  is_finite (lon360_to_edge (f_dec 2700 1 : float)) = true /\
  f_ltb fm180 (lon360_to_edge (f_dec 2700 1 : float)) = true /\
  f_leb (lon360_to_edge (f_dec 2700 1 : float)) f180 = true.
Proof.
  apply (@lon360_to_edge_range_b64 (f_dec 2700 1)); vm_compute; reflexivity.
Defined.

(** ** Calls that return *)

Lemma edge_total (x : float) : exists y, normalize_lon_edge x = Ok y.
Proof. eexists. apply edge_value. Qed.

Lemma point_total (x : float) : exists y, normalize_lon_point x = Ok y.
Proof. eexists. apply point_value. Qed.

Lemma split_range_total (w e : float) : exists s, split_range w e = Ok s.
Proof.
  unfold split_range. rewrite !edge_value, !bind_ok.
  destruct (f_leb _ _); eexists; reflexivity.
Qed.

Lemma zone_origin_total (b : float) : exists o, zone_origin b = Ok o.
Proof.
  unfold zone_origin. rewrite point_value, bind_ok. apply point_total.
Qed.

Lemma zone_at_total (o : float) (k : Z) : exists zi, zone_at o k = Ok zi.
Proof.
  unfold zone_at. rewrite point_value, bind_ok, point_value, bind_ok.
  eexists. reflexivity.
Qed.

Lemma map_result_total {A B : Type} (f : A -> result B) (xs : list A) :
  (forall x, exists y, f x = Ok y) -> exists ys, map_result f xs = Ok ys.
Proof.
  intro T. induction xs as [|x xs [ys IH]]; [eexists; reflexivity|].
  destruct (T x) as [y Ey]. cbn [map_result]. rewrite Ey, bind_ok, IH, bind_ok.
  eexists. reflexivity.
Qed.

Lemma build_total (b : float) : exists zs, build_zone_intervals b = Ok zs.
Proof.
  unfold build_zone_intervals. destruct (zone_origin_total b) as [o ->].
  rewrite bind_ok. apply map_result_total. apply zone_at_total.
Qed.

Lemma collect_total (parts : list (float * float)) (zs : list ZoneInterval) :
  exists c, collect_covered parts zs = Ok c.
Proof.
  induction zs as [|zi zs [c IH]]; [eexists; reflexivity|].
  cbn [collect_covered]. unfold zone_hit.
  destruct (split_range_total (west zi) (east zi)) as [s ->].
  rewrite !bind_ok, IH, bind_ok. eexists. reflexivity.
Qed.

Lemma zones_covered_total (w e b : float) :
  exists r, zones_covered_by_lon_range w e b = Ok r.
Proof.
  unfold zones_covered_by_lon_range.
  destruct (split_range_total w e) as [s ->]. rewrite bind_ok.
  destruct (build_total b) as [zs ->]. rewrite bind_ok.
  destruct (collect_total s zs) as [c ->]. rewrite bind_ok.
  eexists. reflexivity.
Qed.

Lemma gap_scan_total (pts : list float) (ixs : list nat) (st : float * nat) :
  exists r, fold_left (gap_step pts) ixs (Ok st) = Ok r.
Proof.
  revert st. induction ixs as [|i ixs IH]; intro st; [eexists; reflexivity|].
  cbn [fold_left]. unfold gap_step at 2. rewrite bind_ok. destruct st as [mg mi].
  rewrite py_mod_360_b64, bind_ok.
  destruct (f_ltb mg _); apply IH.
Qed.

Lemma min_cover_total (lons : list float) :
  exists r, circular_min_cover_interval lons = Ok r.
Proof.
  destruct lons as [|l lons]; [eexists; reflexivity|].
  rewrite min_cover_unfold by discriminate.
  destruct (@map_result_total _ _ lon_to_360 (l :: lons)) as [l360 ->].
  { intro x. eexists. apply py_mod_360_b64. }
  rewrite bind_ok. cbv zeta.
  destruct (sorted l360) as [|p [|p' rest]].
  - destruct (gap_scan_total [] (seq 0 (length (@nil float))) (fm1, 0%nat)) as [r E].
    unfold max_gap_scan. rewrite E, bind_ok. eexists. reflexivity.
  - eexists. reflexivity.
  - destruct (gap_scan_total (p :: p' :: rest)
                (seq 0 (length (p :: p' :: rest))) (fm1, 0%nat)) as [r E].
    unfold max_gap_scan. rewrite E, bind_ok. eexists. reflexivity.
Qed.

(** ** [split_range] *)

(** X16: [split_range] on doubles.  For finite ends the result has one or two
    segments; the ends of every segment are finite doubles of
    [[-180, 180]], and every segment [(a, b)] has [a <= b]. *)
Theorem split_range_segments_b64 (west east : float) :
  valid_binary prec emax west = true -> is_finite west = true ->
  valid_binary prec emax east = true -> is_finite east = true ->
  exists segs : list (float * float),
    split_range west east = Ok segs /\
    (length segs = 1%nat \/ length segs = 2%nat) /\
    Forall (fun s =>
              is_finite (fst s) = true /\ is_finite (snd s) = true /\
              f_leb fm180 (fst s) = true /\ f_leb (fst s) (snd s) = true /\
              f_leb (snd s) f180 = true) segs.
Proof.
  intros Vw Fw Ve Fe.
  destruct (@edge_props west (conj Vw Fw)) as [w [Ew [Fiw [_ [Bw _]]]]].
  destruct (@edge_props east (conj Ve Fe)) as [e [Ee [Fie [_ [Be _]]]]].
  rewrite (split_range_shape _ _ Ew Ee).
  pose proof Fin_f180 as F180. pose proof Fin_fm180 as Fm180.
  assert (Seg : forall a b : float,
             Fin a -> Fin b -> - c180 <= V a -> V a <= V b -> V b <= c180 ->
             is_finite a = true /\ is_finite b = true /\
             f_leb fm180 a = true /\ f_leb a b = true /\ f_leb b f180 = true).
  { intros a b Fa Fb H1 H2 H3. split; [apply Fa|]. split; [apply Fb|].
    change (leb fm180 a = true /\ leb a b = true /\ leb b f180 = true).
    rewrite (leb_V Fm180 Fa), (leb_V Fa Fb), (leb_V Fb F180), V_fm180, V_f180.
    repeat split; apply Z.leb_le; lia. }
  change (f_leb w e) with (leb w e). rewrite (leb_V Fiw Fie).
  destruct (V w <=? V e) eqn:L.
  - apply Z.leb_le in L. eexists. split; [reflexivity|].
    split; [left; reflexivity|].
    constructor; [|constructor]. cbn [fst snd]. apply Seg; try assumption; lia.
  - apply Z.leb_gt in L. eexists. split; [reflexivity|].
    split; [right; reflexivity|].
    constructor; [|constructor; [|constructor]]; cbn [fst snd]; apply Seg;
      try assumption; rewrite ?V_f180, ?V_fm180; lia.
Qed.

Lemma split_range_segments_b64_witness :
  exists segs : list (float * float),
    split_range (f_dec 1700 1 : float) (f_dec (-1700) 1) = Ok segs /\
    (length segs = 1%nat \/ length segs = 2%nat) /\
    Forall (fun s =>
              is_finite (fst s) = true /\ is_finite (snd s) = true /\
              f_leb fm180 (fst s) = true /\ f_leb (fst s) (snd s) = true /\
              f_leb (snd s) f180 = true) segs.
Proof.
  apply (@split_range_segments_b64 (f_dec 1700 1) (f_dec (-1700) 1));
    vm_compute; reflexivity.
Defined.

(** ** [circular_min_cover_interval] *)

(** X9: [circular_min_cover_interval] on doubles.  For a list of finite
    doubles that is not empty the result is a pair [(w, e)] of finite
    doubles with [-180.0 < w <= 180.0] and [-180.0 < e <= 180.0], and each
    of the two is an input taken through [lon_to_360] and
    [lon360_to_edge]. *)
Theorem min_cover_ends_b64 (lons : list float) :
  lons <> [] ->
  Forall (fun x => valid_binary prec emax x = true /\ is_finite x = true) lons ->
  exists w e : float,
    circular_min_cover_interval lons = Ok (Some (w, e)) /\
    (is_finite w = true /\ f_ltb fm180 w = true /\ f_leb w f180 = true) /\
    (is_finite e = true /\ f_ltb fm180 e = true /\ f_leb e f180 = true) /\
    exists a b pa pb : float,
      In a lons /\ In b lons /\
      lon_to_360 a = Ok pa /\ lon_to_360 b = Ok pb /\
      w = lon360_to_edge pa /\ e = lon360_to_edge pb.
Proof.
  intros Ne Fl.
  destruct (min_cover_total lons) as [[[w e]|] E].
  - exists w, e. split; [exact E|].
    destruct (min_cover_ends _ E) as [a [b [pa [pb [Ia [Ib [Ea [Eb [Hw He]]]]]]]]].
    rewrite Forall_forall in Fl.
    assert (R : forall x p, In x lons -> lon_to_360 x = Ok p ->
                  is_finite (lon360_to_edge p) = true /\
                  f_ltb fm180 (lon360_to_edge p) = true /\
                  f_leb (lon360_to_edge p) f180 = true).
    { intros x p Ix Ep. pose proof (Fl x Ix) as Fx.
      unfold lon_to_360 in Ep. rewrite py_mod_360_b64 in Ep. injection Ep as <-.
      destruct (float_rem360_range Fx) as [Fr [_ Br]].
      destruct (lon360_to_edge_props Fr Br) as [Fy [By _]].
      split; [apply Fy|].
      change (ltb fm180 (lon360_to_edge (rem x f360)) = true /\
              leb (lon360_to_edge (rem x f360)) f180 = true).
      rewrite (ltb_V Fin_fm180 Fy), (leb_V Fy Fin_f180), V_fm180, V_f180.
      split; [apply Z.ltb_lt|apply Z.leb_le]; lia. }
    split; [rewrite Hw; apply (R a pa Ia Ea)|].
    split; [rewrite He; apply (R b pb Ib Eb)|].
    exists a, b, pa, pb. repeat split; assumption.
  - exfalso. apply Ne. apply min_cover_none. exact E.
Qed.

Lemma min_cover_ends_b64_witness :
  exists w e : float,
    circular_min_cover_interval [f_dec 100 1; f_dec 200 1; f_dec 3500 1 : float]
    = Ok (Some (w, e)) /\
    (is_finite w = true /\ f_ltb fm180 w = true /\ f_leb w f180 = true) /\
    (is_finite e = true /\ f_ltb fm180 e = true /\ f_leb e f180 = true) /\
    exists a b pa pb : float,
      In a [f_dec 100 1; f_dec 200 1; f_dec 3500 1 : float] /\
      In b [f_dec 100 1; f_dec 200 1; f_dec 3500 1 : float] /\
      lon_to_360 a = Ok pa /\ lon_to_360 b = Ok pb /\
      w = lon360_to_edge pa /\ e = lon360_to_edge pb.
Proof.
  apply (@min_cover_ends_b64 [f_dec 100 1; f_dec 200 1; f_dec 3500 1 : float]).
  - discriminate.
  - repeat constructor.
Defined.

(** ** Sums and differences that stay finite *)

Lemma Fin_zero (s : bool) : Fin (S754_zero s).
Proof. split; reflexivity. Qed.

Lemma V_zero_inv (y : float) : Fin y -> V y = 0 -> exists s, y = S754_zero s.
Proof.
  intros [Hv Hf] E. destruct y as [s| | |s m e]; try discriminate Hf.
  - exists s. reflexivity.
  - exfalso. destruct (valid_finite_inv _ _ _ Hv) as [He _].
    destruct (@V_abs s m e ltac:(lia)) as [Ab [P _]]. lia.
Qed.

Lemma Fin_add (x y : float) :
  Fin x -> Fin y -> Z.abs (V x + V y) < 2 ^ 2098 - 2 ^ 2044 -> Fin (add x y).
Proof.
  intros Fx Fy B. destruct (Z.eq_dec (V y) 0) as [Z0|N].
  - destruct (V_zero_inv Fy Z0) as [sy ->].
    destruct Fx as [Hv Hf]. destruct x as [sx| | |sx mx ex]; try discriminate Hf.
    + destruct sx, sy; split; reflexivity.
    + split; assumption.
  - rewrite (add_spec Fx Fy N). apply rnd_Fin. exact B.
Qed.

Lemma Fin_sub (x y : float) :
  Fin x -> Fin y -> Z.abs (V x - V y) < 2 ^ 2098 - 2 ^ 2044 -> Fin (sub x y).
Proof.
  intros Fx Fy B. destruct (Z.eq_dec (V y) 0) as [Z0|N].
  - destruct (V_zero_inv Fy Z0) as [sy ->].
    destruct Fx as [Hv Hf]. destruct x as [sx| | |sx mx ex]; try discriminate Hf.
    + destruct sx, sy; split; reflexivity.
    + split; assumption.
  - rewrite (sub_spec Fx Fy N). apply rnd_Fin. exact B.
Qed.

Lemma c180_lt_thr : 1000 * deg < 2 ^ 2098 - 2 ^ 2044.
Proof. vm_compute. reflexivity. Qed.

(** ** The zones on doubles *)

(** What [normalize_lon_point] returns for a finite double *)
Lemma point_props (x : float) :
  Fin x ->
  exists y : float,
    normalize_lon_point x = Ok y /\ Fin y /\ - c180 <= V y < c180.
Proof.
  intro Fx. destruct (normalize_lon_point_range Fx) as [y [E [Fy [_ [By _]]]]].
  exists y. split; [exact E|]. split; [exact Fy|lia].
Qed.

Lemma width_rep : (ZONE_WIDTH_DEG : float) = S754_finite false 5066549580791808 (-47).
Proof. reflexivity. Qed.

Lemma Fin_width : Fin ZONE_WIDTH_DEG.
Proof. split; reflexivity. Qed.

Lemma V_width : V ZONE_WIDTH_DEG = 36 * deg.
Proof. reflexivity. Qed.

Lemma origin_props (b : float) :
  Fin b ->
  exists o : float, zone_origin b = Ok o /\ Fin o /\ - c180 <= V o < c180.
Proof.
  intro Fb. unfold zone_origin.
  destruct (point_props Fb) as [eb [E [Fe Be]]]. rewrite E, bind_ok.
  apply point_props. apply Fin_sub; [exact Fe|apply Fin_width|].
  rewrite V_width. pose proof c180_lt_thr. pose proof deg_pos.
  unfold c180 in *. lia.
Qed.

(** The offsets [steps_east * 36.0] for the values [steps_east] can take *)
Lemma offset_props (k : Z) :
  0 <= k <= 16 ->
  Fin (f_mul (f_of_int k) ZONE_WIDTH_DEG) /\
  V (f_mul (f_of_int k) ZONE_WIDTH_DEG) = 36 * k * deg.
Proof.
  intro K.
  assert (C : k = 0 \/ k = 1 \/ k = 2 \/ k = 3 \/ k = 4 \/ k = 5 \/ k = 6 \/
              k = 7 \/ k = 8 \/ k = 9 \/ k = 10 \/ k = 11 \/ k = 12 \/
              k = 13 \/ k = 14 \/ k = 15 \/ k = 16) by lia.
  repeat (destruct C as [->|C]; [split; [split|]; vm_compute; reflexivity|]).
  subst k. split; [split|]; vm_compute; reflexivity.
Qed.

Lemma edge_ok_intro (y : float) : Fin y -> - c180 <= V y < c180 -> edge_ok_b64 y.
Proof.
  intros Fy By. split; [apply Fy|].
  change (leb fm180 y = true /\ ltb y f180 = true).
  rewrite (leb_V Fin_fm180 Fy), (ltb_V Fy Fin_f180), V_fm180, V_f180.
  split; [apply Z.leb_le|apply Z.ltb_lt]; lia.
Qed.

Lemma zone_at_props (o : float) (k : Z) :
  Fin o -> - c180 <= V o < c180 -> 0 <= k <= 16 ->
  exists zi : ZoneInterval,
    zone_at o k = Ok zi /\ zone zi = (9 - k) mod 10 /\
    edge_ok_b64 (west zi) /\ edge_ok_b64 (east zi).
Proof.
  intros Fo Bo K. unfold zone_at.
  destruct (offset_props K) as [Fc Vc].
  pose proof c180_lt_thr as Thr. pose proof deg_pos as Pd.
  assert (Fa : Fin (f_add o (f_mul (f_of_int k) ZONE_WIDTH_DEG))).
  { apply Fin_add; [exact Fo|exact Fc|]. rewrite Vc.
    assert (0 <= k * deg <= 16 * deg) by nia. unfold c180 in *. lia. }
  destruct (point_props Fa) as [w [Ew [Fw Bw]]]. rewrite Ew, bind_ok.
  assert (Fb : Fin (f_add w ZONE_WIDTH_DEG)).
  { apply Fin_add; [exact Fw|apply Fin_width|]. rewrite V_width.
    unfold c180 in *. lia. }
  destruct (point_props Fb) as [e [Ee [Fe Be]]]. rewrite Ee, bind_ok.
  eexists. split; [reflexivity|]. cbn [zone west east].
  split; [reflexivity|]. split; apply edge_ok_intro; assumption.
Qed.

(** X10: [build_zone_intervals] on doubles.  For every finite boundary the
    call returns ten intervals, numbered 9, 8, ..., 0 in the order of the
    list, and every west and east edge is a finite double [y] with
    [-180.0 <= y < 180.0]. *)
Theorem build_zone_intervals_b64 (b : float) :
  valid_binary prec emax b = true -> is_finite b = true ->
  exists zs : list ZoneInterval,
    build_zone_intervals b = Ok zs /\
    map zone zs = [9; 8; 7; 6; 5; 4; 3; 2; 1; 0] /\
    Forall (fun zi => edge_ok_b64 (west zi) /\ edge_ok_b64 (east zi)) zs.
Proof.
  intros Hv Hf.
  destruct (@origin_props b (conj Hv Hf)) as [o [Eo [Fo Bo]]].
  destruct (build_total b) as [zs E]. exists zs. split; [exact E|].
  split; [apply (build_zone_numbers _ E)|].
  unfold build_zone_intervals in E. rewrite Eo, bind_ok in E.
  apply map_result_ok in E. apply Forall_forall. intros zi I.
  destruct (Forall2_In_r zi E I) as [k [Ik Ek]].
  destruct (@zone_at_props o k Fo Bo) as [zi' [E' [_ R]]].
  { unfold range10 in Ik. cbn [In] in Ik. lia. }
  rewrite E' in Ek. injection Ek as <-. exact R.
Qed.

Lemma build_zone_intervals_b64_witness :
  exists zs : list ZoneInterval,
    build_zone_intervals (LANGFANG_LON_EAST_BOUNDARY : float) = Ok zs /\
    map zone zs = [9; 8; 7; 6; 5; 4; 3; 2; 1; 0] /\
    Forall (fun zi => edge_ok_b64 (west zi) /\ edge_ok_b64 (east zi)) zs.
Proof.
  apply (@build_zone_intervals_b64 LANGFANG_LON_EAST_BOUNDARY);
    vm_compute; reflexivity.
Defined.

(** ** Division by the zone width *)

Lemma shr_m_shr_1 (mrs : shr_record) :
  0 <= shr_m mrs -> shr_m (shr_1 mrs) = shr_m mrs / 2.
Proof.
  destruct mrs as [m r s]. cbn [shr_m]. intro P.
  rewrite (shr_1_spec r s P). reflexivity.
Qed.

Lemma shr_m_iter (p : positive) (mrs : shr_record) :
  0 <= shr_m mrs -> shr_m (iter_pos shr_1 p mrs) = shr_m mrs / 2 ^ Zpos p.
Proof.
  revert mrs. induction p as [p IH|p IH|]; intros mrs P; cbn [iter_pos].
  - pose proof (shr_1_nonneg mrs P) as P1.
    pose proof (iter_shr_1_nonneg p _ P1) as P2.
    rewrite (IH _ P2), (IH _ P1), (shr_m_shr_1 _ P).
    assert (Pp : 0 < 2 ^ Zpos p) by (apply Z.pow_pos_nonneg; lia).
    rewrite !Zdiv.Zdiv_Zdiv by lia.
    f_equal. change (Zpos p~1) with (2 * Zpos p + 1).
    replace (2 * Zpos p + 1) with (1 + Zpos p + Zpos p) by lia.
    rewrite !Z.pow_add_r by lia. change (2 ^ 1) with 2. lia.
  - pose proof (iter_shr_1_nonneg p _ P) as P2.
    rewrite (IH _ P2), (IH _ P).
    assert (Pp : 0 < 2 ^ Zpos p) by (apply Z.pow_pos_nonneg; lia).
    rewrite !Zdiv.Zdiv_Zdiv by lia.
    f_equal. change (Zpos p~0) with (2 * Zpos p).
    replace (2 * Zpos p) with (Zpos p + Zpos p) by lia.
    rewrite !Z.pow_add_r by lia. lia.
  - rewrite (shr_m_shr_1 _ P). reflexivity.
Qed.

Lemma shr_m_of_loc (m : Z) (l : location) : shr_m (shr_record_of_loc m l) = m.
Proof. destruct l as [|[| |]]; reflexivity. Qed.

(** The shift [shr_fexp] applies, on the mantissa and on the exponent *)
Lemma shr_fexp_m (m e : Z) (l : location) :
  0 <= m ->
  let k := Z.max 0 (fexp64 (Zdigits2 m + e) - e) in
  shr_m (fst (shr_fexp prec emax m e l)) = m / 2 ^ k /\
  snd (shr_fexp prec emax m e l) = e + k.
Proof.
  intros P k. unfold shr_fexp, shr. rewrite fexp_eq. subst k.
  destruct (fexp64 (Zdigits2 m + e) - e) as [|p|p] eqn:N; cbn [fst snd].
  - rewrite shr_m_of_loc. change (Z.max 0 0) with 0.
    change (2 ^ 0) with 1. rewrite Z.div_1_r. split; [reflexivity|lia].
  - rewrite shr_m_iter by (rewrite shr_m_of_loc; exact P).
    rewrite shr_m_of_loc. rewrite Z.max_r by lia. split; reflexivity.
  - rewrite shr_m_of_loc. rewrite Z.max_l by lia.
    change (2 ^ 0) with 1. rewrite Z.div_1_r. split; [reflexivity|lia].
Qed.

Lemma round_loc_bounds (m : Z) (l : location) :
  m <= round_nearest_even m l <= m + 1.
Proof.
  destruct l as [|[| |]]; cbn [round_nearest_even]; try lia.
  destruct (Z.even m); lia.
Qed.

Lemma Zdigits2_le (m d : Z) : 0 <= m < 2 ^ d -> 0 <= d -> Zdigits2 m <= d.
Proof.
  intros [P L] D. destruct m as [|p|p]; [cbn; lia| |lia].
  rewrite Zdigits2_digits. apply digits_le. lia.
Qed.

Lemma fexp64_le (k B : Z) : k <= B + 1 -> -1074 <= B -> fexp64 k <= B.
Proof. unfold fexp64. lia. Qed.

(** A mantissa and an exponent that stand for less than [2^B] round to a
    zero or to a finite double of at most [2^B]. *)
Lemma round_aux_bound (sx : bool) (mx ex : Z) (lx : location) (B : Z) :
  -1074 <= ex <= B -> B <= 971 -> 0 <= mx < 2 ^ (B - ex) ->
  binary_round_aux prec emax sx mx ex lx = S754_zero sx \/
  exists (m : positive) (e : Z),
    binary_round_aux prec emax sx mx ex lx = S754_finite sx m e /\
    -1074 <= e <= B /\ Zpos m * 2 ^ (e + 1074) <= 2 ^ (B + 1074).
Proof.
  intros He HB Hm. unfold binary_round_aux.
  destruct (@shr_fexp_m mx ex lx ltac:(lia)) as [M1 E1].
  destruct (shr_fexp prec emax mx ex lx) as [mrs1 e1]. cbn [fst snd] in M1, E1.
  set (k1 := Z.max 0 (fexp64 (Zdigits2 mx + ex) - ex)) in *.
  assert (D1 : Zdigits2 mx <= B - ex) by (apply Zdigits2_le; lia).
  assert (F1 : fexp64 (Zdigits2 mx + ex) <= B) by (apply fexp64_le; lia).
  assert (Be1 : -1074 <= e1 <= B) by lia.
  assert (P1 : 0 < 2 ^ k1) by (apply Z.pow_pos_nonneg; lia).
  assert (Bm1 : 0 <= shr_m mrs1 < 2 ^ (B - e1)).
  { rewrite M1. split; [apply Z.div_pos; lia|].
    apply Z.div_lt_upper_bound; [lia|].
    rewrite <- Z.pow_add_r by lia. replace (k1 + (B - e1)) with (B - ex) by lia.
    lia. }
  set (m2 := round_nearest_even (shr_m mrs1) (loc_of_shr_record mrs1)).
  pose proof (round_loc_bounds (shr_m mrs1) (loc_of_shr_record mrs1)) as R2.
  fold m2 in R2.
  assert (Bm2 : 0 <= m2 <= 2 ^ (B - e1)) by lia.
  destruct (@shr_fexp_m m2 e1 loc_Exact ltac:(lia)) as [M3 E3].
  destruct (shr_fexp prec emax m2 e1 loc_Exact) as [mrs3 e3]. cbn [fst snd] in M3, E3.
  set (k2 := Z.max 0 (fexp64 (Zdigits2 m2 + e1) - e1)) in *.
  assert (D2 : Zdigits2 m2 <= B - e1 + 1).
  { apply Zdigits2_le; [|lia]. split; [lia|].
    rewrite Z.pow_add_r by lia. change (2 ^ 1) with 2.
    assert (0 < 2 ^ (B - e1)) by (apply Z.pow_pos_nonneg; lia). lia. }
  assert (F2 : fexp64 (Zdigits2 m2 + e1) <= B) by (apply fexp64_le; lia).
  assert (Be3 : -1074 <= e3 <= B) by lia.
  assert (P2 : 0 < 2 ^ k2) by (apply Z.pow_pos_nonneg; lia).
  assert (Bm3 : 0 <= shr_m mrs3 /\ shr_m mrs3 * 2 ^ k2 <= m2).
  { rewrite M3. split; [apply Z.div_pos; lia|].
    rewrite Z.mul_comm. apply Z.mul_div_le. lia. }
  destruct (shr_m mrs3) as [|m|m] eqn:Em; [left; reflexivity| |lia].
  right. exists m, e3.
  replace (e3 <=? emax - prec) with true
    by (symmetry; apply Z.leb_le; unfold emax, prec; lia).
  split; [reflexivity|]. split; [exact Be3|].
  rewrite E3. replace (e1 + k2 + 1074) with (k2 + (e1 + 1074)) by lia.
  rewrite Z.pow_add_r by lia.
  assert (Pe : 0 < 2 ^ (e1 + 1074)) by (apply Z.pow_pos_nonneg; lia).
  replace (B + 1074) with ((B - e1) + (e1 + 1074)) by lia.
  rewrite (Z.pow_add_r 2 (B - e1)) by lia.
  rewrite Z.mul_assoc. apply Z.mul_le_mono_nonneg_r; lia.
Qed.

Lemma floor_bound (m : positive) (e : Z) :
  -1074 <= e -> Zpos m * 2 ^ (e + 1074) <= 16 * deg ->
  0 <= Z.shiftl (Zpos m) e <= 16.
Proof.
  intros He B. unfold deg in B.
  destruct (Z_le_gt_dec 0 e) as [A|A].
  - rewrite Z.shiftl_mul_pow2 by lia.
    assert (P : 0 < 2 ^ e) by (apply Z.pow_pos_nonneg; lia).
    rewrite Z.pow_add_r in B by lia.
    assert (Q : 0 < 2 ^ 1074) by (apply Z.pow_pos_nonneg; lia).
    split; [lia|]. rewrite Z.mul_assoc in B.
    apply Z.mul_le_mono_pos_r in B; lia.
  - rewrite Z.shiftl_div_pow2 by lia.
    assert (P : 0 < 2 ^ (- e)) by (apply Z.pow_pos_nonneg; lia).
    split; [apply Z.div_pos; lia|].
    apply Z.div_le_upper_bound; [lia|].
    assert (Q : 0 < 2 ^ (e + 1074)) by (apply Z.pow_pos_nonneg; lia).
    assert (S : 2 ^ 1074 = 2 ^ (- e) * 2 ^ (e + 1074)).
    { rewrite <- Z.pow_add_r by lia. f_equal. lia. }
    rewrite S in B. rewrite Z.mul_assoc in B.
    apply Z.mul_le_mono_pos_r in B; lia.
Qed.

(** [floor(diff / 36.0)] for a double [diff] of [[0, 360]]: the call
    returns, with an integer between 0 and 16. *)
Lemma steps_bound (r : float) :
  Fin r -> r <> nzero -> 0 <= V r <= c360 ->
  exists z : Z, f_floor (f_div r ZONE_WIDTH_DEG) = Ok z /\ 0 <= z <= 16.
Proof.
  intros [Hv Hf] Nz Br.
  destruct r as [[|]| | |s m e]; try discriminate Hf.
  - contradiction.
  - exists 0. split; [reflexivity|lia].
  - destruct (valid_finite_inv _ _ _ Hv) as [He [Hd Hn]].
    destruct (@V_abs s m e ltac:(lia)) as [Ab [Pv Sg]].
    assert (s = false).
    { destruct s; [|reflexivity]. apply Z.ltb_lt in Sg. lia. }
    subst s. cbn [V cond_Zopp] in Br.
    change (f_div ?a ?b) with (div a b). rewrite width_rep.
    unfold div, SFdiv, SFdiv_core_binary.
    rewrite !Zdigits2_digits, fexp_eq.
    change (digits 5066549580791808) with 53.
    set (d1 := digits (Zpos m)).
    set (ez := Z.min (fexp64 (d1 + e - (53 + -47))) (e - -47)).
    (* the magnitude of the dividend *)
    assert (Le : e <= -44).
    { destruct (Z_le_gt_dec e (-44)) as [A|A]; [exact A|exfalso].
      destruct (mantissa_bounds _ _ _ Hv) as [_ [Lo _]].
      specialize (Lo ltac:(lia)).
      assert (P1 : 2 ^ (-43 + 1074) <= 2 ^ (e + 1074))
        by (apply Z.pow_le_mono_r; lia).
      assert (P2 : 2 ^ 52 * 2 ^ (-43 + 1074) <= Zpos m * 2 ^ (e + 1074)).
      { apply Z.mul_le_mono_nonneg; lia. }
      rewrite <- Z.pow_add_r in P2 by lia.
      replace (52 + (-43 + 1074)) with 1083 in P2 by lia.
      rewrite deg_512 in P2. unfold c360 in Br. pose proof deg_pos. lia. }
    assert (Dm : d1 + e <= 9).
    { assert (d1 <= 9 - e); [|lia]. apply digits_le. split; [lia|].
      apply Z.mul_lt_mono_pos_r with (2 ^ (e + 1074)); [apply Z.pow_pos_nonneg; lia|].
      rewrite <- Z.pow_add_r by lia. replace (9 - e + (e + 1074)) with 1083 by lia.
      rewrite deg_512. unfold c360 in Br. pose proof deg_pos. lia. }
    assert (Bz : -1074 <= ez <= -50) by (unfold ez, fexp64; lia).
    set (s := e - -47 - ez).
    assert (Ps : 0 <= s) by (unfold s, ez; lia).
    set (m' := match s with
               | 0 => Zpos m
               | Zpos _ => Z.shiftl (Zpos m) s
               | Zneg _ => 0
               end).
    assert (Em : m' = Zpos m * 2 ^ s).
    { unfold m'. destruct s as [|p|p] eqn:Es; [change (2 ^ 0) with 1; lia| |lia].
      apply Z.shiftl_mul_pow2. lia. }
    pose proof (Z.div_eucl_eq m' 5066549580791808 ltac:(lia)) as Eu.
    pose proof (Z.mod_pos_bound m' 5066549580791808 ltac:(lia)) as Bm.
    unfold Z.modulo in Bm.
    destruct (Z.div_eucl m' 5066549580791808) as [q rr].
    assert (Pm : 0 < m').
    { rewrite Em. apply Z.mul_pos_pos; [lia|apply Z.pow_pos_nonneg; lia]. }
    assert (Pq : 0 <= q) by nia.
    (* the quotient is below 16 *)
    assert (Bq : q < 2 ^ (4 - ez)).
    { apply Z.nle_gt. intro G.
      assert (A1 : 2 ^ (4 - ez) * 5066549580791808 <= m') by nia.
      rewrite Em in A1.
      assert (Pz : 0 < 2 ^ (ez + 1074)) by (apply Z.pow_pos_nonneg; lia).
      apply Z.mul_le_mono_nonneg_r with (p := 2 ^ (ez + 1074)) in A1; [|lia].
      replace (Zpos m * 2 ^ s * 2 ^ (ez + 1074))
        with (Zpos m * 2 ^ (e + 1074) * 2 ^ 47) in A1.
      2:{ rewrite <- !Z.mul_assoc, <- !Z.pow_add_r by lia. do 2 f_equal.
          unfold s. lia. }
      replace (2 ^ (4 - ez) * 5066549580791808 * 2 ^ (ez + 1074))
        with (5066549580791808 * 2 ^ 1078) in A1.
      2:{ rewrite (Z.mul_comm (2 ^ (4 - ez))), <- Z.mul_assoc, <- Z.pow_add_r by lia.
          do 2 f_equal. lia. }
      assert (A2 : Zpos m * 2 ^ (e + 1074) * 2 ^ 47 <= c360 * 2 ^ 47)
        by (apply Z.mul_le_mono_nonneg_r; lia).
      assert (A3 : c360 * 2 ^ 47 < 5066549580791808 * 2 ^ 1078)
        by (vm_compute; reflexivity).
      lia. }
    cbn [xorb].
    destruct (@round_aux_bound false q ez (new_location 5066549580791808 rr) 4)
      as [Z0|[mq [eq [Eq [Beq Vq]]]]]; try lia.
    + rewrite Z0. exists 0. split; [reflexivity|lia].
    + rewrite Eq. exists (Z.shiftl (Zpos mq) eq). split; [reflexivity|].
      apply floor_bound; [lia|]. rewrite Vq. rewrite pow_deg by lia.
      change (2 ^ 4) with 16. lia.
Qed.

(** ** The point query on doubles *)

Lemma py_div_width (x : float) : py_div x ZONE_WIDTH_DEG = Ok (f_div x ZONE_WIDTH_DEG).
Proof. reflexivity. Qed.

Lemma not_finite_cases (x : float) :
  is_finite x = false -> x = nan \/ x = pinf \/ x = ninf.
Proof.
  destruct x as [s|[|]| |s m e]; try discriminate; intros _; auto.
Qed.

Lemma point_not_finite (x : float) :
  is_finite x = false -> normalize_lon_point x = Ok nan.
Proof.
  intro H. destruct (not_finite_cases x H) as [->|[->| ->]]; vm_compute; reflexivity.
Qed.

Lemma origin_not_finite (b : float) :
  is_finite b = false -> zone_origin b = Ok nan.
Proof.
  intro H. destruct (not_finite_cases b H) as [->|[->| ->]]; vm_compute; reflexivity.
Qed.

Lemma sub_nan_l (y : float) : f_sub nan y = nan.
Proof. destruct y; reflexivity. Qed.

Lemma sub_nan_r (x : float) : f_sub x nan = nan.
Proof. destruct x; reflexivity. Qed.

Lemma steps_of_nan (o : float) :
  (diff <- py_mod nan f360 ;;
   q <- py_div diff ZONE_WIDTH_DEG ;;
   steps_east <- f_floor q ;;
   zone_at o steps_east)%py = Raise ValueError.
Proof. reflexivity. Qed.

(** X13: [lon_to_zone_interval] on doubles.  For a finite longitude and a
    finite boundary the call returns an interval whose zone number is
    between 0 and 9 and whose two edges are finite doubles [y] with
    [-180.0 <= y < 180.0].  When the longitude or the boundary is NaN or
    infinite the call raises [ValueError] (from [math.floor], which receives
    NaN). *)
Theorem lon_to_zone_interval_b64 (lon b : float) :
  valid_binary prec emax lon = true -> valid_binary prec emax b = true ->
  (is_finite lon = true -> is_finite b = true ->
   exists zi : ZoneInterval,
     lon_to_zone_interval lon b = Ok zi /\ 0 <= zone zi <= 9 /\
     edge_ok_b64 (west zi) /\ edge_ok_b64 (east zi)) /\
  (is_finite lon = false \/ is_finite b = false ->
   lon_to_zone_interval lon b = Raise ValueError).
Proof.
  intros Vl Vb. split.
  - intros Fl Fb. unfold lon_to_zone_interval.
    destruct (@point_props lon (conj Vl Fl)) as [p [Ep [Fp Bp]]].
    destruct (@origin_props b (conj Vb Fb)) as [o [Eo [Fo Bo]]].
    rewrite Ep, bind_ok, Eo, bind_ok, py_mod_360_b64, bind_ok.
    assert (Fd : Fin (f_sub p o)).
    { apply Fin_sub; [exact Fp|exact Fo|].
      pose proof c180_lt_thr. pose proof deg_pos. unfold c180 in *. lia. }
    destruct (float_rem360_range Fd) as [Fr [Nr Br]].
    rewrite py_div_width, bind_ok.
    destruct (steps_bound Fr Nr Br) as [z [Ez Bz]]. rewrite Ez, bind_ok.
    destruct (@zone_at_props o z Fo Bo Bz) as [zi [Ezi [Zn [Rw Re]]]].
    exists zi. split; [exact Ezi|]. split; [|split; assumption].
    rewrite Zn. pose proof (Z.mod_pos_bound (9 - z) 10 ltac:(lia)). lia.
  - intros [Nl|Nb]; unfold lon_to_zone_interval.
    + rewrite (point_not_finite lon Nl), bind_ok.
      destruct (zone_origin_total b) as [o ->]. rewrite bind_ok.
      rewrite sub_nan_l. apply steps_of_nan.
    + destruct (point_total lon) as [p ->]. rewrite bind_ok.
      rewrite (origin_not_finite b Nb), bind_ok.
      rewrite sub_nan_r. apply steps_of_nan.
Qed.

Lemma lon_to_zone_interval_b64_witness :
  (is_finite (f_dec (-740060) 4 : float) = true ->
   is_finite (LANGFANG_LON_EAST_BOUNDARY : float) = true ->
   exists zi : ZoneInterval,
     lon_to_zone_interval (f_dec (-740060) 4 : float) LANGFANG_LON_EAST_BOUNDARY
     = Ok zi /\ 0 <= zone zi <= 9 /\
     edge_ok_b64 (west zi) /\ edge_ok_b64 (east zi)) /\
  (is_finite (f_dec (-740060) 4 : float) = false \/
   is_finite (LANGFANG_LON_EAST_BOUNDARY : float) = false ->
   lon_to_zone_interval (f_dec (-740060) 4 : float) LANGFANG_LON_EAST_BOUNDARY
   = Raise ValueError).
Proof.
  apply (@lon_to_zone_interval_b64 (f_dec (-740060) 4) LANGFANG_LON_EAST_BOUNDARY);
    vm_compute; reflexivity.
Defined.

(** ** Range queries on doubles *)

Lemma ascending_NoDup (l : list (ZoneInterval (F := float))) :
  StronglySorted (fun zi zj => zone zi < zone zj) l -> NoDup l.
Proof.
  induction 1 as [|z l Sl IH Hz]; constructor; [|exact IH].
  intro I. rewrite Forall_forall in Hz. specialize (Hz z I). lia.
Qed.

(** X18: what [zones_covered_by_lon_range] returns on doubles.  For every
    range and boundary the call returns; the zones of the result are in
    strictly ascending order of zone number, so no zone is listed twice and
    there are at most ten; and each is an entry of
    [build_zone_intervals] for the same boundary. *)
Theorem zones_covered_sorted_b64 (bbox_west bbox_east b : float) :
  exists res zs : list ZoneInterval,
    zones_covered_by_lon_range bbox_west bbox_east b = Ok res /\
    build_zone_intervals b = Ok zs /\
    StronglySorted (fun zi zj => zone zi < zone zj) res /\
    (forall zi, In zi res -> In zi zs) /\
    (length res <= 10)%nat.
Proof.
  destruct (zones_covered_total bbox_west bbox_east b) as [res E].
  destruct (zones_covered_sorted _ _ _ E) as [S [zs [B I]]].
  exists res, zs. split; [exact E|]. split; [exact B|]. split; [exact S|].
  split; [exact I|].
  pose proof (build_zone_numbers _ B) as Zs.
  assert (L : length zs = 10%nat).
  { rewrite <- (length_map zone), Zs. reflexivity. }
  rewrite <- L. apply NoDup_incl_length; [apply ascending_NoDup, S|exact I].
Qed.

(** ** The intersection test on doubles *)

(** X17: [ranges_intersect] on doubles.  The test is symmetric.  For finite
    doubles and two segments with [a0 < a1] and [b0 < b1] it holds exactly
    when the half-open intervals [[a0, a1)] and [[b0, b1)] have a double in
    common; a segment without points ([a0 = a1]) meets another exactly when
    its end lies strictly inside it. *)
Theorem ranges_intersect_b64 (a0 a1 b0 b1 : float) :
  Fin a0 -> Fin a1 -> Fin b0 -> Fin b1 ->
  ranges_intersect (a0, a1) (b0, b1) = ranges_intersect (b0, b1) (a0, a1) /\
  (f_ltb a0 a1 = true -> f_ltb b0 b1 = true ->
   (ranges_intersect (a0, a1) (b0, b1) = true <->
    exists x : float,
      Fin x /\ f_leb a0 x = true /\ f_ltb x a1 = true /\
      f_leb b0 x = true /\ f_ltb x b1 = true)) /\
  (f_eqb a0 a1 = true ->
   ranges_intersect (a0, a1) (b0, b1) = f_ltb b0 a0 && f_ltb a0 b1).
Proof.
  intros Fa0 Fa1 Fb0 Fb1. unfold ranges_intersect.
  change (f_ltb ?x ?y) with (ltb x y). change (f_leb ?x ?y) with (leb x y).
  change (f_eqb ?x ?y) with (eqb x y).
  split; [apply andb_comm|]. split.
  - intros La Lb. rewrite (ltb_V Fa0 Fa1) in La. rewrite (ltb_V Fb0 Fb1) in Lb.
    apply Z.ltb_lt in La, Lb.
    rewrite andb_true_iff, (ltb_V Fa0 Fb1), (ltb_V Fb0 Fa1), !Z.ltb_lt.
    split.
    + intros [A B]. destruct (Z_le_gt_dec (V a0) (V b0)) as [C|C].
      * exists b0. split; [exact Fb0|].
        rewrite (leb_V Fa0 Fb0), (ltb_V Fb0 Fa1), (leb_V Fb0 Fb0), (ltb_V Fb0 Fb1).
        rewrite !Z.leb_le, !Z.ltb_lt. lia.
      * exists a0. split; [exact Fa0|].
        rewrite (leb_V Fa0 Fa0), (ltb_V Fa0 Fa1), (leb_V Fb0 Fa0), (ltb_V Fa0 Fb1).
        rewrite !Z.leb_le, !Z.ltb_lt. lia.
    + intros [x [Fx [A [B [C D]]]]].
      rewrite (leb_V Fa0 Fx) in A. rewrite (ltb_V Fx Fa1) in B.
      rewrite (leb_V Fb0 Fx) in C. rewrite (ltb_V Fx Fb1) in D.
      apply Z.leb_le in A, C. apply Z.ltb_lt in B, D. lia.
  - intro Q. rewrite (eqb_V Fa0 Fa1) in Q. apply Z.eqb_eq in Q.
    rewrite (ltb_V Fa0 Fb1), (ltb_V Fb0 Fa1), (ltb_V Fb0 Fa0), Q.
    apply andb_comm.
Qed.

Lemma ranges_intersect_b64_witness :
  ranges_intersect (f_dec 1700 1 : float, f_dec 1800 1) (f_dec 1527 1, f_dec 1800 1)
  = ranges_intersect (f_dec 1527 1 : float, f_dec 1800 1) (f_dec 1700 1, f_dec 1800 1) /\
  (f_ltb (f_dec 1700 1 : float) (f_dec 1800 1) = true ->
   f_ltb (f_dec 1527 1 : float) (f_dec 1800 1) = true ->
   (ranges_intersect (f_dec 1700 1 : float, f_dec 1800 1) (f_dec 1527 1, f_dec 1800 1)
    = true <->
    exists x : float,
      Fin x /\ f_leb (f_dec 1700 1) x = true /\ f_ltb x (f_dec 1800 1) = true /\
      f_leb (f_dec 1527 1) x = true /\ f_ltb x (f_dec 1800 1) = true)) /\
  (f_eqb (f_dec 1700 1 : float) (f_dec 1800 1) = true ->
   ranges_intersect (f_dec 1700 1 : float, f_dec 1800 1) (f_dec 1527 1, f_dec 1800 1)
   = f_ltb (f_dec 1527 1 : float) (f_dec 1700 1)
     && f_ltb (f_dec 1700 1 : float) (f_dec 1800 1)).
Proof.
  apply (@ranges_intersect_b64 (f_dec 1700 1) (f_dec 1800 1)
           (f_dec 1527 1) (f_dec 1800 1)); split; vm_compute; reflexivity.
Defined.

End Binary64Engine.

(** * Rounding errors *)

Module Binary64Rounding.
Import Binary64 Binary64Theory Binary64Defs Data Generic Structure Binary64Engine.

Local Open Scope Z_scope.

(** Rounding to nearest moves a value by at most half a unit of its last
    place. *)
Lemma nearest_error (v D : Z) :
  0 < v -> digits v <= D -> 54 <= D -> Z.abs (nearest v - v) <= 2 ^ (D - 54).
Proof.
  intros Hv HD H54. unfold nearest.
  destruct (digits v <=? 53) eqn:S.
  - rewrite Z.sub_diag. cbn [Z.abs]. apply Z.pow_nonneg. lia.
  - apply Z.leb_gt in S. set (n := digits v - 53).
    assert (Pn : 0 < 2 ^ n) by (apply Z.pow_pos_nonneg; unfold n; lia).
    assert (Ph : 0 < 2 ^ (n - 1)) by (apply Z.pow_pos_nonneg; unfold n; lia).
    assert (E2 : 2 ^ n = 2 * 2 ^ (n - 1)).
    { replace n with (1 + (n - 1)) at 1 by lia.
      rewrite Z.pow_add_r by (unfold n; lia). reflexivity. }
    assert (Le : 2 ^ (n - 1) <= 2 ^ (D - 54))
      by (apply Z.pow_le_mono_r; unfold n; lia).
    pose proof (Z.div_mod v (2 ^ n) ltac:(lia)) as Dv.
    pose proof (Z.mod_pos_bound v (2 ^ n) Pn) as Bv.
    set (q := v / 2 ^ n) in *. set (R := v mod 2 ^ n) in *.
    unfold rne. destruct (Z.compare_spec R (2 ^ (n - 1))) as [C|C|C].
    + destruct (Z.even q); nia.
    + nia.
    + nia.
Qed.

(** The value of Python's [s % 360.0]: exact for [s >= 0]; for [s < 0] the
    remainder of [fmod] is negative and the sum with [360.0] is rounded. *)
Lemma rem360_value (s : float) :
  Fin s ->
  V (rem s f360) =
  if 0 <=? V s then V s mod c360
  else
    let RR := (- V s) mod c360 in
    if RR =? 0 then 0 else nearest (c360 - RR).
Proof.
  intros [Hv Hf]. pose proof c360_small as Thr. pose proof deg_pos as Pd.
  assert (P360 : 0 < c360) by (unfold c360; lia).
  destruct s as [sg| | |sg m e]; try discriminate Hf.
  - assert (E : rem (S754_zero sg) f360 = pzero) by (destruct sg; vm_compute; reflexivity).
    rewrite E. cbn [V]. cbn [Z.leb Z.compare]. rewrite Z.mod_0_l by lia. reflexivity.
  - destruct (fmod_spec _ _ _ Hv) as [Ef [BR Ex]].
    destruct (valid_finite_inv _ _ _ Hv) as [Be _].
    destruct (@V_abs sg m e ltac:(lia)) as [Va [Vp Vs]].
    set (RR := (Zpos m * 2 ^ (e + 1074)) mod c360) in *.
    unfold rem. rewrite Ef.
    destruct (RR =? 0) eqn:E0.
    + assert (E : (if negb (eqb (S754_zero sg) pzero)
                   then if negb (Bool.eqb (ltb f360 pzero) (ltb (S754_zero sg) pzero))
                        then add (S754_zero sg) f360 else S754_zero sg
                   else if ltb f360 pzero then nzero else pzero) = pzero)
        by (destruct sg; vm_compute; reflexivity).
      rewrite E. apply Z.eqb_eq in E0. change (V pzero) with 0.
      destruct sg; cbn [V cond_Zopp].
      * replace (0 <=? - (Zpos m * 2 ^ (e + 1074))) with false
          by (symmetry; apply Z.leb_gt; lia).
        cbv zeta. rewrite Z.opp_involutive. fold RR. rewrite E0. reflexivity.
      * replace (0 <=? Zpos m * 2 ^ (e + 1074)) with true
          by (symmetry; apply Z.leb_le; lia).
        fold RR. lia.
    + pose proof E0 as E0'. apply Z.eqb_neq in E0.
      assert (Nz : cond_Zopp sg RR <> 0) by (destruct sg; cbn [cond_Zopp]; lia).
      assert (Ab : Z.abs (cond_Zopp sg RR) = RR) by (destruct sg; cbn [cond_Zopp]; lia).
      destruct (@rnd_shape (cond_Zopp sg RR) Nz ltac:(lia)) as [q [eq [Er [Vr Mr]]]].
      rewrite Ab, Ex in Mr by lia.
      assert (Sg : (cond_Zopp sg RR <? 0) = sg).
      { destruct sg; cbn [cond_Zopp]; [apply Z.ltb_lt|apply Z.ltb_ge]; lia. }
      rewrite Sg in *. rewrite Er.
      rewrite eqb_finite_zero, ltb_finite_zero. cbn [negb].
      replace (ltb f360 pzero) with false by (vm_compute; reflexivity).
      destruct sg; cbn [Bool.eqb negb].
      * assert (Fq : Fin (S754_finite true q eq)) by (split; [exact Vr|reflexivity]).
        rewrite (add_spec Fq Fin_f360) by (rewrite V_f360; lia).
        rewrite V_f360. cbn [V cond_Zopp]. rewrite Mr.
        assert (Bv : 0 < - RR + c360 < c360) by lia.
        destruct (@rnd_Fin (- RR + c360) ltac:(lia)) as [Fr Vv].
        rewrite Vv, Z.sgn_pos, Z.abs_eq by lia. rewrite Z.mul_1_l.
        replace (0 <=? - (Zpos m * 2 ^ (e + 1074))) with false
          by (symmetry; apply Z.leb_gt; lia).
        cbv zeta. rewrite Z.opp_involutive. fold RR. rewrite E0'.
        f_equal. lia.
      * cbn [V cond_Zopp]. rewrite Mr.
        replace (0 <=? Zpos m * 2 ^ (e + 1074)) with true
          by (symmetry; apply Z.leb_le; lia).
        reflexivity.
Qed.

Lemma nearest_ge_pow2 (v k : Z) : 0 <= k -> 2 ^ k <= v -> 2 ^ k <= nearest v.
Proof.
  intros Hk Hv.
  assert (Pk : 0 < 2 ^ k) by (apply Z.pow_pos_nonneg; lia).
  assert (Pv : 0 < v) by lia.
  pose proof (digits_bounds Pv) as B. pose proof (digits_pos Pv) as Pd.
  destruct (Z_le_gt_dec (digits v - 53) k) as [L|G].
  - apply nearest_ge; [lia|exact Pv|]. intro S.
    replace k with ((k - (digits v - 53)) + (digits v - 53)) by lia.
    rewrite Z.pow_add_r by lia. apply Z.mod_mul.
    assert (0 < 2 ^ (digits v - 53)) by (apply Z.pow_pos_nonneg; lia). lia.
  - assert (2 ^ k <= 2 ^ (digits v - 1)) by (apply Z.pow_le_mono_r; lia).
    assert (2 ^ (digits v - 1) <= nearest v); [|lia].
    apply nearest_ge; [lia|exact Pv|]. intro S.
    replace (digits v - 1) with (52 + (digits v - 53)) by lia.
    rewrite Z.pow_add_r by lia. apply Z.mod_mul.
    assert (0 < 2 ^ (digits v - 53)) by (apply Z.pow_pos_nonneg; lia). lia.
Qed.

(** A double of magnitude at least [2^k] is a multiple of [2^(k-52)]. *)
Lemma coarse_grid (f : float) (k : Z) :
  Fin f -> 53 <= k -> 2 ^ k <= Z.abs (V f) -> Z.abs (V f) mod 2 ^ (k - 52) = 0.
Proof.
  intros Ff Hk Hv.
  assert (Pk : 0 < 2 ^ k) by (apply Z.pow_pos_nonneg; lia).
  assert (Pv : 0 < Z.abs (V f)) by lia.
  pose proof (@digits_ge (Z.abs (V f)) (k + 1)) as Dg.
  replace (k + 1 - 1) with k in Dg by lia. specialize (Dg Hv ltac:(lia)).
  apply mod_pow2_le with (n := digits (Z.abs (V f)) - 53); [lia|].
  rewrite <- (valid_nearest Ff Pv) at 1.
  apply nearest_grid; [exact Pv|lia].
Qed.

Lemma mod_grid (a c g : Z) : 0 < g -> 0 < c -> a mod g = 0 -> c mod g = 0 -> (a mod c) mod g = 0.
Proof.
  intros Pg Pc Ha Hc.
  apply Z.mod_divide in Ha; [|lia]. apply Z.mod_divide in Hc; [|lia].
  apply Z.mod_divide; [lia|].
  rewrite Z.mod_eq by lia.
  apply Z.divide_sub_r; [exact Ha|].
  apply Z.divide_mul_l. exact Hc.
Qed.

Lemma multiple_ge (a g : Z) : 0 < g -> a mod g = 0 -> 0 < a -> g <= a.
Proof.
  intros Pg H Pa. apply Z.mod_divide in H; [|lia]. destruct H as [q E].
  subst a. assert (0 < q) by nia. nia.
Qed.

Lemma pow1030 : 2 ^ 1030 = 2 * 2 ^ 1029.
Proof. reflexivity. Qed.


(** The error of one rounding, for a value of either sign *)
Lemma rounding_error (v D : Z) :
  54 <= D -> (v <> 0 -> digits (Z.abs v) <= D) ->
  Z.abs (Z.sgn v * nearest (Z.abs v) - v) <= 2 ^ (D - 54).
Proof.
  intros HD Hv.
  assert (P : 0 < 2 ^ (D - 54)) by (apply Z.pow_pos_nonneg; lia).
  destruct (Z.eq_dec v 0) as [Z0|N0].
  - rewrite Z0. cbn. lia.
  - specialize (Hv N0).
    pose proof (@nearest_error (Z.abs v) D ltac:(lia) Hv HD) as Ne.
    destruct (Z_lt_ge_dec v 0).
    + rewrite Z.sgn_neg by lia. rewrite Z.abs_neq in * by lia. lia.
    + rewrite Z.sgn_pos by lia. rewrite Z.abs_eq in * by lia. lia.
Qed.


(** The float sum of two doubles of at most 256 degrees in all *)
Lemma add_accuracy (x y : float) (D : Z) :
  Fin x -> Fin y -> V y <> 0 -> 54 <= D <= 1090 ->
  Z.abs (V x + V y) < 2 ^ D ->
  Fin (add x y) /\ Z.abs (V (add x y) - (V x + V y)) <= 2 ^ (D - 54).
Proof.
  intros Fx Fy Ny HD B.
  assert (T : 2 ^ D <= 2 ^ 1090) by (apply Z.pow_le_mono_r; lia).
  assert (T' : 2 ^ 1090 < 2 ^ 2098 - 2 ^ 2044) by reflexivity.
  rewrite (add_spec Fx Fy Ny).
  destruct (@rnd_Fin (V x + V y) ltac:(lia)) as [Fr Ev].
  split; [exact Fr|]. rewrite Ev. apply rounding_error; [lia|].
  intros N. apply digits_le. lia.
Qed.

Lemma sub_accuracy (x y : float) (D : Z) :
  Fin x -> Fin y -> V y <> 0 -> 54 <= D <= 1090 ->
  Z.abs (V x - V y) < 2 ^ D ->
  Fin (sub x y) /\ Z.abs (V (sub x y) - (V x - V y)) <= 2 ^ (D - 54).
Proof.
  intros Fx Fy Ny HD B.
  assert (T : 2 ^ D <= 2 ^ 1090) by (apply Z.pow_le_mono_r; lia).
  assert (T' : 2 ^ 1090 < 2 ^ 2098 - 2 ^ 2044) by reflexivity.
  rewrite (sub_spec Fx Fy Ny).
  destruct (@rnd_Fin (V x - V y) ltac:(lia)) as [Fr Ev].
  split; [exact Fr|]. rewrite Ev. apply rounding_error; [lia|].
  intros N. apply digits_le. lia.
Qed.


End Binary64Rounding.

(** * The seam on doubles *)

Module Binary64Seam.
Import Binary64 Binary64Theory Binary64Defs Data Generic Structure Binary64Engine Binary64Rounding.

Local Open Scope Z_scope.

(** The float sum [x + 180.0] and its value *)
Lemma add180_value (x : float) :
  Fin x ->
  Fin (add x f180) /\
  V (add x f180) = Z.sgn (V x + c180) * nearest (Z.abs (V x + c180)).
Proof.
  intro Fx. rewrite (add_spec Fx Fin_f180) by (rewrite V_f180; discriminate).
  rewrite V_f180. apply rnd_Fin.
  pose proof (V_bound Fx). pose proof c180_small. rewrite threshold.
  assert (0 < c180) by reflexivity. lia.
Qed.

(** The value of [y0 x], from the remainder it is computed from *)
Lemma y0_value (x : float) :
  Fin x ->
  let r := rem (add x f180) f360 in
  Fin r /\ r <> nzero /\ 0 <= V r <= c360 /\
  V (y0 x) = Z.sgn (V r - c180) * nearest (Z.abs (V r - c180)).
Proof.
  intros Fx r. pose proof (Fin_add180 Fx) as Fa.
  destruct (float_rem360_range Fa) as [Fr [Nr Br]]. fold r in Fr, Nr, Br.
  split; [exact Fr|]. split; [exact Nr|]. split; [exact Br|].
  unfold y0. fold r.
  rewrite (sub_spec Fr Fin_f180) by (rewrite V_f180; discriminate).
  rewrite V_f180. apply rnd_Fin.
  pose proof c360_small. assert (0 < c180) by reflexivity.
  assert (c360 = 2 * c180) by reflexivity. lia.
Qed.

Lemma c180_ge_pow : 2 ^ 1081 <= c180.
Proof. vm_compute. discriminate. Qed.

Lemma c180_lt_pow : c180 < 2 ^ 1082.
Proof. reflexivity. Qed.

Lemma c360_ge_pow : 2 ^ 1082 + 2 ^ 1030 <= c360.
Proof. vm_compute. discriminate. Qed.

Lemma c360_lt_pow : c360 < 2 ^ 1083.
Proof. reflexivity. Qed.

Lemma pow2_grid (k n : Z) : 0 <= n <= k -> 2 ^ k mod 2 ^ n = 0.
Proof.
  intro H. replace k with ((k - n) + n) by lia.
  rewrite Z.pow_add_r by lia. apply Z.mod_mul.
  assert (0 < 2 ^ n) by (apply Z.pow_pos_nonneg; lia). lia.
Qed.

(** Rounding a value below [U - 2^1030] cannot reach [U], for [U] one of
    180 and 360 degrees. *)
Lemma nearest_below (v U : Z) :
  (U = c180 \/ U = c360) -> 0 < v <= U - 2 ^ 1030 ->
  (U = c180 -> digits v <= 1082) ->
  nearest v <= U - 2 ^ 1030.
Proof.
  intros HU Hv Hd.
  assert (P : 0 < 2 ^ 1030) by reflexivity.
  assert (D : digits v <= 1083).
  { apply digits_le. pose proof c360_lt_pow. pose proof c180_lt_pow.
    destruct HU; subst U; lia. }
  apply nearest_le; [lia|]. intro S.
  apply mod_sub_0.
  - apply Z.pow_pos_nonneg; lia.
  - destruct HU as [E|E]; subst U.
    + apply c180_grid. specialize (Hd eq_refl). lia.
    + apply c360_grid. lia.
  - apply pow2_grid. destruct HU as [E|E]; [specialize (Hd E)|]; lia.
Qed.

(** On a sum [s >= 180] the remainder modulo 360 is zero or at least
    [2^-44]. *)
Lemma rem_grid (s : float) :
  Fin s -> c180 <= V s ->
  V (rem s f360) = V s mod c360 /\
  (V (rem s f360) = 0 \/ 2 ^ 1030 <= V (rem s f360)).
Proof.
  intros Fs Hs. pose proof c180_ge_pow. pose proof c360_ge_pow.
  assert (P360 : 0 < c360) by reflexivity.
  assert (E : V (rem s f360) = V s mod c360).
  { rewrite (rem360_value Fs).
    replace (0 <=? V s) with true by (symmetry; apply Z.leb_le; lia).
    reflexivity. }
  split; [exact E|]. rewrite E.
  destruct (Z_lt_ge_dec (V s) c360) as [L|G].
  - right. rewrite Z.mod_small by lia.
    assert (2 ^ 1030 <= 2 ^ 1081) by (apply Z.pow_le_mono_r; lia). lia.
  - assert (Gs : Z.abs (V s) mod 2 ^ (1082 - 52) = 0).
    { apply coarse_grid; [exact Fs|lia|]. rewrite Z.abs_eq by lia. lia. }
    rewrite Z.abs_eq in Gs by lia. change (1082 - 52) with 1030 in Gs.
    assert (Gm : (V s mod c360) mod 2 ^ 1030 = 0).
    { apply mod_grid; [reflexivity|exact P360|exact Gs|apply c360_grid; lia]. }
    pose proof (Z.mod_pos_bound (V s) c360 P360) as B.
    destruct (Z.eq_dec (V s mod c360) 0) as [Z0|Z0]; [left; exact Z0|right].
    apply multiple_ge; [reflexivity|exact Gm|lia].
Qed.

(** For a positive input the sum [x + 180.0] is at least 180. *)
Lemma add180_pos (x : float) :
  Fin x -> 0 < V x -> c180 <= V (add x f180).
Proof.
  intros Fx Px. destruct (add180_value Fx) as [_ Ev]. rewrite Ev.
  assert (P180 : 0 < c180) by reflexivity.
  rewrite Z.sgn_pos, Z.abs_eq, Z.mul_1_l by lia.
  set (v := V x + c180).
  destruct (Z_lt_ge_dec v (2 ^ 1082)) as [L|G].
  - apply nearest_ge; [unfold v; lia|unfold v; lia|]. intro S.
    apply c180_grid.
    assert (digits v <= 1082) by (apply digits_le; unfold v in *; lia). lia.
  - pose proof c180_lt_pow.
    assert (2 ^ 1082 <= nearest v) by (apply nearest_ge_pow2; lia). lia.
Qed.

(** With [x > 0], the difference [y0] is [-180] only when the remainder of
    the sum is zero. *)
Lemma y0_m180_inv (x : float) :
  Fin x -> 0 < V x -> V (y0 x) = - c180 ->
  V (rem (add x f180) f360) = 0 /\ V (add x f180) mod c360 = 0.
Proof.
  intros Fx Px E.
  destruct (y0_value Fx) as [Fr [Nr [Br Ey]]].
  pose proof (Fin_add180 Fx) as Fs.
  destruct (rem_grid Fs (add180_pos Fx Px)) as [Em G].
  set (r := rem (add x f180) f360) in *.
  assert (P180 : 0 < c180) by reflexivity.
  destruct G as [Z0|G]; [split; [exact Z0|rewrite <- Em; exact Z0]|exfalso].
  rewrite Ey in E.
  destruct (Z_lt_ge_dec (V r) c180) as [L|Ge].
  - rewrite Z.sgn_neg, Z.abs_neq in E by lia.
    assert (nearest (- (V r - c180)) <= c180 - 2 ^ 1030).
    { apply nearest_below; [left; reflexivity|lia|].
      intros _. apply digits_le. pose proof c180_lt_pow. lia. }
    assert (0 < 2 ^ 1030) by reflexivity. lia.
  - destruct (Z.eq_dec (V r) c180) as [Q|Q].
    + rewrite Q, Z.sub_diag in E. cbn in E. lia.
    + rewrite Z.sgn_pos, Z.abs_eq in E by lia.
      pose proof (@nearest_pos (V r - c180) ltac:(lia)). lia.
Qed.

(** The difference [y0] is [+180] only for the double just below [-180]. *)
Lemma y0_180_inv (x : float) :
  Fin x -> V (y0 x) = c180 -> V x = - c180 - 2 ^ 1029.
Proof.
  intros Fx E.
  destruct (y0_value Fx) as [Fr [Nr [Br Ey]]].
  destruct (add180_value Fx) as [Fs Es].
  pose proof (rem360_value Fs) as Er.
  set (s := add x f180) in *. set (r := rem s f360) in *.
  assert (P180 : 0 < c180) by reflexivity.
  assert (P360 : 0 < c360) by reflexivity.
  assert (E360 : c360 = 2 * c180) by reflexivity.
  assert (P30 : 0 < 2 ^ 1030) by reflexivity.
  pose proof c180_ge_pow as G180. pose proof c360_ge_pow as G360.
  pose proof c180_lt_pow as L180. pose proof c360_lt_pow as L360.
  (* the remainder is 360 *)
  assert (R360 : V r = c360).
  { rewrite Ey in E.
    destruct (Z_le_gt_dec (V r) c180) as [L|G].
    - destruct (Z.eq_dec (V r) c180) as [Q|Q];
        [rewrite Q, Z.sub_diag in E; cbn in E; lia|].
      rewrite Z.sgn_neg in E by lia.
      pose proof (@nearest_pos (Z.abs (V r - c180)) ltac:(lia)). lia.
    - rewrite Z.sgn_pos, Z.abs_eq, Z.mul_1_l in E by lia.
      destruct (Z_le_gt_dec (V r) (c360 - 2 ^ 1030)) as [L|G'].
      + assert (nearest (V r - c180) <= c180 - 2 ^ 1030).
        { apply nearest_below; [left; reflexivity|lia|].
          intros _. apply digits_le. lia. }
        lia.
      + assert (Gr : Z.abs (V r) mod 2 ^ (1082 - 52) = 0).
        { apply coarse_grid; [exact Fr|lia|]. rewrite Z.abs_eq by lia. lia. }
        rewrite Z.abs_eq in Gr by lia. change (1082 - 52) with 1030 in Gr.
        assert (Gd : (c360 - V r) mod 2 ^ 1030 = 0).
        { apply mod_sub_0; [exact P30|apply c360_grid; lia|exact Gr]. }
        destruct (Z.eq_dec (V r) c360) as [Q|Q]; [exact Q|exfalso].
        pose proof (@multiple_ge (c360 - V r) (2 ^ 1030) P30 Gd ltac:(lia)).
        lia. }
  (* so the sum is negative, and small *)
  rewrite R360 in Er.
  destruct (0 <=? V s) eqn:Sg.
  { pose proof (Z.mod_pos_bound (V s) c360 P360). lia. }
  apply Z.leb_gt in Sg. cbv zeta in Er.
  pose proof (Z.mod_pos_bound (- V s) c360 P360) as BR.
  set (RR := (- V s) mod c360) in *.
  destruct (RR =? 0) eqn:E0; [lia|]. apply Z.eqb_neq in E0.
  assert (Small : - V s < 2 ^ 1030).
  { destruct (Z_lt_ge_dec (- V s) (2 ^ 1030)) as [L|G]; [exact L|exfalso].
    assert (GR : 2 ^ 1030 <= RR).
    { destruct (Z_lt_ge_dec (- V s) c360) as [L|G'].
      - unfold RR. rewrite Z.mod_small by lia. lia.
      - assert (Gs : Z.abs (V s) mod 2 ^ (1082 - 52) = 0).
        { apply coarse_grid; [exact Fs|lia|]. rewrite Z.abs_neq by lia. lia. }
        rewrite Z.abs_neq in Gs by lia. change (1082 - 52) with 1030 in Gs.
        apply multiple_ge; [exact P30| |lia].
        apply mod_grid; [exact P30|exact P360|exact Gs|apply c360_grid; lia]. }
    assert (nearest (c360 - RR) <= c360 - 2 ^ 1030).
    { apply nearest_below; [right; reflexivity|lia|]. intro Q. lia. }
    lia. }
  (* the sum is the rounded value of x + 180 *)
  assert (Nv : V x + c180 < 0).
  { destruct (Z_lt_ge_dec (V x + c180) 0) as [L|G]; [exact L|exfalso].
    destruct (Z.eq_dec (V x + c180) 0) as [Q|Q].
    - rewrite Q in Es. cbn in Es. lia.
    - rewrite Z.sgn_pos in Es by lia.
      pose proof (@nearest_pos (Z.abs (V x + c180)) ltac:(lia)). lia. }
  rewrite Z.sgn_neg, Z.abs_neq in Es by lia.
  set (v := - (V x + c180)) in *.
  assert (Lv : v < 2 ^ 1030).
  { destruct (Z_lt_ge_dec v (2 ^ 1030)) as [L|G]; [exact L|exfalso].
    pose proof (@nearest_ge_pow2 v 1030 ltac:(lia) ltac:(lia)). lia. }
  assert (Gx : Z.abs (V x) mod 2 ^ (1081 - 52) = 0).
  { apply coarse_grid; [exact Fx|lia|]. rewrite Z.abs_neq by lia. lia. }
  rewrite Z.abs_neq in Gx by lia. change (1081 - 52) with 1029 in Gx.
  assert (P29 : 0 < 2 ^ 1029) by reflexivity.
  assert (Gv : v mod 2 ^ 1029 = 0).
  { replace v with (- V x - c180) by (unfold v; lia).
    apply mod_sub_0; [exact P29|exact Gx|apply c180_grid; lia]. }
  apply Z.mod_divide in Gv; [|lia]. destruct Gv as [q Eq].
  rewrite pow1030 in Lv.
  assert (q = 1) by nia. subst q. unfold v in Eq. lia.
Qed.

Lemma below_m180_unique (x : float) :
  Fin x -> V x = - c180 - 2 ^ 1029 -> x = below_m180.
Proof.
  intros Fx E.
  assert (Nx : x <> nzero) by (intro Q; rewrite Q in E; vm_compute in E; discriminate E).
  assert (Fb : Fin below_m180) by (split; vm_compute; reflexivity).
  assert (Vb : V below_m180 = - c180 - 2 ^ 1029) by (vm_compute; reflexivity).
  rewrite <- (rnd_canonical Fx Nx), E, <- Vb.
  apply rnd_canonical; [exact Fb|discriminate].
Qed.

Lemma rem_zero_pzero (s : float) :
  Fin s -> V (rem s f360) = 0 -> rem s f360 = pzero.
Proof.
  intros Fs E. destruct (float_rem360_range Fs) as [Fr [Nr _]].
  destruct (V_zero_inv Fr E) as [[|] Q]; [contradiction|exact Q].
Qed.

Lemma y0_of_zero_rem (x : float) :
  rem (add x f180) f360 = pzero -> y0 x = fm180.
Proof. intro E. unfold y0. rewrite E. vm_compute. reflexivity. Qed.

Lemma odd_pow2_div (a n m : Z) :
  Z.odd a = true -> 0 <= m -> 0 <= n -> (a * 2 ^ m) mod 2 ^ n = 0 -> n <= m.
Proof.
  intros Ho Hm Hn H.
  destruct (Z_le_gt_dec n m) as [L|G]; [exact L|exfalso].
  replace n with ((n - m) + m) in H by lia.
  rewrite Z.pow_add_r in H by lia.
  assert (Pm : 0 < 2 ^ m) by (apply Z.pow_pos_nonneg; lia).
  assert (Pd : 0 < 2 ^ (n - m)) by (apply Z.pow_pos_nonneg; lia).
  rewrite Z.mul_mod_distr_r in H by lia.
  assert (Q : a mod 2 ^ (n - m) = 0) by nia.
  replace (n - m) with (1 + (n - m - 1)) in Q by lia.
  rewrite Z.pow_add_r in Q by lia. change (2 ^ 1) with 2 in Q.
  apply Z.mod_divide in Q.
  - destruct Q as [q Eq]. rewrite Eq in Ho.
    replace (q * (2 * 2 ^ (n - m - 1))) with (2 * (q * 2 ^ (n - m - 1))) in Ho by lia.
    rewrite Z.odd_mul in Ho. cbn in Ho. discriminate Ho.
  - assert (0 < 2 ^ (n - m - 1)) by (apply Z.pow_pos_nonneg; lia). lia.
Qed.

Lemma c180_factors : c180 = 45 * 2 ^ 1076.
Proof. reflexivity. Qed.

(** For a double of the class [180 + 360 k] the sum [x + 180.0] is exact. *)
Lemma class_sum (x : float) (k : Z) :
  Fin x -> V x = c180 + k * c360 -> V (add x f180) = (k + 1) * c360.
Proof.
  intros Fx E. destruct (add180_value Fx) as [_ Ev]. rewrite Ev.
  assert (P180 : 0 < c180) by reflexivity.
  assert (E360 : c360 = 2 * c180) by reflexivity.
  pose proof c180_ge_pow as G180.
  assert (Es : V x + c180 = (k + 1) * c360) by lia. rewrite Es.
  destruct (Z.eq_dec (k + 1) 0) as [Z0|N0]; [rewrite Z0; reflexivity|].
  set (v := Z.abs ((k + 1) * c360)).
  assert (Pv : 0 < v) by (unfold v; nia).
  assert (Nn : nearest v = v).
  { apply nearest_divisible; [exact Pv|].
    destruct (Z_le_gt_dec (digits v) 53) as [A|A]; [left; exact A|right].
    (* the grid of x *)
    set (a := Z.abs (V x)).
    assert (Ea : a = Z.abs (2 * k + 1) * 45 * 2 ^ 1076).
    { unfold a. rewrite E, E360, c180_factors.
      replace (45 * 2 ^ 1076 + k * (2 * (45 * 2 ^ 1076)))
        with ((2 * k + 1) * (45 * 2 ^ 1076)) by lia.
      rewrite Z.abs_mul, (Z.abs_eq (45 * 2 ^ 1076)) by (vm_compute; discriminate).
      lia. }
    assert (Ga : 2 ^ 1081 <= a) by (unfold a; nia).
    assert (Pa : 0 < a) by lia.
    pose proof (@digits_ge a 1082 ltac:(exact Ga) ltac:(lia)) as Da.
    assert (Gx : a mod 2 ^ (digits a - 53) = 0).
    { unfold a. rewrite <- (valid_nearest Fx Pa) at 1.
      apply nearest_grid; [exact Pa|fold a; lia]. }
    rewrite Ea in Gx at 1.
    assert (Lx : digits a - 53 <= 1076).
    { apply odd_pow2_div with (a := Z.abs (2 * k + 1) * 45); [|lia|lia|exact Gx].
      rewrite Z.odd_mul.
      destruct (Z.abs_eq_or_opp (2 * k + 1)) as [Q|Q]; rewrite Q;
        [|rewrite Z.odd_opp];
        replace (2 * k + 1) with (1 + 2 * k) by lia;
        rewrite Z.odd_add_mul_2; reflexivity. }
    assert (Lv : v <= 2 * a).
    { assert (Q1 : v = Z.abs (2 * k + 2) * c180).
      { unfold v. rewrite E360.
        replace ((k + 1) * (2 * c180)) with ((2 * k + 2) * c180) by lia.
        rewrite Z.abs_mul, (Z.abs_eq c180) by lia. reflexivity. }
      assert (Q2 : a = Z.abs (2 * k + 1) * c180)
        by (rewrite Ea, c180_factors; ring).
      assert (Q3 : Z.abs (2 * k + 2) <= 2 * Z.abs (2 * k + 1)) by lia.
      rewrite Q1, Q2. nia. }
    pose proof (digits_bounds Pa) as Ba.
    assert (Dv : digits v <= digits a + 1).
    { apply digits_le. split; [exact Pv|].
      rewrite Z.pow_add_r by lia. change (2 ^ 1) with 2. lia. }
    assert (Ev' : v = Z.abs (k + 1) * c360)
      by (unfold v; rewrite Z.abs_mul, (Z.abs_eq c360); lia).
    rewrite Ev' at 1.
    rewrite Z.mul_mod by (apply Z.pow_nonzero; lia).
    rewrite (c360_grid (n := digits v - 53)) by lia.
    rewrite Z.mul_0_r. apply Z.mod_0_l. apply Z.pow_nonzero; lia. }
  rewrite Nn. unfold v. lia.
Qed.

(** When the sum [x + 180.0] is a whole number of turns, [y0] is [-180]. *)
Lemma y0_of_whole_turns (x : float) (j : Z) :
  Fin x -> V (add x f180) = j * c360 -> y0 x = fm180.
Proof.
  intros Fx E. pose proof (Fin_add180 Fx) as Fs.
  apply y0_of_zero_rem, (rem_zero_pzero Fs).
  rewrite (rem360_value Fs), E.
  assert (P360 : 0 < c360) by reflexivity.
  destruct (0 <=? j * c360).
  - apply Z.mod_mul. lia.
  - cbv zeta. replace (- (j * c360)) with ((- j) * c360) by lia.
    rewrite Z.mod_mul by lia. reflexivity.
Qed.

(** C2, as the code has it, on doubles.  For every finite double [x] the
    call returns a finite double of [[-180, 180]].  The result is [+180]
    exactly when [x > 0] and the float sum [x + 180.0] is a whole number of
    turns, or [x] is the double just below [-180].  So a double of the class
    [180 + 360 k] returns [+180] when [k >= 0] and [-180] when [k < 0]. *)
Theorem normalize_lon_edge_seam_b64 (x : float) :
  valid_binary prec emax x = true -> is_finite x = true ->
  exists y : float,
    normalize_lon_edge x = Ok y /\ is_finite y = true /\
    f_leb fm180 y = true /\ f_leb y f180 = true /\
    (y = f180 <->
     (f_ltb f0 x = true /\ exists j : Z, V (f_add x f180) = j * c360) \/
     x = below_m180) /\
    (forall k : Z, V x = c180 + k * c360 ->
       y = if 0 <=? k then f180 else fm180).
Proof.
  intros Hv Hf. assert (Fx : Fin x) by (split; assumption).
  assert (P180 : 0 < c180) by reflexivity.
  assert (P360 : 0 < c360) by reflexivity.
  assert (E360 : c360 = 2 * c180) by reflexivity.
  destruct (y0_props Fx) as [Fy [Ny [By _]]].
  rewrite edge_value.
  change (f_ltb f0 x) with (ltb f0 x). change (f_add x f180) with (add x f180).
  destruct (eqb (y0 x) fm180 && ltb f0 x) eqn:T.
  - apply andb_true_iff in T. destruct T as [T1 T2].
    rewrite (eqb_V Fy Fin_fm180), V_fm180 in T1. apply Z.eqb_eq in T1.
    pose proof T2 as T2'. rewrite (ltb_V Fin_f0 Fx), V_f0 in T2'.
    apply Z.ltb_lt in T2'.
    exists f180. split; [reflexivity|].
    split; [reflexivity|]. split; [vm_compute; reflexivity|].
    split; [vm_compute; reflexivity|]. split.
    + split; [intros _; left|intros _; reflexivity].
      split; [exact T2|].
      destruct (y0_m180_inv Fx T2' T1) as [_ M].
      exists (V (add x f180) / c360).
      apply Z.mod_divide in M; [|lia]. destruct M as [q Eq].
      rewrite Eq, Z.div_mul by lia. reflexivity.
    + intros k Ek.
      replace (0 <=? k) with true; [reflexivity|].
      symmetry. apply Z.leb_le. nia.
  - exists (y0 x). split; [reflexivity|].
    split; [apply is_finite_Fin, Fy|].
    change (f_leb fm180 (y0 x)) with (leb fm180 (y0 x)).
    change (f_leb (y0 x) f180) with (leb (y0 x) f180).
    rewrite (leb_V Fin_fm180 Fy), (leb_V Fy Fin_f180), V_fm180, V_f180.
    split; [apply Z.leb_le; lia|]. split; [apply Z.leb_le; lia|].
    assert (Whole : forall j : Z, 0 < V x -> V (add x f180) = j * c360 -> False).
    { intros j Px Ej.
      rewrite (y0_of_whole_turns j Fx Ej) in T.
      replace (ltb f0 x) with true in T
        by (symmetry; rewrite (ltb_V Fin_f0 Fx), V_f0; apply Z.ltb_lt; exact Px).
      vm_compute in T. discriminate T. }
    split.
    + split.
      * intro E. right. apply (below_m180_unique Fx), (y0_180_inv Fx).
        rewrite E. apply V_f180.
      * intros [[Px [j Ej]]|Eb].
        -- exfalso. rewrite (ltb_V Fin_f0 Fx), V_f0 in Px. apply Z.ltb_lt in Px.
           exact (Whole j Px Ej).
        -- rewrite Eb. vm_compute. reflexivity.
    + intros k Ek. pose proof (class_sum k Fx Ek) as Es.
      destruct (0 <=? k) eqn:K.
      * exfalso. apply Z.leb_le in K. apply (Whole (k + 1)); [nia|exact Es].
      * apply (y0_of_whole_turns (k + 1) Fx Es).
Qed.

Lemma normalize_lon_edge_seam_b64_witness :
  exists y : float,
    normalize_lon_edge (f_dec 5400 1 : float) = Ok y /\ is_finite y = true /\
    f_leb fm180 y = true /\ f_leb y f180 = true /\
    (y = f180 <->
     (f_ltb f0 (f_dec 5400 1 : float) = true /\
      exists j : Z, V (f_add (f_dec 5400 1) f180) = j * c360) \/
     f_dec 5400 1 = below_m180) /\
    (forall k : Z, V (f_dec 5400 1) = c180 + k * c360 ->
       y = if 0 <=? k then f180 else fm180).
Proof.
  apply (@normalize_lon_edge_seam_b64 (f_dec 5400 1)); vm_compute; reflexivity.
Defined.

End Binary64Seam.

(** * One-point covers on doubles *)

Module Binary64Cover.
Import Binary64 Binary64Theory Binary64Defs Data Generic Structure Binary64Engine Binary64Rounding Binary64Seam.

Local Open Scope Z_scope.

(** The value of [lon360_to_edge(p % 360.0)]: it is in [(-180, 180]], it
    is the value of [p] moved by whole turns when [p >= 0], and within
    [2^-45] of it when [p < 0], where the sum with [360.0] is rounded. *)
Lemma edge_of_rem_value (p : float) :
  Fin p ->
  let w := lon360_to_edge (rem p f360) in
  Fin w /\ - c180 < V w <= c180 /\
  exists k : Z,
    Z.abs (V w - (V p + k * c360)) <= 2 ^ 1029 /\
    (0 <= V p -> V w = V p + k * c360).
Proof.
  intros Fp w.
  destruct (float_rem360_range Fp) as [Fr [Nr Br]].
  destruct (lon360_to_edge_props Fr Br) as [Fw [Bw Cw]]. fold w in Fw, Bw, Cw.
  split; [exact Fw|]. split; [exact Bw|].
  pose proof (rem360_value Fp) as Er.
  assert (P360 : 0 < c360) by reflexivity.
  assert (P29 : 0 < 2 ^ 1029) by reflexivity.
  assert (E360 : c360 = 2 * c180) by reflexivity.
  assert (P180 : 0 < c180) by reflexivity.
  destruct (0 <=? V p) eqn:Sg.
  - apply Z.leb_le in Sg.
    pose proof (Z.div_mod (V p) c360 ltac:(lia)) as Dm.
    destruct Cw as [Cw|Cw].
    + exists (- (V p / c360)).
      assert (V w = V p + - (V p / c360) * c360) by lia.
      split; [|intros _; assumption].
      replace (V w - (V p + - (V p / c360) * c360)) with 0 by lia. cbn. lia.
    + exists (- (V p / c360) - 1).
      assert (V w = V p + (- (V p / c360) - 1) * c360) by lia.
      split; [|intros _; assumption].
      replace (V w - (V p + (- (V p / c360) - 1) * c360)) with 0 by lia. cbn. lia.
  - apply Z.leb_gt in Sg. cbv zeta in Er.
    pose proof (Z.div_mod (- V p) c360 ltac:(lia)) as Dm.
    pose proof (Z.mod_pos_bound (- V p) c360 P360) as BR.
    set (RR := (- V p) mod c360) in *. set (q := (- V p) / c360) in *.
    destruct (RR =? 0) eqn:E0.
    + apply Z.eqb_eq in E0. exists q.
      assert (V w = 0) by lia.
      split; [|intro; lia].
      replace (V w - (V p + q * c360)) with 0 by lia. cbn. lia.
    + apply Z.eqb_neq in E0.
      pose proof (@nearest_error (c360 - RR) 1083 ltac:(lia)
                    ltac:(apply c360_digits; lia) ltac:(lia)) as Ne.
      change (1083 - 54) with 1029 in Ne.
      destruct Cw as [Cw|Cw].
      * exists (q + 1). split; [|intro; lia].
        replace (V w - (V p + (q + 1) * c360))
          with (nearest (c360 - RR) - (c360 - RR)) by lia.
        exact Ne.
      * exists q. split; [|intro; lia].
        replace (V w - (V p + q * c360))
          with (nearest (c360 - RR) - (c360 - RR)) by lia.
        exact Ne.
Qed.

(** C7, as the code has it, on doubles.  For a finite [p] the covering
    interval of the one-point list [[p]] is the pair [(w, w)], with
    [west == east]; [w] is a finite double of [(-180, 180]], so [-180] is
    given as [+180].  Its value is the value of [p] moved by whole turns:
    exactly when [p >= 0], and up to [2^-45] degrees when [p < 0], where
    the float sum with [360.0] is rounded.  For [0 <= p <= 180] the result
    is [(p, p)]. *)
Theorem single_point_cover_b64 (p : float) :
  valid_binary prec emax p = true -> is_finite p = true ->
  exists w : float,
    circular_min_cover_interval [p] = Ok (Some (w, w)) /\
    is_finite w = true /\ f_eqb w w = true /\
    f_ltb fm180 w = true /\ f_leb w f180 = true /\
    (exists k : Z,
        Z.abs (V w - (V p + k * c360)) <= 2 ^ 1029 /\
        (0 <= V p -> V w = V p + k * c360)) /\
    (f_leb f0 p = true -> f_leb p f180 = true -> f_eqb w p = true).
Proof.
  intros Hv Hf. assert (Fp : Fin p) by (split; assumption).
  destruct (edge_of_rem_value Fp) as [Fw [Bw [k [Ek Xk]]]].
  exists (lon360_to_edge (rem p f360)).
  set (w := lon360_to_edge (rem p f360)) in *.
  assert (E360 : c360 = 2 * c180) by reflexivity.
  split; [reflexivity|]. split; [apply is_finite_Fin, Fw|].
  change (f_eqb w w) with (eqb w w). change (f_ltb fm180 w) with (ltb fm180 w).
  change (f_leb w f180) with (leb w f180).
  rewrite (eqb_V Fw Fw), (ltb_V Fin_fm180 Fw), (leb_V Fw Fin_f180).
  rewrite V_fm180, V_f180.
  split; [apply Z.eqb_refl|]. split; [apply Z.ltb_lt; lia|].
  split; [apply Z.leb_le; lia|]. split.
  - exists k. split; assumption.
  - change (f_leb f0 p) with (leb f0 p). change (f_leb p f180) with (leb p f180).
    change (f_eqb w p) with (eqb w p).
    rewrite (leb_V Fin_f0 Fp), (leb_V Fp Fin_f180), (eqb_V Fw Fp), V_f0, V_f180.
    intros L0 L180. apply Z.leb_le in L0, L180. apply Z.eqb_eq.
    specialize (Xk L0). assert (P180 : 0 < c180) by reflexivity.
    destruct (Z.eq_dec k 0) as [K0|K0]; [rewrite K0 in Xk; lia|exfalso].
    assert (K : k <= -1 \/ 1 <= k) by lia.
    destruct K; nia.
Qed.

Lemma single_point_cover_b64_witness :
  exists w : float,
    circular_min_cover_interval [f_dec (-740060) 4 : float] = Ok (Some (w, w)) /\
    is_finite w = true /\ f_eqb w w = true /\
    f_ltb fm180 w = true /\ f_leb w f180 = true /\
    (exists k : Z,
        Z.abs (V w - (V (f_dec (-740060) 4) + k * c360)) <= 2 ^ 1029 /\
        (0 <= V (f_dec (-740060) 4) -> V w = V (f_dec (-740060) 4) + k * c360)) /\
    (f_leb f0 (f_dec (-740060) 4 : float) = true ->
     f_leb (f_dec (-740060) 4 : float) f180 = true ->
     f_eqb w (f_dec (-740060) 4) = true).
Proof.
  apply (@single_point_cover_b64 (f_dec (-740060) 4)); vm_compute; reflexivity.
Defined.

End Binary64Cover.

(** * The zones a range query returns, for every arithmetic *)

Module RangeStructure.
Section RangeStructure.

Context {F : Type} `{PyFloat F}.

(** The loop over the zones keeps those that are hit, in order. *)
Lemma collect_covered_filter (parts : list (F * F)) (zs : list (@ZoneInterval F))
      (h : @ZoneInterval F -> bool) :
  (forall zi, In zi zs -> zone_hit parts zi = Ok (h zi)) ->
  collect_covered parts zs = Ok (filter h zs).
Proof.
  induction zs as [|zi zs IH]; intro Hh; [reflexivity|].
  cbn [collect_covered filter].
  rewrite (Hh zi (or_introl eq_refl)). cbn [bind].
  rewrite IH by (intros z I; apply Hh; right; exact I). cbn [bind].
  destruct (h zi); reflexivity.
Qed.

Lemma insert_by_zone_front (z : @ZoneInterval F) (l : list (@ZoneInterval F)) :
  (forall y, In y l -> (zone z < zone y)%Z) -> insert_by_zone z l = z :: l.
Proof.
  intro Hl. destruct l as [|y l]; [reflexivity|]. cbn [insert_by_zone].
  replace (zone z <? zone y)%Z with true; [reflexivity|].
  symmetry. apply Z.ltb_lt, Hl. left; reflexivity.
Qed.

Lemma sort_by_zone_desc_acc (l acc : list (@ZoneInterval F)) :
  StronglySorted (fun a b => (zone b < zone a)%Z) l ->
  (forall a b, In a l -> In b acc -> (zone a < zone b)%Z) ->
  fold_left (fun acc z => insert_by_zone z acc) l acc = rev l ++ acc.
Proof.
  revert acc. induction l as [|a l IH]; intros acc S Hacc; [reflexivity|].
  apply StronglySorted_inv in S. destruct S as [S Fa].
  cbn [fold_left rev].
  rewrite insert_by_zone_front
    by (intros y Iy; apply (Hacc a y); [left; reflexivity|exact Iy]).
  rewrite IH; [rewrite <- app_assoc; reflexivity|exact S|].
  intros a' b Ia Ib. destruct Ib as [<-|Ib].
  - rewrite Forall_forall in Fa. apply Fa, Ia.
  - apply Hacc; [right; exact Ia|exact Ib].
Qed.

(** Sorting by zone a list whose zone numbers descend reverses it. *)
Lemma sort_by_zone_desc (l : list (@ZoneInterval F)) :
  StronglySorted (fun a b => (zone b < zone a)%Z) l -> sort_by_zone l = rev l.
Proof.
  intro S. unfold sort_by_zone.
  rewrite (@sort_by_zone_desc_acc l [] S) by (intros ? ? ? []).
  apply app_nil_r.
Qed.

Lemma descending_filter (h : @ZoneInterval F -> bool) (l : list (@ZoneInterval F)) :
  StronglySorted (fun a b => (zone b < zone a)%Z) l ->
  StronglySorted (fun a b => (zone b < zone a)%Z) (filter h l).
Proof.
  induction l as [|a l IH]; intro S; [constructor|].
  apply StronglySorted_inv in S. destruct S as [S Fa]. cbn [filter].
  destruct (h a); [|apply IH, S].
  constructor; [apply IH, S|].
  rewrite Forall_forall in *. intros x Ix. apply filter_In in Ix.
  apply Fa, Ix.
Qed.

Lemma zones_descend (zs : list (@ZoneInterval F)) :
  map zone zs = [9; 8; 7; 6; 5; 4; 3; 2; 1; 0]%Z ->
  StronglySorted (fun a b => (zone b < zone a)%Z) zs.
Proof.
  intro E.
  do 10 (destruct zs as [|? zs]; [discriminate E|]).
  destruct zs; [|discriminate E].
  cbn [map] in E. injection E as E9 E8 E7 E6 E5 E4 E3 E2 E1 E0.
  repeat (constructor; [|repeat (constructor; [lia|]); constructor]).
  constructor.
Qed.

(** The zones a range query returns, from the flag of each zone. *)
Lemma zones_covered_filter (w e b : F) (parts : list (F * F))
      (zs : list (@ZoneInterval F)) (h : @ZoneInterval F -> bool) :
  split_range w e = Ok parts -> build_zone_intervals b = Ok zs ->
  (forall zi, In zi zs -> zone_hit parts zi = Ok (h zi)) ->
  zones_covered_by_lon_range w e b = Ok (filter h (rev zs)).
Proof.
  intros Ep Ez Hh. unfold zones_covered_by_lon_range.
  rewrite Ep, Ez. cbn [bind]. rewrite (collect_covered_filter _ _ h Hh). cbn [bind].
  pose proof (zones_descend _ (Structure.build_zone_numbers _ Ez)) as D.
  rewrite (sort_by_zone_desc (descending_filter h D)).
  rewrite filter_rev. reflexivity.
Qed.

End RangeStructure.
End RangeStructure.

(** * Range queries on doubles *)

Module Binary64Ranges.
Import Binary64 Binary64Theory Binary64Defs Data Generic Structure Binary64Engine RangeStructure Binary64Rounding Binary64Seam.

Local Open Scope Z_scope.

(** An output of [normalize_lon_point] is a finite double of [[-180, 180)]
    that [normalize_lon_edge] leaves as it is. *)
Lemma point_out (x : float) :
  Fin x ->
  exists y : float,
    normalize_lon_point x = Ok y /\ Fin y /\ - c180 <= V y < c180 /\
    normalize_lon_edge y = Ok y.
Proof.
  intro Fx.
  destruct (normalize_lon_point_range Fx) as [p [Ep [Fp [Np [Bp Xp]]]]].
  exists p. split; [exact Ep|]. split; [exact Fp|]. split; [exact Bp|].
  rewrite edge_value. rewrite (y0_fixed Fp Np Bp Xp).
  destruct (eqb p fm180) eqn:Q; [|reflexivity].
  rewrite fm180_rep in Q. apply eqb_finite_eq in Q. rewrite Q. reflexivity.
Qed.

Lemma zone_at_edges (o : float) (k : Z) :
  Fin o -> - c180 <= V o < c180 -> 0 <= k <= 16 ->
  exists zi : ZoneInterval, zone_at o k = Ok zi /\ zone_edges_ok zi.
Proof.
  intros Fo Bo K. unfold zone_at.
  destruct (offset_props K) as [Fc Vc].
  pose proof c180_lt_thr as Thr. pose proof deg_pos as Pd.
  assert (Fa : Fin (f_add o (f_mul (f_of_int k) ZONE_WIDTH_DEG))).
  { apply Fin_add; [exact Fo|exact Fc|]. rewrite Vc.
    assert (0 <= k * deg <= 16 * deg) by nia. unfold c180 in *. lia. }
  destruct (point_out Fa) as [w [Ew [Fw [Bw Iw]]]]. rewrite Ew, bind_ok.
  assert (Fb : Fin (f_add w ZONE_WIDTH_DEG)).
  { apply Fin_add; [exact Fw|apply Fin_width|]. rewrite V_width.
    unfold c180 in *. lia. }
  destruct (point_out Fb) as [e [Ee [Fe [Be Ie]]]]. rewrite Ee, bind_ok.
  eexists. split; [reflexivity|]. unfold zone_edges_ok. cbn [zone west east].
  split; [split; [exact Fw|split; [exact Bw|exact Iw]]|].
  split; [split; [exact Fe|split; [exact Be|exact Ie]]|exact Ee].
Qed.

Lemma build_edges (b : float) :
  Fin b ->
  exists zs : list ZoneInterval,
    build_zone_intervals b = Ok zs /\ Forall zone_edges_ok zs.
Proof.
  intro Fb.
  destruct (origin_props Fb) as [o [Eo [Fo Bo]]].
  destruct (build_total b) as [zs E]. exists zs. split; [exact E|].
  unfold build_zone_intervals in E. rewrite Eo, bind_ok in E.
  apply map_result_ok in E. apply Forall_forall. intros zi I.
  destruct (Forall2_In_r zi E I) as [k [Ik Ek]].
  destruct (@zone_at_edges o k Fo Bo) as [zi' [E' R]].
  { unfold range10 in Ik. cbn [In] in Ik. lia. }
  rewrite E' in Ek. injection Ek as <-. exact R.
Qed.

(** The segments of a zone *)
Lemma zone_parts (zi : ZoneInterval) :
  zone_edges_ok zi ->
  split_range (west zi) (east zi) =
  Ok (if f_leb (west zi) (east zi) then [(west zi, east zi)]
      else [(west zi, f180); (fm180, east zi)]).
Proof.
  intros [[_ [_ Iw]] [[_ [_ Ie]] _]]. apply split_range_shape; assumption.
Qed.

(** The flag of a zone for the one-point query [(w, w)] *)
Lemma zone_hit_point (w : float) (zi : ZoneInterval) :
  zone_edges_ok zi ->
  zone_hit [(w, w)] zi = Ok (strictly_inside zi w).
Proof.
  intro Z. unfold zone_hit. rewrite (zone_parts Z). cbn [bind].
  unfold strictly_inside.
  destruct (f_leb (west zi) (east zi)); cbn [existsb ranges_intersect].
  - rewrite !orb_false_r. f_equal. apply andb_comm.
  - rewrite !orb_false_r. f_equal. f_equal; apply andb_comm.
Qed.

(** C9, as the code has it, on doubles.  For the degenerate range [(p, p)]
    of a finite [p], with [w] the edge form of [p], the call returns, in
    ascending order of zone number, exactly the zones that hold [w]
    strictly between their edges: inside [(west, east)], or for a zone that
    runs through the seam inside [(west, 180)] or [(-180, east)].  A point
    on an edge of a zone is not in that zone, and the seam is in none. *)
Theorem degenerate_range_b64 (p b : float) :
  valid_binary prec emax p = true -> is_finite p = true ->
  valid_binary prec emax b = true -> is_finite b = true ->
  exists (w : float) (zs : list ZoneInterval),
    normalize_lon_edge p = Ok w /\ build_zone_intervals b = Ok zs /\
    zones_covered_by_lon_range p p b
    = Ok (filter (fun zi => strictly_inside zi w) (rev zs)).
Proof.
  intros Vp Fp Vb Fb.
  destruct (@edge_props p (conj Vp Fp)) as [w [Ew [Fw _]]].
  destruct (@build_edges b (conj Vb Fb)) as [zs [Ez Hz]].
  exists w, zs. split; [exact Ew|]. split; [exact Ez|].
  apply zones_covered_filter with (parts := [(w, w)]); [|exact Ez|].
  - rewrite (split_range_shape _ _ Ew Ew).
    change (f_leb w w) with (leb w w). rewrite (leb_V Fw Fw), Z.leb_refl.
    reflexivity.
  - intros zi I. apply zone_hit_point. rewrite Forall_forall in Hz. apply Hz, I.
Qed.

Lemma degenerate_range_b64_witness :
  exists (w : float) (zs : list ZoneInterval),
    normalize_lon_edge (f_dec 100 1 : float) = Ok w /\
    build_zone_intervals LANGFANG_LON_EAST_BOUNDARY = Ok zs /\
    zones_covered_by_lon_range (f_dec 100 1) (f_dec 100 1) LANGFANG_LON_EAST_BOUNDARY
    = Ok (filter (fun zi => strictly_inside zi w) (rev zs)).
Proof.
  apply (@degenerate_range_b64 (f_dec 100 1) LANGFANG_LON_EAST_BOUNDARY);
    vm_compute; reflexivity.
Defined.

Lemma value_m180 (y : float) : Fin y -> V y = - c180 -> y = fm180.
Proof.
  intros Fy E.
  assert (Ny : y <> nzero) by (intro Q; rewrite Q in E; vm_compute in E; discriminate E).
  rewrite <- (rnd_canonical Fy Ny), E, <- V_fm180.
  apply rnd_canonical; [apply Fin_fm180|discriminate].
Qed.

(** The flag of a zone for the whole-globe query [(-180, 180)] *)
Lemma zone_hit_globe (zi : ZoneInterval) :
  zone_edges_ok zi -> zone_hit [(fm180, f180)] zi = Ok true.
Proof.
  intro Z. unfold zone_hit. rewrite (zone_parts Z). cbn [bind].
  destruct Z as [[Fw [Bw _]] [[Fe [Be _]] Ee]].
  assert (P180 : 0 < c180) by reflexivity.
  assert (Lw : f_ltb (west zi) f180 = true).
  { change (ltb (west zi) f180 = true).
    rewrite (ltb_V Fw Fin_f180), V_f180. apply Z.ltb_lt. lia. }
  assert (L180 : f_ltb (fm180 : float) f180 = true) by (vm_compute; reflexivity).
  change (f_leb (west zi) (east zi)) with (leb (west zi) (east zi)).
  rewrite (leb_V Fw Fe).
  destruct (V (west zi) <=? V (east zi)) eqn:L; cbn [existsb ranges_intersect].
  - apply Z.leb_le in L. rewrite Lw.
    replace (f_ltb fm180 (east zi)) with true; [reflexivity|].
    symmetry. change (ltb fm180 (east zi) = true).
    rewrite (ltb_V Fin_fm180 Fe), V_fm180. apply Z.ltb_lt.
    destruct (Z.eq_dec (V (east zi)) (- c180)) as [Q|Q]; [exfalso|lia].
    assert (Qw : west zi = fm180) by (apply (value_m180 Fw); lia).
    assert (Em : normalize_lon_point (f_add (fm180 : float) ZONE_WIDTH_DEG)
                 = Ok (f_of_int (-144))) by (vm_compute; reflexivity).
    rewrite Qw, Em in Ee. injection Ee as Ee.
    rewrite <- Ee in Q. vm_compute in Q. discriminate Q.
  - rewrite Lw, L180. reflexivity.
Qed.

(** X19: on doubles, the whole-globe range [(-180.0, 180.0)] covers all ten
    zones, for every finite boundary: the result is the list of
    [build_zone_intervals] in reverse, that is, in ascending order of zone
    number. *)
Theorem whole_globe_covers_all_zones_b64 (b : float) :
  valid_binary prec emax b = true -> is_finite b = true ->
  exists zs : list ZoneInterval,
    build_zone_intervals b = Ok zs /\
    zones_covered_by_lon_range fm180 f180 b = Ok (rev zs) /\
    map zone (rev zs) = [0; 1; 2; 3; 4; 5; 6; 7; 8; 9].
Proof.
  intros Vb Fb.
  destruct (@build_edges b (conj Vb Fb)) as [zs [Ez Hz]].
  exists zs. split; [exact Ez|]. split.
  - rewrite (@zones_covered_filter _ _ fm180 f180 b [(fm180, f180)] zs (fun _ => true));
      [| vm_compute; reflexivity | exact Ez |].
    + f_equal. apply forallb_filter_id. apply forallb_forall. reflexivity.
    + intros zi I. apply zone_hit_globe. rewrite Forall_forall in Hz. apply Hz, I.
  - rewrite map_rev, (build_zone_numbers _ Ez). reflexivity.
Qed.

Lemma whole_globe_covers_all_zones_b64_witness :
  exists zs : list (ZoneInterval (F := float)),
    build_zone_intervals LANGFANG_LON_EAST_BOUNDARY = Ok zs /\
    zones_covered_by_lon_range fm180 f180 LANGFANG_LON_EAST_BOUNDARY = Ok (rev zs) /\
    map zone (rev zs) = [0; 1; 2; 3; 4; 5; 6; 7; 8; 9].
Proof.
  apply (@whole_globe_covers_all_zones_b64 LANGFANG_LON_EAST_BOUNDARY);
    vm_compute; reflexivity.
Defined.

End Binary64Ranges.

(** * Accuracy of the normalizer and of the zone edges *)

Module Binary64Accuracy.
Import Binary64 Binary64Theory Binary64Defs Data Generic Structure Binary64Engine RangeStructure Binary64Rounding Binary64Seam Binary64Ranges.

Local Open Scope Z_scope.

(** [s % 360.0] is the value of [s] moved by whole turns, up to [2^-45]. *)
Lemma rem360_accuracy (s : float) :
  Fin s ->
  exists k : Z, Z.abs (V (rem s f360) - (V s + k * c360)) <= 2 ^ 1029.
Proof.
  intro Fs. pose proof (rem360_value Fs) as Er.
  assert (P360 : 0 < c360) by reflexivity.
  assert (P29 : 0 < 2 ^ 1029) by reflexivity.
  destruct (0 <=? V s) eqn:Sg.
  - pose proof (Z.div_mod (V s) c360 ltac:(lia)) as Dm.
    exists (- (V s / c360)).
    replace (V (rem s f360) - (V s + - (V s / c360) * c360)) with 0 by lia.
    cbn. lia.
  - apply Z.leb_gt in Sg. cbv zeta in Er.
    pose proof (Z.div_mod (- V s) c360 ltac:(lia)) as Dm.
    pose proof (Z.mod_pos_bound (- V s) c360 P360) as BR.
    set (RR := (- V s) mod c360) in *. set (q := (- V s) / c360) in *.
    destruct (RR =? 0) eqn:E0.
    + apply Z.eqb_eq in E0. exists q.
      replace (V (rem s f360) - (V s + q * c360)) with 0 by lia. cbn. lia.
    + apply Z.eqb_neq in E0.
      pose proof (@nearest_error (c360 - RR) 1083 ltac:(lia)
                    ltac:(apply c360_digits; lia) ltac:(lia)) as Ne.
      change (1083 - 54) with 1029 in Ne.
      exists (q + 1).
      replace (V (rem s f360) - (V s + (q + 1) * c360))
        with (nearest (c360 - RR) - (c360 - RR)) by lia.
      exact Ne.
Qed.

(** [normalize_lon_point] moves a longitude of at most 512 degrees by whole
    turns, up to three roundings: of the sum with [180.0], of the
    remainder, and of the difference with [180.0]. *)
Lemma point_accuracy (a : float) :
  Fin a -> Z.abs (V a) <= 2 ^ 1083 ->
  exists (y : float) (k : Z),
    normalize_lon_point a = Ok y /\
    Z.abs (V y - (V a + k * c360)) <= 7 * 2 ^ 1028.
Proof.
  intros Fa Ba.
  destruct (add180_value Fa) as [Fs Es].
  destruct (y0_value Fa) as [Fr [Nr [Br Ey]]].
  destruct (rem360_accuracy Fs) as [k1 E2].
  set (s := add a f180) in *. set (r := rem s f360) in *.
  assert (P180 : 0 < c180) by reflexivity.
  assert (E360 : c360 = 2 * c180) by reflexivity.
  pose proof c180_lt_pow as L180.
  assert (E1 : Z.abs (V s - (V a + c180)) <= 2 ^ 1030).
  { rewrite Es. apply (@rounding_error (V a + c180) 1084); [lia|].
    intros N. apply digits_le. split; [lia|].
    change (2 ^ 1084) with (2 * 2 ^ 1083).
    assert (2 ^ 1082 < 2 ^ 1083) by reflexivity. lia. }
  assert (E3 : Z.abs (V (y0 a) - (V r - c180)) <= 2 ^ 1028).
  { rewrite Ey. apply (@rounding_error (V r - c180) 1082); [lia|].
    intros N. apply digits_le. lia. }
  rewrite point_value.
  assert (Q : 7 * 2 ^ 1028 = 2 ^ 1030 + 2 ^ 1029 + 2 ^ 1028) by reflexivity.
  assert (P28 : 0 < 2 ^ 1028) by reflexivity.
  destruct (y0_props Fa) as [Fy _].
  destruct (eqb (y0 a) f180) eqn:T.
  - rewrite (eqb_V Fy Fin_f180), V_f180 in T. apply Z.eqb_eq in T.
    exists fm180, (k1 - 1). split; [reflexivity|]. rewrite V_fm180. lia.
  - exists (y0 a), k1. split; [reflexivity|]. lia.
Qed.

(** The east edge of a zone is not its west edge. *)
Lemma zone_edges_differ (zi : ZoneInterval) :
  zone_edges_ok zi -> V (west zi) <> V (east zi).
Proof.
  intros [[Fw [Bw _]] [[Fe [Be _]] Ee]] Q.
  assert (P180 : 0 < c180) by reflexivity.
  pose proof c180_lt_pow as L180. pose proof deg_pos as Pd.
  assert (D36 : 36 * deg = 9 * 2 ^ 1076) by reflexivity.
  assert (Fa : Fin (f_add (west zi) ZONE_WIDTH_DEG)).
  { apply Fin_add; [exact Fw|apply Fin_width|]. rewrite V_width.
    pose proof c180_lt_thr. unfold c180 in *. lia. }
  assert (Ea : Z.abs (V (f_add (west zi) ZONE_WIDTH_DEG) - (V (west zi) + 36 * deg))
               <= 2 ^ 1028).
  { change (f_add (west zi) ZONE_WIDTH_DEG) with (add (west zi) ZONE_WIDTH_DEG).
    rewrite (add_spec Fw Fin_width) by (rewrite V_width; lia).
    rewrite V_width.
    destruct (@rnd_Fin (V (west zi) + 36 * deg)) as [_ Ev].
    { pose proof c180_lt_thr. unfold c180 in *. lia. }
    rewrite Ev. apply (@rounding_error (V (west zi) + 36 * deg) 1082); [lia|].
    intros N. apply digits_le. split; [lia|]. unfold c180 in *.
    change (2 ^ 1082) with (256 * deg). lia. }
  destruct (@point_accuracy (f_add (west zi) ZONE_WIDTH_DEG) Fa) as [y [k [Ey Ek]]].
  { assert (2 ^ 1028 < 2 ^ 1082) by reflexivity.
    change (2 ^ 1083) with (2 * 2 ^ 1082). unfold c180 in *.
    change (2 ^ 1082) with (256 * deg) in *. lia. }
  rewrite Ee in Ey. injection Ey as <-.
  assert (B : Z.abs (36 * deg + k * c360) <= 2 ^ 1031) by lia.
  assert (S31 : 2 ^ 1031 < 2 ^ 1076) by reflexivity.
  assert (E360 : c360 = 10 * (36 * deg)) by reflexivity.
  assert (P76 : 0 < 2 ^ 1076) by reflexivity.
  destruct (Z_lt_ge_dec k 0); nia.
Qed.

Lemma near_trans (t1 t2 x y z : Z) :
  near_mod360 t1 x y -> near_mod360 t2 y z -> near_mod360 (t1 + t2) x z.
Proof.
  intros [k1 H1] [k2 H2]. exists (k1 + k2). lia.
Qed.

Lemma near_sym (t x y : Z) : near_mod360 t x y -> near_mod360 t y x.
Proof. intros [k H]. exists (- k). lia. Qed.

Lemma near_add (t x y c : Z) :
  near_mod360 t x y -> near_mod360 t (x + c) (y + c).
Proof. intros [k H]. exists k. lia. Qed.

Lemma near_weaken (t t' x y : Z) :
  t <= t' -> near_mod360 t x y -> near_mod360 t' x y.
Proof. intros L [k H]. exists k. lia. Qed.

Lemma near_turns (x m : Z) : near_mod360 0 (x + m * c360) x.
Proof. exists m. replace (x + m * c360 - (x + m * c360)) with 0 by lia. cbn. lia. Qed.

(** X5: accuracy of [normalize_lon_point] on doubles.  For a finite double
    [x] with [-512 <= x <= 512] the result is a double of [[-180, 180)]
    whose value is the value of [x] moved by whole turns, up to [2^-43]
    degrees. *)
Theorem normalize_lon_point_accuracy_b64 (x : float) :
  valid_binary prec emax x = true -> is_finite x = true ->
  f_leb (f_of_int (-512)) x = true -> f_leb x (f_of_int 512) = true ->
  exists y : float,
    normalize_lon_point x = Ok y /\
    f_leb fm180 y = true /\ f_ltb y f180 = true /\
    near_mod360 (2 ^ 1031) (V y) (V x).
Proof.
  intros Hv Hf L U. assert (Fx : Fin x) by (split; assumption).
  assert (Fl : Fin (f_of_int (-512))) by (split; vm_compute; reflexivity).
  assert (Fu : Fin (f_of_int 512)) by (split; vm_compute; reflexivity).
  change (leb (f_of_int (-512)) x = true) in L.
  change (leb x (f_of_int 512) = true) in U.
  rewrite (leb_V Fl Fx) in L. rewrite (leb_V Fx Fu) in U.
  apply Z.leb_le in L, U.
  change (V (f_of_int (-512))) with (- 2 ^ 1083) in L.
  change (V (f_of_int 512)) with (2 ^ 1083) in U.
  destruct (@point_accuracy x Fx ltac:(lia)) as [y [k [Ey Ek]]].
  destruct (point_props Fx) as [y' [Ey' [Fy By]]].
  rewrite Ey in Ey'. injection Ey' as <-.
  exists y. split; [exact Ey|].
  change (leb fm180 y = true /\ ltb y f180 = true /\ near_mod360 (2 ^ 1031) (V y) (V x)).
  rewrite (leb_V Fin_fm180 Fy), (ltb_V Fy Fin_f180), V_fm180, V_f180.
  split; [apply Z.leb_le; lia|]. split; [apply Z.ltb_lt; lia|].
  exists k. assert (7 * 2 ^ 1028 <= 2 ^ 1031) by (vm_compute; discriminate). lia.
Qed.

Lemma normalize_lon_point_accuracy_b64_witness :
  exists y : float,
    normalize_lon_point (f_dec 3601 1 : float) = Ok y /\
    f_leb fm180 y = true /\ f_ltb y f180 = true /\
    near_mod360 (2 ^ 1031) (V y) (V (f_dec 3601 1)).
Proof.
  apply (@normalize_lon_point_accuracy_b64 (f_dec 3601 1)); vm_compute; reflexivity.
Defined.


(** The width of a zone: 36 degrees, up to the roundings of
    [normalize_lon_point(west + 36.0)]. *)
Lemma zone_width (zi : ZoneInterval) :
  zone_edges_ok zi ->
  near_mod360 (2 ^ 1031) (V (east zi)) (V (west zi) + 36 * deg).
Proof.
  intros [[Fw [Bw _]] [[Fe [Be _]] Ee]].
  assert (P180 : 0 < c180) by reflexivity. pose proof deg_pos as Pd.
  destruct (@add_accuracy (west zi) ZONE_WIDTH_DEG 1082 Fw Fin_width) as [Fa Ea].
  { rewrite V_width. lia. } { lia. }
  { rewrite V_width. change (2 ^ 1082) with (256 * deg). unfold c180 in *. lia. }
  rewrite V_width in Ea. change (1082 - 54) with 1028 in Ea.
  destruct (@point_accuracy (add (west zi) ZONE_WIDTH_DEG) Fa) as [y [k [Ey Ek]]].
  { assert (2 ^ 1028 < 2 ^ 1082) by reflexivity.
    change (2 ^ 1083) with (2 * 2 ^ 1082). unfold c180 in *.
    change (2 ^ 1082) with (256 * deg) in *. lia. }
  change (f_add (west zi) ZONE_WIDTH_DEG) with (add (west zi) ZONE_WIDTH_DEG) in Ee.
  rewrite Ee in Ey. injection Ey as <-.
  exists k. assert (2 ^ 1031 = 8 * 2 ^ 1028) by reflexivity. lia.
Qed.

(** The west edge of the zone [k] steps east of the origin *)
Lemma west_accuracy (o : float) (k : Z) (zi : ZoneInterval) :
  Fin o -> - c180 <= V o < c180 -> 0 <= k <= 9 ->
  zone_at o k = Ok zi ->
  near_mod360 (9 * 2 ^ 1028) (V (west zi)) (V o + 36 * k * deg).
Proof.
  intros Fo Bo K E. unfold zone_at in E.
  destruct (@offset_props k ltac:(lia)) as [Fc Vc].
  assert (P180 : 0 < c180) by reflexivity. pose proof deg_pos as Pd.
  assert (Kd : 0 <= k * deg <= 9 * deg) by nia.
  assert (Kd' : 0 <= 36 * k * deg <= 324 * deg) by nia.
  set (c := f_mul (f_of_int k) ZONE_WIDTH_DEG) in *.
  assert (Fa : Fin (f_add o c) /\
               Z.abs (V (f_add o c) - (V o + 36 * k * deg)) <= 2 ^ 1029).
  { destruct (Z.eq_dec k 0) as [K0|K0].
    - (* the offset is zero: the sum is the origin itself *)
      assert (Ec : c = pzero) by (unfold c; rewrite K0; vm_compute; reflexivity).
      rewrite Ec, K0.
      assert (Ez : forall x : float, Fin x ->
                   Fin (f_add x pzero) /\ V (f_add x pzero) = V x).
      { intros x [Hvx Hfx]. destruct x as [[|]| | |s m e]; try discriminate Hfx.
        - split; [split; reflexivity|reflexivity].
        - split; [split; reflexivity|reflexivity].
        - split; [split; [exact Hvx|reflexivity]|reflexivity]. }
      destruct (Ez o Fo) as [F1 V1]. split; [exact F1|].
      rewrite V1. replace (V o - (V o + 36 * 0 * deg)) with 0 by lia. cbn. lia.
    - destruct (@add_accuracy o c 1083 Fo Fc) as [F1 E1].
      + rewrite Vc. nia.
      + lia.
      + rewrite Vc. change (2 ^ 1083) with (512 * deg). unfold c180 in *. lia.
      + rewrite Vc in E1. split; [exact F1|exact E1]. }
  destruct Fa as [Fa Ea].
  destruct (@point_accuracy (f_add o c) Fa) as [y [j [Ey Ej]]].
  { assert (2 ^ 1029 < deg) by reflexivity.
    change (2 ^ 1083) with (512 * deg). unfold c180 in *. lia. }
  rewrite Ey, bind_ok in E.
  destruct (normalize_lon_point (f_add y ZONE_WIDTH_DEG)) as [e|x]; [|discriminate E].
  rewrite bind_ok in E. injection E as <-. cbn [west].
  exists j. assert (2 ^ 1029 = 2 * 2 ^ 1028) by reflexivity. lia.
Qed.

Lemma map_result_nth {A B : Type} (f : A -> result B) (xs : list A) (ys : list B)
      (i : nat) (y : B) :
  map_result f xs = Ok ys -> nth_error ys i = Some y ->
  exists x, nth_error xs i = Some x /\ f x = Ok y.
Proof.
  revert ys i. induction xs as [|x xs IH]; intros ys i E N.
  - cbn in E. injection E as <-. destruct i; discriminate N.
  - cbn [map_result] in E.
    destruct (f x) as [y0|e] eqn:Fx; [|discriminate E]. rewrite bind_ok in E.
    destruct (map_result f xs) as [ys'|e]; [|discriminate E].
    rewrite bind_ok in E. injection E as <-.
    destruct i as [|i].
    + cbn in N. injection N as <-. exists x. split; [reflexivity|exact Fx].
    + cbn in N. destruct (IH ys' i eq_refl N) as [x' [Nx Ex]].
      exists x'. split; [exact Nx|exact Ex].
Qed.

Lemma range10_nth (i : nat) (k : Z) :
  nth_error range10 i = Some k -> k = Z.of_nat i /\ (i < 10)%nat.
Proof.
  intro N. unfold range10 in N.
  do 10 (destruct i as [|i]; [cbn in N; injection N as <-; split; [reflexivity|lia]|]).
  destruct i; discriminate N.
Qed.

(** The origin lies 36 degrees west of the normalized boundary. *)
Lemma origin_accuracy (b : float) :
  Fin b ->
  exists pb o : float,
    normalize_lon_point b = Ok pb /\ zone_origin b = Ok o /\
    Fin o /\ - c180 <= V o < c180 /\
    near_mod360 (2 ^ 1031) (V o) (V pb - 36 * deg).
Proof.
  intro Fb. unfold zone_origin.
  destruct (point_props Fb) as [pb [E [Fe Be]]]. rewrite E, bind_ok.
  assert (P180 : 0 < c180) by reflexivity. pose proof deg_pos as Pd.
  destruct (@sub_accuracy pb ZONE_WIDTH_DEG 1082 Fe Fin_width) as [Fs Es].
  { rewrite V_width. lia. } { lia. }
  { rewrite V_width. change (2 ^ 1082) with (256 * deg). unfold c180 in *. lia. }
  rewrite V_width in Es. change (1082 - 54) with 1028 in Es.
  destruct (@point_accuracy (sub pb ZONE_WIDTH_DEG) Fs) as [o [k [Eo Ek]]].
  { assert (2 ^ 1028 < deg) by reflexivity.
    change (2 ^ 1083) with (512 * deg). unfold c180 in *. lia. }
  destruct (point_props Fs) as [o' [Eo' [Fo Bo]]].
  rewrite Eo in Eo'. injection Eo' as <-.
  exists pb, o. split; [reflexivity|]. split; [exact Eo|].
  split; [exact Fo|]. split; [exact Bo|].
  exists k. assert (2 ^ 1031 = 8 * 2 ^ 1028) by reflexivity. lia.
Qed.

(** X11: on doubles the ten intervals of [build_zone_intervals] follow one
    another around the circle, up to rounding.  For a finite boundary they
    are numbered 9, 8, ..., 0 in the order of the list; the east edge of
    each is the west edge of the next entry (and that of the last entry the
    west edge of the first) up to [2^-41] degrees and whole turns; the first
    entry, zone 9, ends at the normalized boundary up to [2^-41] degrees;
    each arc is 36 degrees wide up to [2^-43] degrees. *)
Theorem zones_follow_one_another_b64 (b : float) :
  valid_binary prec emax b = true -> is_finite b = true ->
  exists (zs : list ZoneInterval) (pb : float),
    build_zone_intervals b = Ok zs /\
    normalize_lon_point b = Ok pb /\
    map zone zs = [9; 8; 7; 6; 5; 4; 3; 2; 1; 0] /\
    (forall z9, nth_error zs 0 = Some z9 ->
       near_mod360 (2 ^ 1033) (V (east z9)) (V pb)) /\
    (forall (i : nat) (zi zj : ZoneInterval),
        nth_error zs i = Some zi ->
        nth_error zs (Nat.modulo (i + 1) 10) = Some zj ->
        near_mod360 (2 ^ 1033) (V (east zi)) (V (west zj))) /\
    (forall zi, In zi zs ->
       near_mod360 (2 ^ 1031) (V (east zi)) (V (west zi) + 36 * deg)).
Proof.
  intros Hv Hf. assert (Fb : Fin b) by (split; assumption).
  destruct (origin_accuracy Fb) as [pb [o [Ep [Eo [Fo [Bo No]]]]]].
  destruct (build_edges Fb) as [zs [Ez Hz]]. rewrite Forall_forall in Hz.
  exists zs, pb. split; [exact Ez|]. split; [exact Ep|].
  split; [apply (build_zone_numbers _ Ez)|].
  pose proof Ez as Em. unfold build_zone_intervals in Em.
  rewrite Eo, bind_ok in Em.
  assert (At : forall (i : nat) zi, nth_error zs i = Some zi ->
             (i < 10)%nat /\ zone_at o (Z.of_nat i) = Ok zi /\ zone_edges_ok zi).
  { intros i zi N. destruct (map_result_nth _ _ _ Em N) as [k [Nk Ek]].
    apply range10_nth in Nk. destruct Nk as [-> Li].
    split; [exact Li|]. split; [exact Ek|]. apply Hz. eapply nth_error_In, N. }
  assert (T28 : 0 < 2 ^ 1028) by reflexivity.
  assert (T31 : 2 ^ 1031 = 8 * 2 ^ 1028) by reflexivity.
  assert (T33 : 2 ^ 1033 = 32 * 2 ^ 1028) by reflexivity.
  assert (E360 : c360 = 10 * (36 * deg)) by reflexivity.
  (* the east edge of the zone at index i, from the origin *)
  assert (Ea : forall (i : nat) zi, nth_error zs i = Some zi ->
             near_mod360 (17 * 2 ^ 1028) (V (east zi))
               (V o + 36 * Z.of_nat i * deg + 36 * deg)).
  { intros i zi N. destruct (At i zi N) as [Li [Ei Zi]].
    pose proof (@west_accuracy o (Z.of_nat i) zi Fo Bo ltac:(lia) Ei) as W.
    pose proof (zone_width Zi) as Wd. rewrite T31 in Wd.
    apply (near_add (36 * deg)) in W.
    pose proof (near_trans Wd W) as R.
    replace (8 * 2 ^ 1028 + 9 * 2 ^ 1028) with (17 * 2 ^ 1028) in R by lia.
    exact R. }
  split; [|split].
  - intros z9 N. specialize (Ea 0%nat z9 N). cbn [Z.of_nat] in Ea.
    apply (near_add (36 * deg)) in No. rewrite T31 in No.
    replace (V o + 36 * 0 * deg + 36 * deg) with (V o + 36 * deg) in Ea by lia.
    replace (V pb - 36 * deg + 36 * deg) with (V pb) in No by lia.
    apply near_weaken with (t := 17 * 2 ^ 1028 + 8 * 2 ^ 1028); [lia|].
    apply (near_trans Ea No).
  - intros i zi zj Ni Nj. destruct (At i zi Ni) as [Li _].
    destruct (At _ zj Nj) as [Lj [Ej Zj]].
    pose proof (@west_accuracy o (Z.of_nat ((i + 1) mod 10)) zj Fo Bo
                  ltac:(lia) Ej) as W.
    apply near_sym in W.
    specialize (Ea i zi Ni).
    apply near_weaken with (t := 17 * 2 ^ 1028 + (0 + 9 * 2 ^ 1028)); [lia|].
    apply (near_trans Ea). refine (near_trans _ W).
    (* the two offsets differ by whole turns *)
    assert (Q : (i + 1 = 10 /\ (i + 1) mod 10 = 0)%nat \/
                ((i + 1) mod 10 = i + 1)%nat).
    { destruct (Nat.eq_dec (i + 1) 10) as [T|T]; [left; rewrite T; split; reflexivity|].
      right. apply Nat.mod_small. lia. }
    destruct Q as [[Q1 Q2]|Q].
    + rewrite Q2. cbn [Z.of_nat]. exists 1.
      replace (Z.of_nat i) with 9 by lia.
      replace (V o + 36 * 9 * deg + 36 * deg - (V o + 36 * 0 * deg + 1 * c360))
        with 0 by lia.
      cbn. lia.
    + rewrite Q. exists 0.
      replace (Z.of_nat (i + 1)) with (Z.of_nat i + 1) by lia.
      replace (V o + 36 * Z.of_nat i * deg + 36 * deg
               - (V o + 36 * (Z.of_nat i + 1) * deg + 0 * c360)) with 0 by lia.
      cbn. lia.
  - intros zi I. apply zone_width, Hz, I.
Qed.

Lemma zones_follow_one_another_b64_witness :
  exists (zs : list (ZoneInterval (F := float))) (pb : float),
    build_zone_intervals LANGFANG_LON_EAST_BOUNDARY = Ok zs /\
    normalize_lon_point LANGFANG_LON_EAST_BOUNDARY = Ok pb /\
    map zone zs = [9; 8; 7; 6; 5; 4; 3; 2; 1; 0] /\
    (forall z9, nth_error zs 0 = Some z9 ->
       near_mod360 (2 ^ 1033) (V (east z9)) (V pb)) /\
    (forall (i : nat) (zi zj : ZoneInterval),
        nth_error zs i = Some zi ->
        nth_error zs (Nat.modulo (i + 1) 10) = Some zj ->
        near_mod360 (2 ^ 1033) (V (east zi)) (V (west zj))) /\
    (forall zi, In zi zs ->
       near_mod360 (2 ^ 1031) (V (east zi)) (V (west zi) + 36 * deg)).
Proof.
  apply (@zones_follow_one_another_b64 LANGFANG_LON_EAST_BOUNDARY);
    vm_compute; reflexivity.
Defined.

End Binary64Accuracy.

(** * Zones reported by a range query meet the range *)

Module Binary64Meet.
Import Binary64 Binary64Theory Binary64Defs Data Generic Structure Binary64Engine RangeStructure Binary64Rounding Binary64Seam Binary64Ranges Binary64Accuracy.

Local Open Scope Z_scope.

(** Two segments that meet have a double in common: the larger of their
    west ends. *)
Lemma meet_point (a0 a1 b0 b1 : float) :
  Fin a0 -> Fin a1 -> Fin b0 -> Fin b1 ->
  V a0 <= V a1 -> V b0 < V b1 ->
  ranges_intersect (a0, a1) (b0, b1) = true ->
  exists p : float,
    Fin p /\ V a0 <= V p <= V a1 /\ V b0 <= V p < V b1.
Proof.
  intros Fa0 Fa1 Fb0 Fb1 La Lb H. cbn [ranges_intersect] in H.
  change (ltb a0 b1 && ltb b0 a1 = true) in H.
  rewrite (ltb_V Fa0 Fb1), (ltb_V Fb0 Fa1) in H.
  apply andb_true_iff in H. destruct H as [H1 H2].
  apply Z.ltb_lt in H1, H2.
  destruct (Z_le_gt_dec (V a0) (V b0)).
  - exists b0. split; [exact Fb0|]. lia.
  - exists a0. split; [exact Fa0|]. lia.
Qed.

(** A zone that a part of the range meets holds a point of that part. *)
Lemma hit_point (a0 a1 : float) (zi : ZoneInterval) :
  zone_edges_ok zi -> Fin a0 -> Fin a1 ->
  - c180 <= V a0 -> V a0 <= V a1 -> V a1 <= c180 ->
  existsb (fun zp => ranges_intersect (a0, a1) zp)
    (if f_leb (west zi) (east zi) then [(west zi, east zi)]
     else [(west zi, f180); (fm180, east zi)]) = true ->
  exists p : float,
    Fin p /\ V a0 <= V p <= V a1 /\ V p < c180 /\ arc_contains zi p = true.
Proof.
  intros Z Fa0 Fa1 B0 B01 B1 H.
  pose proof (zone_edges_differ Z) as Nd.
  destruct Z as [[Fw [Bw _]] [[Fe [Be _]] _]].
  assert (P180 : 0 < c180) by reflexivity.
  unfold arc_contains.
  change (f_leb (west zi) (east zi)) with (leb (west zi) (east zi)) in *.
  rewrite (leb_V Fw Fe) in *.
  assert (Ar : forall p : float, Fin p ->
             f_leb (west zi) p = (V (west zi) <=? V p) /\
             f_ltb p (east zi) = (V p <? V (east zi))).
  { intros p Fp. split; [apply (leb_V Fw Fp)|apply (ltb_V Fp Fe)]. }
  destruct (V (west zi) <=? V (east zi)) eqn:L.
  - apply Z.leb_le in L. cbn [existsb] in H. rewrite orb_false_r in H.
    destruct (@meet_point a0 a1 (west zi) (east zi)) as [p [Fp [Ba Bb]]];
      try assumption; [lia|].
    exists p. split; [exact Fp|]. split; [exact Ba|]. split; [lia|].
    destruct (Ar p Fp) as [-> ->].
    apply andb_true_iff. split; [apply Z.leb_le|apply Z.ltb_lt]; lia.
  - apply Z.leb_gt in L. cbn [existsb] in H. rewrite orb_false_r in H.
    apply orb_true_iff in H. destruct H as [H|H].
    + destruct (@meet_point a0 a1 (west zi) f180) as [p [Fp [Ba Bb]]];
        try assumption; [apply Fin_f180|rewrite V_f180; lia|].
      rewrite V_f180 in Bb.
      exists p. split; [exact Fp|]. split; [exact Ba|]. split; [lia|].
      destruct (Ar p Fp) as [-> _].
      apply orb_true_iff. left. apply Z.leb_le. lia.
    + assert (Lt : V a0 < V (east zi)).
      { cbn [ranges_intersect] in H. apply andb_true_iff in H.
        destruct H as [H _]. change (ltb a0 (east zi) = true) in H.
        rewrite (ltb_V Fa0 Fe) in H. apply Z.ltb_lt in H. exact H. }
      destruct (@meet_point a0 a1 fm180 (east zi)) as [p [Fp [Ba Bb]]];
        try assumption; [apply Fin_fm180|rewrite V_fm180; lia|].
      exists p. split; [exact Fp|]. split; [exact Ba|]. split; [lia|].
      destruct (Ar p Fp) as [_ ->].
      apply orb_true_iff. right. apply Z.ltb_lt. lia.
Qed.

(** X21: on doubles, a range query reports no zone that is away from the
    range.  For finite ends and a finite boundary, with [w] and [e] the
    normalized ends, every interval of the result has a double [p] of
    [[-180, 180)] that lies in its arc and between the ends of the range:
    in [[w, e]] when [w <= e], in [[w, 180]] or [[-180, e]] when the range
    crosses the seam. *)
Theorem range_query_zones_meet_the_range_b64 (bbox_west bbox_east b : float) :
  valid_binary prec emax bbox_west = true -> is_finite bbox_west = true ->
  valid_binary prec emax bbox_east = true -> is_finite bbox_east = true ->
  valid_binary prec emax b = true -> is_finite b = true ->
  exists (w e : float) (res : list ZoneInterval),
    normalize_lon_edge bbox_west = Ok w /\
    normalize_lon_edge bbox_east = Ok e /\
    zones_covered_by_lon_range bbox_west bbox_east b = Ok res /\
    forall zi, In zi res ->
      exists p : float,
        is_finite p = true /\ f_leb fm180 p = true /\ f_ltb p f180 = true /\
        arc_contains zi p = true /\ in_range_closed w e p = true.
Proof.
  intros Vw Hw Ve He Vb Hb.
  destruct (@edge_props bbox_west (conj Vw Hw)) as [w [Ew [Fw [_ [Bw _]]]]].
  destruct (@edge_props bbox_east (conj Ve He)) as [e [Ee [Fe [_ [Be _]]]]].
  destruct (@build_edges b (conj Vb Hb)) as [zs [Ez Hz]].
  rewrite Forall_forall in Hz.
  assert (P180 : 0 < c180) by reflexivity.
  pose proof Fin_f180 as F180. pose proof Fin_fm180 as Fm180.
  set (parts := if f_leb w e then [(w, e)] else [(w, f180); (fm180, e)]).
  set (h := fun zi : ZoneInterval =>
              existsb (fun p =>
                existsb (fun zp => ranges_intersect p zp)
                  (if f_leb (west zi) (east zi) then [(west zi, east zi)]
                   else [(west zi, f180); (fm180, east zi)])) parts).
  exists w, e, (filter h (rev zs)).
  split; [exact Ew|]. split; [exact Ee|]. split.
  - apply zones_covered_filter with (parts := parts);
      [apply (split_range_shape _ _ Ew Ee)|exact Ez|].
    intros zi I. unfold zone_hit. rewrite (zone_parts (Hz zi I)). reflexivity.
  - intros zi I. apply filter_In in I. destruct I as [I Hh].
    apply in_rev in I. specialize (Hz zi I).
    assert (Out : forall (a0 a1 p : float),
               Fin p -> - c180 <= V a0 -> V a0 <= V p -> V p < c180 ->
               is_finite p = true /\ f_leb fm180 p = true /\ f_ltb p f180 = true).
    { intros a0 a1 p Fp B1 B2 B3. split; [apply Fp|].
      change (leb fm180 p = true /\ ltb p f180 = true).
      rewrite (leb_V Fm180 Fp), (ltb_V Fp F180), V_fm180, V_f180.
      split; [apply Z.leb_le|apply Z.ltb_lt]; lia. }
    unfold h, parts in Hh. unfold in_range_closed.
    change (f_leb w e) with (leb w e) in *. rewrite (leb_V Fw Fe) in *.
    destruct (V w <=? V e) eqn:L.
    + apply Z.leb_le in L. cbn [existsb] in Hh. rewrite orb_false_r in Hh.
      destruct (@hit_point w e zi Hz Fw Fe) as [p [Fp [Ba [Bp Ap]]]];
        [lia|lia|lia|exact Hh|].
      exists p. destruct (Out w e p Fp) as [O1 [O2 O3]]; [lia|lia|lia|].
      repeat (split; [assumption|]).
      change (leb w p && leb p e = true).
      rewrite (leb_V Fw Fp), (leb_V Fp Fe).
      apply andb_true_iff. split; apply Z.leb_le; lia.
    + apply Z.leb_gt in L. cbn [existsb] in Hh. rewrite orb_false_r in Hh.
      apply orb_true_iff in Hh. destruct Hh as [Hh|Hh].
      * destruct (@hit_point w f180 zi Hz Fw F180) as [p [Fp [Ba [Bp Ap]]]];
          [lia|rewrite V_f180; lia|rewrite V_f180; lia|exact Hh|].
        exists p. destruct (Out w e p Fp) as [O1 [O2 O3]]; [lia|lia|lia|].
        repeat (split; [assumption|]).
        change (leb w p || leb p e = true). rewrite (leb_V Fw Fp).
        apply orb_true_iff. left. apply Z.leb_le. lia.
      * destruct (@hit_point fm180 e zi Hz Fm180 Fe) as [p [Fp [Ba [Bp Ap]]]];
          [rewrite V_fm180; lia|rewrite V_fm180; lia|lia|exact Hh|].
        rewrite V_fm180 in Ba.
        exists p. destruct (Out fm180 e p Fp) as [O1 [O2 O3]];
          [rewrite V_fm180; lia|rewrite V_fm180; lia|lia|].
        repeat (split; [assumption|]).
        change (leb w p || leb p e = true). rewrite (leb_V Fp Fe).
        apply orb_true_iff. right. apply Z.leb_le. lia.
Qed.

Lemma range_query_zones_meet_the_range_b64_witness :
  exists (w e : float) (res : list ZoneInterval),
    normalize_lon_edge (f_dec 1700 1 : float) = Ok w /\
    normalize_lon_edge (f_dec (-1700) 1 : float) = Ok e /\
    zones_covered_by_lon_range (f_dec 1700 1) (f_dec (-1700) 1)
      LANGFANG_LON_EAST_BOUNDARY = Ok res /\
    forall zi, In zi res ->
      exists p : float,
        is_finite p = true /\ f_leb fm180 p = true /\ f_ltb p f180 = true /\
        arc_contains zi p = true /\ in_range_closed w e p = true.
Proof.
  apply (@range_query_zones_meet_the_range_b64
           (f_dec 1700 1) (f_dec (-1700) 1) LANGFANG_LON_EAST_BOUNDARY);
    vm_compute; reflexivity.
Defined.

End Binary64Meet.

(** * The longitudes of a geometry *)

Module GeoJSONTheory.
Import GeoJSON Generic.
Section GeoJSONTheory.

Context {F : Type} `{PyFloat F} `{PyFloatOfInt F}.

Local Open Scope py_scope.

Lemma walk_items_nil (lons : list F) : walk_items [] lons = Ok lons.
Proof. reflexivity. Qed.

Lemma walk_items_cons (it : pyval) (items : list pyval) (lons : list F) :
  walk_items (it :: items) lons =
  (lons' <- walk_coords it lons ;; walk_items items lons').
Proof. reflexivity. Qed.

Lemma longitudes_of_all_cons (c : coords) (items : list coords) :
  longitudes_of_all (c :: items) =
  (xs <- longitudes_of c ;; ys <- longitudes_of_all items ;; Ok (xs ++ ys)).
Proof. reflexivity. Qed.

Lemma longitudes_of_nested (items : list coords) :
  longitudes_of (Nested items) = longitudes_of_all items.
Proof. reflexivity. Qed.

(** Numbers are skipped when they are walked as items. *)
Lemma walk_numbers (nums : list pynum) (lons : list F) :
  walk_items (map PNum nums) lons = Ok lons.
Proof.
  induction nums as [|n nums IH]; [reflexivity|].
  cbn [map]. rewrite walk_items_cons. cbn [walk_coords]. rewrite bind_ok. exact IH.
Qed.

Lemma walk_position (nums : list pynum) (lons : list F) :
  walk_coords (PList (map PNum nums)) lons =
  (xs <- longitudes_of (Position nums) ;; Ok (lons ++ xs)).
Proof.
  destruct nums as [|a [|b [|c nums]]].
  - cbn. rewrite app_nil_r. reflexivity.
  - cbn. rewrite app_nil_r. reflexivity.
  - cbn. destruct (py_float a); reflexivity.
  - cbn [longitudes_of]. rewrite bind_ok, app_nil_r.
    change (walk_coords (PList (map PNum (a :: b :: c :: nums))) lons)
      with (walk_items (map PNum (a :: b :: c :: nums)) lons).
    apply walk_numbers.
Qed.

Lemma bind_assoc {A B C : Type} (r : result A) (f : A -> result B) (g : B -> result C) :
  bind (bind r f) g = bind r (fun a => bind (f a) g).
Proof. destruct r; reflexivity. Qed.

(** A nested array is never taken for a position: its items are arrays. *)
Lemma walk_nested_unfold (items : list coords) (lons : list F) :
  walk_coords (PList (map coords_value items)) lons =
  walk_items (map coords_value items) lons.
Proof.
  destruct items as [|c1 items]; [reflexivity|].
  destruct c1; reflexivity.
Qed.

(** [walk_coords] appends the longitudes of the positions, in order. *)
Lemma walk_coords_spec (c : coords) (lons : list F) :
  walk_coords (coords_value c) lons =
  (xs <- longitudes_of c ;; Ok (lons ++ xs)).
Proof.
  revert c lons. fix ind 1. intros c lons. destruct c as [nums|items].
  - apply walk_position.
  - cbn [coords_value]. rewrite walk_nested_unfold, longitudes_of_nested.
    revert lons. induction items as [|c items IHi]; intro lons.
    + cbn. rewrite app_nil_r. reflexivity.
    + cbn [map]. rewrite walk_items_cons, longitudes_of_all_cons, (ind c lons).
      destruct (longitudes_of c) as [xs|e]; [|reflexivity].
      rewrite !bind_ok. rewrite IHi.
      destruct (longitudes_of_all items) as [ys|e]; [|reflexivity].
      rewrite !bind_ok. rewrite app_assoc. reflexivity.
Qed.

Lemma bind_ret {A : Type} (r : result (list A)) :
  (xs <- r ;; Ok ([] ++ xs)) = r.
Proof. destruct r; reflexivity. Qed.

Lemma extract_dict (d : list (String.string * @pyval F)) :
  d <> [] ->
  extract_lons_from_geojson (PDict d) =
  walk_coords (dict_get d "coordinates"%string) [].
Proof.
  intro Ne. unfold extract_lons_from_geojson. cbn [truthy is_dict].
  destruct d; [contradiction|reflexivity].
Qed.

Lemma dict_get_some (d : list (String.string * @pyval F)) (key : String.string) :
  dict_get d key <> PNone -> d <> [].
Proof. destruct d; [intro N; contradiction|discriminate]. Qed.

(** X23: [extract_lons_from_geojson] flattens the member [coordinates].  When
    the geometry is a dict whose [coordinates] is an array of positions
    nested to any depth, the result is the first number of every position
    of exactly two numbers, converted by [float], in the order of the
    document; a position of any other length gives nothing. *)
Theorem extract_lons_flattens (d : list (String.string * @pyval F)) (c : coords) :
  dict_get d "coordinates"%string = coords_value c ->
  extract_lons_from_geojson (PDict d) = longitudes_of c.
Proof.
  intro E. rewrite extract_dict.
  - rewrite E, walk_coords_spec. apply bind_ret.
  - apply dict_get_some with "coordinates"%string. rewrite E.
    destruct c; discriminate.
Qed.

Lemma line_coords (ps : list (F * F)) :
  line_value ps =
  coords_value (Nested (map (fun p => Position [NFloat (fst p); NFloat (snd p)]) ps)) /\
  longitudes_of (Nested (map (fun p => Position [NFloat (fst p); NFloat (snd p)]) ps))
  = Ok (map fst ps).
Proof.
  split.
  - unfold line_value. cbn [coords_value]. rewrite map_map. reflexivity.
  - rewrite longitudes_of_nested.
    induction ps as [|p ps IH]; [reflexivity|].
    cbn [map]. rewrite longitudes_of_all_cons, IH. reflexivity.
Qed.

Lemma line3_coords (ps : list (F * F * F)) :
  line3_value ps =
  coords_value (Nested (map (fun p => Position [NFloat (fst (fst p));
                                                NFloat (snd (fst p));
                                                NFloat (snd p)]) ps)) /\
  longitudes_of (Nested (map (fun p => Position [NFloat (fst (fst p));
                                                 NFloat (snd (fst p));
                                                 NFloat (snd p)]) ps))
  = Ok [].
Proof.
  split.
  - unfold line3_value. cbn [coords_value]. rewrite map_map. reflexivity.
  - rewrite longitudes_of_nested.
    induction ps as [|p ps IH]; [reflexivity|].
    cbn [map]. rewrite longitudes_of_all_cons, IH. reflexivity.
Qed.

(** X24: for a line of positions [[x, y]] given as floats (the member
    [coordinates] of a LineString or a MultiPoint),
    [extract_lons_from_geojson] returns the list of the [x], in order. *)
Theorem extract_lons_of_line (d : list (String.string * @pyval F)) (ps : list (F * F)) :
  dict_get d "coordinates"%string = line_value ps ->
  extract_lons_from_geojson (PDict d) = Ok (map fst ps).
Proof.
  intro E. destruct (line_coords ps) as [E1 E2]. rewrite extract_dict.
  - rewrite E, E1, walk_coords_spec, E2. reflexivity.
  - apply dict_get_some with "coordinates"%string. rewrite E. discriminate.
Qed.

(** X25: positions with an altitude are not read.  For a line of positions
    [[x, y, z]], [extract_lons_from_geojson] returns the empty list: an
    array of three numbers is not a position for [walk_coords], and its
    items, being numbers, are skipped. *)
Theorem extract_lons_skips_altitudes
    (d : list (String.string * @pyval F)) (ps : list (F * F * F)) :
  dict_get d "coordinates"%string = line3_value ps ->
  extract_lons_from_geojson (PDict d) = Ok [].
Proof.
  intro E. destruct (line3_coords ps) as [E1 E2]. rewrite extract_dict.
  - rewrite E, E1, walk_coords_spec, E2. reflexivity.
  - apply dict_get_some with "coordinates"%string. rewrite E. discriminate.
Qed.

(** X26: [extract_lons_from_geojson] returns the empty list, and raises
    nothing, when there is no geometry to read: when its argument is not a
    dict, when it is the empty dict, and when the member [coordinates] is
    absent or is neither a list nor a tuple. *)
Theorem extract_lons_without_geometry :
  (forall geom : @pyval F,
      is_dict geom = false -> extract_lons_from_geojson geom = Ok []) /\
  extract_lons_from_geojson (PDict []) = Ok [] /\
  (forall d : list (String.string * @pyval F),
      match dict_get d "coordinates"%string with
      | PList _ | PTuple _ => False
      | _ => True
      end ->
      extract_lons_from_geojson (PDict d) = Ok []).
Proof.
  split; [|split].
  - intros geom N. unfold extract_lons_from_geojson. rewrite N.
    rewrite orb_true_r. reflexivity.
  - reflexivity.
  - intros d N. destruct d as [|kv d]; [reflexivity|].
    rewrite extract_dict by discriminate.
    destruct (dict_get (kv :: d) "coordinates"%string); try contradiction; reflexivity.
Qed.

End GeoJSONTheory.

Lemma extract_lons_flattens_witness :
  extract_lons_from_geojson
    (PDict [("type"%string, PStr "Point"%string);
            ("coordinates"%string,
             PList [PNum (NFloat (f_dec 1167 1 : Binary64.float));
                    PNum (NFloat (f_dec 399 1))])])
  = longitudes_of (Position [NFloat (f_dec 1167 1 : Binary64.float);
                             NFloat (f_dec 399 1)]).
Proof.
  apply (@extract_lons_flattens Binary64.float _ _
           [("type"%string, PStr "Point"%string);
            ("coordinates"%string,
             PList [PNum (NFloat (f_dec 1167 1 : Binary64.float));
                    PNum (NFloat (f_dec 399 1))])]
           (Position [NFloat (f_dec 1167 1 : Binary64.float);
                      NFloat (f_dec 399 1)])).
  reflexivity.
Defined.

Lemma extract_lons_of_line_witness :
  extract_lons_from_geojson
    (PDict [("coordinates"%string,
             line_value [(f_dec 1167 1 : Binary64.float, f_dec 399 1);
                         (f_dec 1527 1, f_dec 400 1)])])
  = Ok (map fst [(f_dec 1167 1 : Binary64.float, f_dec 399 1);
                 (f_dec 1527 1, f_dec 400 1)]).
Proof.
  apply (@extract_lons_of_line Binary64.float _ _
           [("coordinates"%string,
             line_value [(f_dec 1167 1 : Binary64.float, f_dec 399 1);
                         (f_dec 1527 1, f_dec 400 1)])]
           [(f_dec 1167 1 : Binary64.float, f_dec 399 1);
            (f_dec 1527 1, f_dec 400 1)]).
  reflexivity.
Defined.

Lemma extract_lons_skips_altitudes_witness :
  extract_lons_from_geojson
    (PDict [("coordinates"%string,
             line3_value [(f_dec 1167 1 : Binary64.float, f_dec 399 1, f_dec 10 1);
                          (f_dec 1527 1, f_dec 400 1, f_dec 20 1)])])
  = Ok [].
Proof.
  apply (@extract_lons_skips_altitudes Binary64.float _ _
           [("coordinates"%string,
             line3_value [(f_dec 1167 1 : Binary64.float, f_dec 399 1, f_dec 10 1);
                          (f_dec 1527 1, f_dec 400 1, f_dec 20 1)])]
           [(f_dec 1167 1 : Binary64.float, f_dec 399 1, f_dec 10 1);
            (f_dec 1527 1, f_dec 400 1, f_dec 20 1)]).
  reflexivity.
Defined.

End GeoJSONTheory.
